(** * guacamole-common-js: a shallow embedding of the protocol core

  The development follows the JavaScript sources: the instruction framing
  written by the tunnels' [sendMessage], the incremental [Parser], the
  [Status] classification, the HTTP tunnel's [close_tunnel], the
  [ChainedTunnel] fail-over, the [ArrayBufferWriter], the stream handlers of
  the [Client], the streaming UTF-8 decoder of the [StringReader] and the
  frame engine of the [Display].

  JavaScript strings are sequences of UTF-16 code units, so a string is a
  list of code units here and [length] is what [String.prototype.length]
  returns.  Numbers are integers or [NaN]; integer arithmetic is exact,
  as it is in JavaScript below 2^53. *)

From Stdlib Require Import ZArith Lia List Bool.
From stdpp Require Import base list gmap.

Local Open Scope Z_scope.

(** ** JavaScript values used by the sources *)
Module JS.

(** A number: an integer or NaN. *)
Inductive jsnum : Type :=
| Num (z : Z)
| NaN.

#[global] Instance jsnum_eq_dec : EqDecision jsnum.
Proof. solve_decision. Defined.

#[global] Instance jsnum_countable : Countable jsnum.
Proof.
  refine (inj_countable'
            (fun n => match n with Num z => Some z | NaN => None end)
            (fun o => match o with Some z => Num z | None => NaN end) _).
  by intros [].
Defined.

(** A string: its UTF-16 code units. *)
Definition jsstring : Type := list Z.

(** [a < b], [a >= b], [a > b], [a == b] (and [===]), [a != b] (and
    [!==]) on numbers: every comparison with NaN is false, also
    [NaN == NaN], so [NaN != b] is true. *)
Definition lt (a b : jsnum) : bool :=
  match a, b with Num x, Num y => x <? y | _, _ => false end.
Definition ge (a b : jsnum) : bool :=
  match a, b with Num x, Num y => y <=? x | _, _ => false end.
Definition gt (a b : jsnum) : bool :=
  match a, b with Num x, Num y => y <? x | _, _ => false end.
Definition eq (a b : jsnum) : bool :=
  match a, b with Num x, Num y => x =? y | _, _ => false end.
Definition ne (a b : jsnum) : bool := negb (eq a b).

(** [a + b] and [a - b]. *)
Definition add (a b : jsnum) : jsnum :=
  match a, b with Num x, Num y => Num (x + y) | _, _ => NaN end.
Definition sub (a b : jsnum) : jsnum :=
  match a, b with Num x, Num y => Num (x - y) | _, _ => NaN end.

(** ToIntegerOrInfinity on the numbers that occur: NaN becomes 0. *)
Definition ToInteger (a : jsnum) : Z :=
  match a with Num z => z | NaN => 0 end.

Definition clamp (z len : Z) : Z := Z.min (Z.max z 0) len.

Definition strlen (s : jsstring) : Z := Z.of_nat (length s).

(** [s.substring(a, b)]: both ends are clamped to [0, s.length] and
    swapped when out of order. *)
Definition substring (s : jsstring) (a b : jsnum) : jsstring :=
  let fs := clamp (ToInteger a) (strlen s) in
  let fe := clamp (ToInteger b) (strlen s) in
  let from := Z.min fs fe in
  let to := Z.max fs fe in
  take (Z.to_nat (to - from)) (drop (Z.to_nat from) s).

(** [s.substring(a)]. *)
Definition substring_from (s : jsstring) (a : jsnum) : jsstring :=
  substring s a (Num (strlen s)).

Fixpoint find_char (c : Z) (s : jsstring) (i : Z) : Z :=
  match s with
  | [] => -1
  | x :: r => if x =? c then i else find_char c r (i + 1)
  end.

(** [s.indexOf(c, pos)] for a one-character search string. *)
Definition indexOf (s : jsstring) (c : Z) (pos : Z) : Z :=
  let start := clamp pos (strlen s) in
  find_char c (drop (Z.to_nat start) s) start.

(** The white space that [parseInt] skips (StrWhiteSpaceChar). *)
Definition isWhiteSpace (c : Z) : bool :=
  (c =? 9) || (c =? 10) || (c =? 11) || (c =? 12) || (c =? 13) || (c =? 32)
  || (c =? 160) || (c =? 5760) || ((8192 <=? c) && (c <=? 8202))
  || (c =? 8232) || (c =? 8233) || (c =? 8239) || (c =? 8287)
  || (c =? 12288) || (c =? 65279).

Fixpoint skipWhiteSpace (s : jsstring) : jsstring :=
  match s with
  | c :: r => if isWhiteSpace c then skipWhiteSpace r else s
  | [] => []
  end.

(** The value of a digit in the given radix, if it is one. *)
Definition digitValue (radix c : Z) : option Z :=
  let v :=
    if (48 <=? c) && (c <=? 57) then c - 48
    else if (97 <=? c) && (c <=? 122) then c - 87
    else if (65 <=? c) && (c <=? 90) then c - 55
    else radix in
  if v <? radix then Some v else None.

(** The longest prefix of digits, as digit values. *)
Fixpoint digitPrefix (radix : Z) (s : jsstring) : list Z :=
  match s with
  | c :: r =>
      match digitValue radix c with
      | Some v => v :: digitPrefix radix r
      | None => []
      end
  | [] => []
  end.

Definition digitsValue (radix : Z) (ds : list Z) : Z :=
  fold_left (fun a d => a * radix + d) ds 0.

(** [parseInt(s)] without a radix: leading white space, a sign, an
    optional [0x] prefix, then the longest prefix of digits; NaN when
    there is no digit. *)
Definition parseInt (s : jsstring) : jsnum :=
  let s1 := skipWhiteSpace s in
  let '(sign, s2) :=
    match s1 with
    | c :: r =>
        if c =? 45 then (-1, r) else if c =? 43 then (1, r) else (1, s1)
    | [] => (1, s1)
    end in
  let '(radix, s3) :=
    match s2 with
    | c0 :: c1 :: r =>
        if (c0 =? 48) && ((c1 =? 120) || (c1 =? 88)) then (16, r)
        else (10, s2)
    | _ => (10, s2)
    end in
  match digitPrefix radix s3 with
  | [] => NaN
  | ds => Num (sign * digitsValue radix ds)
  end.

Fixpoint digits_of (fuel : nat) (n : Z) (acc : jsstring) : jsstring :=
  match fuel with
  | O => acc
  | S f =>
      let acc' := (48 + n mod 10) :: acc in
      if n / 10 =? 0 then acc' else digits_of f (n / 10) acc'
  end.

(** Number-to-string conversion of a non-negative integer: its decimal
    digits. *)
Definition number_toString (n : Z) : jsstring :=
  digits_of (S (Z.to_nat n)) n [].

(** [String.fromCharCode(c)]: the code unit [c mod 2^16]. *)
Definition fromCharCode (c : Z) : Z := c mod 65536.

(** A decimal digit. *)
Definition is_decimal (c : Z) : Prop := 48 <= c <= 57.

(** A string is well-formed UTF-16 when every high surrogate is followed
    by a low surrogate and every low surrogate follows a high one. *)
Definition is_high_surrogate (c : Z) : bool := (0xD800 <=? c) && (c <=? 0xDBFF).
Definition is_low_surrogate (c : Z) : bool := (0xDC00 <=? c) && (c <=? 0xDFFF).

Fixpoint well_formed_utf16 (s : jsstring) : bool :=
  match s with
  | [] => true
  | c :: r =>
      if is_high_surrogate c then
        match r with
        | c' :: r' => is_low_surrogate c' && well_formed_utf16 r'
        | [] => false
        end
      else if is_low_surrogate c then false
      else well_formed_utf16 r
  end.

(** A UTF-16 code unit. *)
Definition is_code_unit (u : Z) : Prop := 0 <= u <= 0xFFFF.

(** [P] holds of the [n] integers from [lo] on. *)
Fixpoint forall_range (P : Z -> bool) (lo : Z) (n : nat) : bool :=
  match n with
  | O => true
  | S n' => P lo && forall_range P (lo + 1) n'
  end.

(** The characters the protocol uses. *)
Definition DOT : Z := 46.
Definition COMMA : Z := 44.
Definition SEMICOLON : Z := 59.

End JS.

Import JS.

(** ** Status (Status.js) *)
Module Status.

(** [new Status(code, message)]; the message is optional. *)
Record t : Type := mk { code : jsnum; message : option jsstring }.

Definition SUCCESS : Z := 0x0000.
Definition UNSUPPORTED : Z := 0x0100.
Definition SERVER_ERROR : Z := 0x0200.
Definition SERVER_BUSY : Z := 0x0201.
Definition UPSTREAM_TIMEOUT : Z := 0x0202.
Definition UPSTREAM_ERROR : Z := 0x0203.
Definition RESOURCE_NOT_FOUND : Z := 0x0204.
Definition RESOURCE_CONFLICT : Z := 0x0205.
Definition CLIENT_BAD_REQUEST : Z := 0x0300.
Definition CLIENT_UNAUTHORIZED : Z := 0x0301.
Definition CLIENT_FORBIDDEN : Z := 0x0303.
Definition CLIENT_TIMEOUT : Z := 0x0308.
Definition CLIENT_OVERRUN : Z := 0x030D.
Definition CLIENT_BAD_TYPE : Z := 0x030F.
Definition CLIENT_TOO_MANY : Z := 0x031D.

(** [guac_status.code < 0 || guac_status.code > 0x00FF] *)
Definition isError (s : t) : bool :=
  JS.lt (code s) (Num 0) || JS.gt (code s) (Num 0x00FF).

End Status.

(** ** Tunnel states (Tunnel.js) *)
Module Tunnel.

Inductive State : Type := CONNECTING | OPEN | CLOSED.

#[global] Instance State_eq_dec : EqDecision State.
Proof. solve_decision. Defined.

End Tunnel.

(** ** Instruction framing: [sendMessage] of the WebSocket and HTTP tunnels *)
Module Codec.

(** [getElement(value)]: [string.length + "." + string]. *)
Definition getElement (value : jsstring) : jsstring :=
  number_toString (strlen value) ++ DOT :: value.

(** The loop appending ["," + getElement(arguments[i])]. *)
Fixpoint append_elements (message : jsstring) (rest : list jsstring)
  : jsstring :=
  match rest with
  | [] => message
  | e :: rest' => append_elements (message ++ COMMA :: getElement e) rest'
  end.

(** The message built by [sendMessage] from its arguments, [None] when
    nothing is sent (tunnel not open, or no arguments). *)
Definition sendMessage (state : Tunnel.State) (arguments : list jsstring)
  : option jsstring :=
  if bool_decide (state ≠ Tunnel.OPEN) then None
  else
    match arguments with
    | [] => None
    | first :: rest =>
        Some (append_elements (getElement first) rest ++ [SEMICOLON])
    end.

(** What follows the body of an element on the wire: the elements still
    to come, each after a comma, and the semicolon. *)
Fixpoint wire_tail (rest : list jsstring) : jsstring :=
  match rest with
  | [] => [SEMICOLON]
  | e :: rest' => COMMA :: getElement e ++ wire_tail rest'
  end.

End Codec.

(** ** Parser (Parser.js) *)
Module Parser.

(** An instruction handed to [oninstruction]: opcode and parameters. *)
Definition Instruction : Type := (jsstring * list jsstring)%type.

(** The private variables of a parser, and whether an [oninstruction]
    handler is installed. *)
Record t : Type := mk {
  buffer : jsstring;
  element_buffer : list jsstring;
  element_end : jsnum;
  start_index : Z;
  oninstruction : bool
}.

(** [new Parser()] *)
Definition new : t :=
  {| buffer := []; element_buffer := []; element_end := Num (-1);
     start_index := 0; oninstruction := false |}.

Definition set_oninstruction (p : t) : t :=
  {| buffer := buffer p; element_buffer := element_buffer p;
     element_end := element_end p; start_index := start_index p;
     oninstruction := true |}.

Inductive Error : Type :=
| IllegalTerminator
| NonNumericLength.

(** How a call of [receive] ends: it returns, or it throws. *)
Inductive Completion : Type :=
| Returned
| Threw (e : Error).

(** The result of [receive]: the parser afterwards, the calls of
    [oninstruction] made, in order, and how the call ended. *)
Record Result : Type := mkResult {
  parser : t;
  emitted : list Instruction;
  completion : Completion
}.

(** The first half of the loop body: [if (element_end >= start_index)],
    the element is complete and is taken from the buffer.  [inr] is the
    throw. *)
Definition take_element (p : t) (out : list Instruction)
  : (t * list Instruction) + (t * list Instruction) :=
  if JS.ge (element_end p) (Num (start_index p)) then
    let element :=
      substring (buffer p) (Num (start_index p)) (element_end p) in
    let terminator :=
      substring (buffer p) (element_end p) (JS.add (element_end p) (Num 1)) in
    let pushed := element_buffer p ++ [element] in
    if bool_decide (terminator = [SEMICOLON]) then
      let opcode := hd [] pushed in
      let parameters := tl pushed in
      let out' := if oninstruction p then out ++ [(opcode, parameters)]
                  else out in
      inl ({| buffer := buffer p; element_buffer := [];
              element_end := element_end p;
              start_index := ToInteger (JS.add (element_end p) (Num 1));
              oninstruction := oninstruction p |}, out')
    else if bool_decide (terminator ≠ [COMMA]) then
      inr ({| buffer := buffer p; element_buffer := pushed;
              element_end := element_end p; start_index := start_index p;
              oninstruction := oninstruction p |}, out)
    else
      inl ({| buffer := buffer p; element_buffer := pushed;
              element_end := element_end p;
              start_index := ToInteger (JS.add (element_end p) (Num 1));
              oninstruction := oninstruction p |}, out)
  else inl (p, out).

(** The second half of the loop body: the search for the end of the
    length.  [inl] continues the loop, [inr] is [break] or the throw. *)
Definition read_length (p : t) : t + (t * Completion) :=
  let length_end := indexOf (buffer p) DOT (start_index p) in
  if negb (length_end =? -1) then
    let length :=
      parseInt (substring (buffer p) (JS.add (element_end p) (Num 1))
                  (Num length_end)) in
    if JS.eq length NaN then inr (p, Threw NonNumericLength)
    else
      let start_index' := length_end + 1 in
      inl {| buffer := buffer p; element_buffer := element_buffer p;
             element_end := JS.add (Num start_index') length;
             start_index := start_index';
             oninstruction := oninstruction p |}
  else
    inr ({| buffer := buffer p; element_buffer := element_buffer p;
            element_end := element_end p;
            start_index := strlen (buffer p);
            oninstruction := oninstruction p |}, Returned).

(** [while (element_end < buffer.length)].  Every round that does not
    leave the loop moves [start_index] forward, so [fuel] rounds are
    enough when [fuel] exceeds the length of the buffer; [None] is the
    loop running out of fuel. *)
Fixpoint parse_loop (fuel : nat) (p : t) (out : list Instruction)
  : option Result :=
  match fuel with
  | O => None
  | S fuel' =>
      if JS.lt (element_end p) (Num (strlen (buffer p))) then
        match take_element p out with
        | inr (p1, out1) => Some (mkResult p1 out1 (Threw IllegalTerminator))
        | inl (p1, out1) =>
            match read_length p1 with
            | inr (p2, c) => Some (mkResult p2 out1 c)
            | inl p2 => parse_loop fuel' p2 out1
            end
        end
      else Some (mkResult p out Returned)
  end.

(** The truncation at the start of [receive]. *)
Definition truncate (p : t) : t :=
  if (4096 <? start_index p) && JS.ge (element_end p) (Num (start_index p))
  then
    {| buffer := substring_from (buffer p) (Num (start_index p));
       element_buffer := element_buffer p;
       element_end := JS.sub (element_end p) (Num (start_index p));
       start_index := 0;
       oninstruction := oninstruction p |}
  else p.

Definition append (p : t) (packet : jsstring) : t :=
  {| buffer := buffer p ++ packet; element_buffer := element_buffer p;
     element_end := element_end p; start_index := start_index p;
     oninstruction := oninstruction p |}.

(** The parser once the whole of [buffer] is consumed. *)
Definition consumed (buffer : jsstring) : t :=
  {| buffer := buffer; element_buffer := [];
     element_end := Num (strlen buffer - 1); start_index := strlen buffer;
     oninstruction := true |}.

(** [parser.receive(packet)] *)
Definition receive (p : t) (packet : jsstring) : option Result :=
  let p1 := append (truncate p) packet in
  parse_loop (length (buffer p1) + 2) p1 [].

End Parser.

(** ** StringWriter (StringWriter.js): the UTF-8 encoder *)
Module StringWriter.

(** The loop writing the trailing bytes, last byte first:
    [buffer[offset--] = 0x80 | (codepoint & 0x3F); codepoint >>= 6]. *)
Fixpoint trailing_bytes (n : nat) (codepoint : Z) (acc : list Z)
  : Z * list Z :=
  match n with
  | O => (codepoint, acc)
  | S k =>
      trailing_bytes k (Z.shiftr codepoint 6)
        (Z.lor 0x80 (Z.land codepoint 0x3F) :: acc)
  end.

(** The bytes written for a codepoint once [mask] and [bytes] are chosen;
    a [Uint8Array] keeps the low eight bits of what is stored. *)
Definition write_utf8 (mask : Z) (bytes : nat) (codepoint : Z) : list Z :=
  let '(lead, acc) := trailing_bytes (bytes - 1) codepoint [] in
  (Z.lor mask lead mod 256) :: acc.

(** [__append_utf8(codepoint)]: the bytes appended to the buffer. *)
Definition append_utf8 (codepoint : Z) : list Z :=
  if codepoint <=? 0x7F then write_utf8 0x00 1 codepoint
  else if codepoint <=? 0x7FF then write_utf8 0xC0 2 codepoint
  else if codepoint <=? 0xFFFF then write_utf8 0xE0 3 codepoint
  else if codepoint <=? 0x1FFFFF then write_utf8 0xF0 4 codepoint
  else write_utf8 0xE0 3 0xFFFD.

(** [__encode_utf8(text)]: every code unit of the text ([charCodeAt(i)])
    is appended; nothing is returned when no byte was written. *)
Definition encode_utf8 (text : jsstring) : option (list Z) :=
  match flat_map append_utf8 text with
  | [] => None
  | out_buffer => Some out_buffer
  end.

(** The number of UTF-8 bytes of a string. *)
Definition utf8_length (text : jsstring) : Z :=
  strlen (flat_map append_utf8 text).

End StringWriter.

(** ** HTTPTunnel (HTTPTunnel.js): closing the tunnel

    HTTPTunnel.js imports [Tunnel] and nothing else, and declares no
    [Status]: where the file evaluates the identifier [Status], a
    ReferenceError is thrown, which ends the running function and
    reaches whoever called it. *)
Module HTTPTunnel.

(** The state [close_tunnel] reads and writes, and which handlers the
    consumer has installed. *)
Record t : Type := mk {
  state : Tunnel.State;
  sendingMessages : bool;
  onerror : bool;
  onstatechange : bool
}.

(** What the tunnel does to the outside: it calls a handler of the
    consumer, or throws to its caller. *)
Inductive Event : Type :=
| OnError (status : Status.t)
| OnStateChange (state : Tunnel.State)
| ReferenceError (* "Status is not defined" *).

(** [close_tunnel(status)]: the tunnel afterwards and what was done.  A
    closed tunnel returns at once.  Otherwise the first test,
    [status.code !== Status.Code.SUCCESS], evaluates [Status] and throws:
    [onerror] is not called, the state is not written, [sendingMessages]
    is not reset, [onstatechange] is not called. *)
Definition close_tunnel (tunnel : t) (status : Status.t) : t * list Event :=
  if bool_decide (state tunnel = Tunnel.CLOSED) then (tunnel, [])
  else (tunnel, [ReferenceError]).

(** [handleHTTPTunnelError(xmlhttprequest)]; [code] and [message] are
    what [getResponseHeader] returns for [Guacamole-Status-Code] and
    [Guacamole-Error-Message].  The argument of the call
    [close_tunnel(new Status(code, message))] is evaluated first, and
    [new Status] throws: [close_tunnel] is not entered. *)
Definition handleHTTPTunnelError (tunnel : t)
  (code message : option jsstring) : t * list Event :=
  (tunnel, [ReferenceError]).

(** [tunnel.disconnect()]:
    [close_tunnel(new Status(Status.Code.SUCCESS, "Manually closed."))],
    which throws in the same way. *)
Definition disconnect (tunnel : t) : t * list Event :=
  (tunnel, [ReferenceError]).

(** The function given to [setTimeout] by [reset_timeout], when the
    receive timeout expires:
    [close_tunnel(new Status(Status.Code.UPSTREAM_TIMEOUT, ...))]. *)
Definition receive_timeout_expired (tunnel : t) : t * list Event :=
  (tunnel, [ReferenceError]).

(** [connect_xmlhttprequest.onreadystatechange] at [readyState] 4, for
    the HTTP status and the two headers of the answer: any status but
    200 goes to [handleHTTPTunnelError]; with 200 the tunnel opens. *)
Definition connect_answered (tunnel : t) (status : Z)
  (code message : option jsstring) : t * list Event :=
  if negb (status =? 200) then handleHTTPTunnelError tunnel code message
  else
    ({| state := Tunnel.OPEN; sendingMessages := sendingMessages tunnel;
        onerror := onerror tunnel; onstatechange := onstatechange tunnel |},
     if onstatechange tunnel then [OnStateChange Tunnel.OPEN] else []).

(** [parseResponse()] of a read request at [readyState] 3 or 4, as far
    as closing goes: nothing is done unless the tunnel is OPEN; a request
    that was canceled (status 0) disconnects the tunnel; any other
    status but 200 goes to [handleHTTPTunnelError]; with 200 the
    response is read. *)
Definition read_answered (tunnel : t) (status : Z)
  (code message : option jsstring) : t * list Event :=
  if bool_decide (state tunnel ≠ Tunnel.OPEN) then (tunnel, [])
  else if status =? 0 then disconnect tunnel
  else if negb (status =? 200) then handleHTTPTunnelError tunnel code message
  else (tunnel, []).

(** [message_xmlhttprequest.onreadystatechange] of a write request at
    [readyState] 4 with a status other than 200. *)
Definition write_failed (tunnel : t) (code message : option jsstring)
  : t * list Event :=
  handleHTTPTunnelError tunnel code message.

(** What can happen to the tunnel as far as closing goes: a request is
    answered, with its HTTP status and the two headers; the consumer
    disconnects; the receive timeout expires. *)
Inductive Input : Type :=
| ConnectAnswered (status : Z) (code message : option jsstring)
| ReadAnswered (status : Z) (code message : option jsstring)
| WriteFailed (code message : option jsstring)
| Disconnect
| TimeoutExpired.

Definition step (tunnel : t) (i : Input) : t * list Event :=
  match i with
  | ConnectAnswered status code message =>
      connect_answered tunnel status code message
  | ReadAnswered status code message =>
      read_answered tunnel status code message
  | WriteFailed code message => write_failed tunnel code message
  | Disconnect => disconnect tunnel
  | TimeoutExpired => receive_timeout_expired tunnel
  end.

Fixpoint run (tunnel : t) (inputs : list Input) : t * list Event :=
  match inputs with
  | [] => (tunnel, [])
  | i :: rest =>
      let '(tunnel1, events1) := step tunnel i in
      let '(tunnel2, events2) := run tunnel1 rest in
      (tunnel2, events1 ++ events2)
  end.

(** [new HTTPTunnel(tunnelURL)] with the consumer's handlers: the state
    is the prototype's, CONNECTING. *)
Definition new (onerror onstatechange : bool) : t :=
  {| state := Tunnel.CONNECTING; sendingMessages := false;
     onerror := onerror; onstatechange := onstatechange |}.

(** ["516"], the decimal of RESOURCE_NOT_FOUND, as a header value. *)
Definition header_516 : jsstring := [53; 49; 54].

End HTTPTunnel.

(** ** ArrayBufferWriter (ArrayBufferWriter.js) *)
Module ArrayBufferWriter.

(** [bytes.subarray(begin, end)] for non-negative bounds: the view stops
    at the end of the array. *)
Definition subarray {A : Type} (bytes : list A) (begin end_ : Z) : list A :=
  take (Z.to_nat (end_ - begin)) (drop (Z.to_nat begin) bytes).

(** [for (offset = 0; offset < bytes.length; offset += 8064)
       __send_blob(bytes.subarray(offset, offset + 8094))]:
    the arrays handed to [__send_blob], in order.  The offset grows in
    every round, so [length bytes] rounds are enough. *)
Fixpoint send_loop {A : Type} (fuel : nat) (bytes : list A) (offset : Z)
  : list (list A) :=
  match fuel with
  | O => []
  | S fuel' =>
      if offset <? Z.of_nat (length bytes) then
        subarray bytes offset (offset + 8094)
          :: send_loop fuel' bytes (offset + 8064)
      else []
  end.

(** The arrays [sendData(data)] hands to [__send_blob]. *)
Definition sendData_blobs {A : Type} (bytes : list A) : list (list A) :=
  if Z.of_nat (length bytes) <=? 8064 then [bytes]
  else send_loop (length bytes) bytes 0.

(** A payload of [n] bytes, the byte at position [i] being [i mod 256]. *)
Fixpoint payload_from (n : nat) (i : Z) : list Z :=
  match n with
  | O => []
  | S n' => i mod 256 :: payload_from n' (i + 1)
  end.

Definition payload (n : Z) : list Z := payload_from (Z.to_nat n) 0.

Section Writer.

(** [window.btoa] applied to the binary string of a byte array. *)
Variable btoa : list Z -> jsstring.

(** [__send_blob(bytes)]: the argument of [stream.sendBlob]. *)
Definition send_blob (bytes : list Z) : jsstring := btoa bytes.

(** [sendData(data)]: the arguments of the calls of [stream.sendBlob]. *)
Definition sendData (data : list Z) : list jsstring :=
  map send_blob (sendData_blobs data).

End Writer.

End ArrayBufferWriter.

(** ** ChainedTunnel (ChainedTunnel.js)

    Inner tunnels are objects; a tunnel is named by a number here.  The
    three handler slots of an inner tunnel are always written together:
    [attach] installs its wrappers, [commit_tunnel] installs the chained
    tunnel's own handlers, [failTunnel] clears them.

    ChainedTunnel.js imports [Tunnel] and nothing else, and declares no
    [Status]: where [failTunnel] and [connect] evaluate the identifier
    [Status], a ReferenceError is thrown, which ends the running handler
    and reaches whoever called it. *)
Module ChainedTunnel.

(** What the handler slots of an inner tunnel hold. *)
Inductive Handlers : Type :=
| Unset      (* null *)
| Wrapped    (* the closures made by attach(tunnel) *)
| Forwarding (* the chained tunnel's handlers, after commit_tunnel() *).

#[global] Instance Handlers_eq_dec : EqDecision Handlers.
Proof. solve_decision. Defined.

Record t : Type := mk {
  connect_data : option jsstring;
  tunnels : list nat;
  committedTunnel : option nat;
  handlers : gmap nat Handlers;
  (* whose disconnect and sendMessage the chained tunnel has taken *)
  attached : option nat;
  (* the handlers the consumer installed on the chained tunnel *)
  onerror : bool;
  oninstruction : bool;
  onstatechange : bool
}.

(** What the chained tunnel does to the outside: it connects an inner
    tunnel, calls one of its consumer's handlers, or throws to its
    caller. *)
Inductive Action : Type :=
| Connect (tunnel : nat) (data : option jsstring)
| Error (status : option Status.t)
| StateChange (state : Tunnel.State)
| Instruction (opcode : jsstring) (elements : list jsstring)
| ReferenceError (* "Status is not defined" *).

(** What a call comes to: it returns, or it throws the ReferenceError. *)
Inductive Completion (A : Type) : Type :=
| Returns (a : A)
| Throws.

Arguments Returns {A} a.
Arguments Throws {A}.

(** [new ChainedTunnel(tunnel...)] with the consumer's handlers. *)
Definition new (tunnelChain : list nat) (onerror oninstruction
  onstatechange : bool) : t :=
  {| connect_data := None; tunnels := tunnelChain; committedTunnel := None;
     handlers := ∅; attached := None; onerror := onerror;
     oninstruction := oninstruction; onstatechange := onstatechange |}.

Definition handlers_of (c : t) (tunnel : nat) : Handlers :=
  default Unset (handlers c !! tunnel).

Definition set_handlers (c : t) (tunnel : nat) (h : Handlers) : t :=
  {| connect_data := connect_data c; tunnels := tunnels c;
     committedTunnel := committedTunnel c;
     handlers := <[tunnel := h]> (handlers c); attached := attached c;
     onerror := onerror c; oninstruction := oninstruction c;
     onstatechange := onstatechange c |}.

Definition set_tunnels (c : t) (l : list nat) : t :=
  {| connect_data := connect_data c; tunnels := l;
     committedTunnel := committedTunnel c; handlers := handlers c;
     attached := attached c; onerror := onerror c;
     oninstruction := oninstruction c; onstatechange := onstatechange c |}.

(** [attach(tunnel)]: take the tunnel's functions, wrap its handlers,
    connect it. *)
Definition attach (c : t) (tunnel : nat) : t * list Action :=
  ({| connect_data := connect_data c; tunnels := tunnels c;
      committedTunnel := committedTunnel c;
      handlers := <[tunnel := Wrapped]> (handlers c);
      attached := Some tunnel; onerror := onerror c;
      oninstruction := oninstruction c; onstatechange := onstatechange c |},
   [Connect tunnel (connect_data c)]).

(** [failTunnel(status)] of the closures of [attach(tunnel)]: the chained
    tunnel afterwards, what was done, and the returned next tunnel.  In
    [status && status.code === Status.Code.UPSTREAM_TIMEOUT] a status
    object is truthy, so the right operand is evaluated and [Status]
    throws, before the list of tunnels is touched; without a status the
    test is false at once. *)
Definition failTunnel (c : t) (tunnel : nat) (status : option Status.t)
  : Completion (t * list Action * option nat) :=
  match status with
  | Some _ => Throws
  | None =>
      match tunnels c with
      | next_tunnel :: rest =>
          let '(c', acts) :=
            attach (set_handlers (set_tunnels c rest) tunnel Unset)
              next_tunnel in
          Returns (c', acts, Some next_tunnel)
      | [] => Returns (c, [], None)
      end
  end.

(** [commit_tunnel()] of the closures of [attach(tunnel)]. *)
Definition commit_tunnel (c : t) (tunnel : nat) : t :=
  {| connect_data := connect_data c; tunnels := tunnels c;
     committedTunnel := Some tunnel;
     handlers := <[tunnel := Forwarding]> (handlers c);
     attached := attached c; onerror := onerror c;
     oninstruction := oninstruction c; onstatechange := onstatechange c |}.

(** What can happen to a chained tunnel: an inner tunnel calls one of its
    handler slots (when the slot is not null), or the consumer calls
    [connect]. *)
Inductive Input : Type :=
| TunnelError (tunnel : nat) (status : option Status.t)
| TunnelStateChange (tunnel : nat) (state : Tunnel.State)
| TunnelInstruction (tunnel : nat) (opcode : jsstring)
    (elements : list jsstring)
| CallConnect (data : option jsstring).

(** [tunnel.onstatechange] as installed by [attach]. *)
Definition wrapped_onstatechange (c : t) (tunnel : nat)
  (state : Tunnel.State) : t * list Action :=
  match state with
  | Tunnel.OPEN =>
      (commit_tunnel c tunnel,
       if onstatechange c then [StateChange state] else [])
  | Tunnel.CLOSED =>
      match failTunnel c tunnel None with
      | Returns (c', acts, next_tunnel) =>
          (c', acts ++ match next_tunnel with
                       | None => if onstatechange c then [StateChange state]
                                 else []
                       | Some _ => []
                       end)
      | Throws => (c, [ReferenceError])
      end
  | Tunnel.CONNECTING => (c, [])
  end.

(** [tunnel.oninstruction] as installed by [attach]. *)
Definition wrapped_oninstruction (c : t) (tunnel : nat) (opcode : jsstring)
  (elements : list jsstring) : t * list Action :=
  (commit_tunnel c tunnel,
   if oninstruction c then [Instruction opcode elements] else []).

(** [tunnel.onerror] as installed by [attach]. *)
Definition wrapped_onerror (c : t) (tunnel : nat)
  (status : option Status.t) : t * list Action :=
  match failTunnel c tunnel status with
  | Returns (c', acts, next_tunnel) =>
      (c', acts ++ match next_tunnel with
                   | None => if onerror c then [Error status] else []
                   | Some _ => []
                   end)
  | Throws => (c, [ReferenceError])
  end.

(** [chained_tunnel.connect(data)].  Without a tunnel to attach, and with
    [onerror] installed, the arguments of the call of [onerror] are
    evaluated first, and [Status.Code.SERVER_ERROR] throws. *)
Definition connect (c : t) (data : option jsstring) : t * list Action :=
  let c1 :=
    {| connect_data := data; tunnels := tunnels c;
       committedTunnel := committedTunnel c; handlers := handlers c;
       attached := attached c; onerror := onerror c;
       oninstruction := oninstruction c;
       onstatechange := onstatechange c |} in
  match committedTunnel c1 with
  | Some next_tunnel => attach c1 next_tunnel
  | None =>
      match tunnels c1 with
      | next_tunnel :: rest => attach (set_tunnels c1 rest) next_tunnel
      | [] => (c1, if onerror c1 then [ReferenceError] else [])
      end
  end.

(** One input: the handler slot of the inner tunnel decides what runs. *)
Definition step (c : t) (i : Input) : t * list Action :=
  match i with
  | TunnelError tunnel status =>
      match handlers_of c tunnel with
      | Unset => (c, [])
      | Wrapped => wrapped_onerror c tunnel status
      | Forwarding => (c, if onerror c then [Error status] else [])
      end
  | TunnelStateChange tunnel state =>
      match handlers_of c tunnel with
      | Unset => (c, [])
      | Wrapped => wrapped_onstatechange c tunnel state
      | Forwarding => (c, if onstatechange c then [StateChange state] else [])
      end
  | TunnelInstruction tunnel opcode elements =>
      match handlers_of c tunnel with
      | Unset => (c, [])
      | Wrapped => wrapped_oninstruction c tunnel opcode elements
      | Forwarding =>
          (c, if oninstruction c then [Instruction opcode elements] else [])
      end
  | CallConnect data => connect c data
  end.

(** A sequence of inputs, and everything done meanwhile. *)
Fixpoint run (c : t) (inputs : list Input) : t * list Action :=
  match inputs with
  | [] => (c, [])
  | i :: rest =>
      let '(c1, acts1) := step c i in
      let '(c2, acts2) := run c1 rest in
      (c2, acts1 ++ acts2)
  end.

(** A chained tunnel over the tunnels 0, 1 and 2, all handlers installed,
    after [connect()]. *)
Definition connected_chain : t :=
  fst (run (new [0%nat; 1%nat; 2%nat] true true true) [CallConnect None]).

End ChainedTunnel.

(** ** IntegerPool (IntegerPool.js) *)
Module IntegerPool.

Record t : Type := mk { pool : list jsnum; next_int : Z }.

Definition new : t := {| pool := []; next_int := 0 |}.

(** [next()]: [pool.shift()] when an integer was freed, else
    [next_int++]. *)
Definition next (p : t) : jsnum * t :=
  match pool p with
  | i :: rest => (i, {| pool := rest; next_int := next_int p |})
  | [] => (Num (next_int p), {| pool := []; next_int := next_int p + 1 |})
  end.

(** [free(integer)]: [pool.push(integer)]. *)
Definition free (p : t) (integer : jsnum) : t :=
  {| pool := pool p ++ [integer]; next_int := next_int p |}.

End IntegerPool.

(** ** Client (Client.js): the stream handlers [ack], [blob] and [end]

    The stream tables are JavaScript arrays indexed by whatever [parseInt]
    returned, so a table is a finite map keyed by numbers, NaN included. *)
Module Client.

(** An input stream: whether [onblob] and [onend] are installed. *)
Record InputStream : Type := mkInput { onblob : bool; onend : bool }.

(** An output stream: whether [onack] is installed. *)
Record OutputStream : Type := mkOutput { onack : bool }.

Record t : Type := mk {
  streams : gmap jsnum InputStream;
  stream_indices : IntegerPool.t;
  output_streams : gmap jsnum OutputStream
}.

(** The handler calls a stream instruction makes. *)
Inductive Callback : Type :=
| OnAck (stream_index : jsnum) (status : Status.t)
| OnBlob (stream_index : jsnum) (data : option jsstring)
| OnEnd (stream_index : jsnum).

(** [parameters[i]], undefined past the end. *)
Definition parameter (parameters : list jsstring) (i : nat)
  : option jsstring := parameters !! i.

(** [parseInt(parameters[i])]; [parseInt(undefined)] is NaN. *)
Definition parseInt_parameter (parameters : list jsstring) (i : nat)
  : jsnum :=
  match parameter parameters i with
  | Some s => parseInt s
  | None => NaN
  end.

(** [instructionHandlers["ack"]] *)
Definition ack (c : t) (parameters : list jsstring) : t * list Callback :=
  let stream_index := parseInt_parameter parameters 0 in
  let reason := parameter parameters 1 in
  let code := parseInt_parameter parameters 2 in
  match output_streams c !! stream_index with
  | Some stream =>
      let called :=
        if onack stream then [OnAck stream_index (Status.mk code reason)]
        else [] in
      if JS.ge code (Num 0x0100) then
        ({| streams := streams c;
            stream_indices := IntegerPool.free (stream_indices c) stream_index;
            output_streams := delete stream_index (output_streams c) |},
         called)
      else (c, called)
  | None => (c, [])
  end.

(** [instructionHandlers["blob"]] *)
Definition blob (c : t) (parameters : list jsstring) : t * list Callback :=
  let stream_index := parseInt_parameter parameters 0 in
  let data := parameter parameters 1 in
  match streams c !! stream_index with
  | Some stream =>
      (c, if onblob stream then [OnBlob stream_index data] else [])
  | None => (c, [])
  end.

(** [instructionHandlers["end"]] *)
Definition end_ (c : t) (parameters : list jsstring) : t * list Callback :=
  let stream_index := parseInt_parameter parameters 0 in
  match streams c !! stream_index with
  | Some stream =>
      ({| streams := delete stream_index (streams c);
          stream_indices := stream_indices c;
          output_streams := output_streams c |},
       if onend stream then [OnEnd stream_index] else [])
  | None => (c, [])
  end.

(** The three stream opcodes. *)
Inductive StreamOpcode : Type := Ack | Blob | End.

(** The table an opcode looks its stream up in. *)
Definition live (c : t) (opcode : StreamOpcode) (stream_index : jsnum)
  : bool :=
  match opcode with
  | Ack => bool_decide (is_Some (output_streams c !! stream_index))
  | Blob | End => bool_decide (is_Some (streams c !! stream_index))
  end.

(** Dispatch through [instructionHandlers]. *)
Definition dispatch (c : t) (opcode : StreamOpcode)
  (parameters : list jsstring) : t * list Callback :=
  match opcode with
  | Ack => ack c parameters
  | Blob => blob c parameters
  | End => end_ c parameters
  end.

(** A client whose only stream is the output stream 0, with [onack]
    installed. *)
Definition one_output_stream : t :=
  {| streams := ∅; stream_indices := IntegerPool.mk [] 1;
     output_streams := {[ Num 0 := mkOutput true ]} |}.

End Client.

(** ** StringReader (StringReader.js): the streaming UTF-8 decoder *)
Module StringReader.

(** The decoder state kept between calls. *)
Record t : Type := mk { bytes_remaining : Z; codepoint : Z }.

Definition new : t := {| bytes_remaining := 0; codepoint := 0 |}.

(** The result of a JavaScript bit operation: a signed 32-bit integer. *)
Definition int32 (z : Z) : Z := (z + 2147483648) mod 4294967296 - 2147483648.

(** The body of the loop of [__decode_utf8] for one byte: the state
    afterwards and the text appended. *)
Definition decode_byte (st : t) (value : Z) : t * jsstring :=
  if bytes_remaining st =? 0 then
    if Z.lor value 0x7F =? 0x7F then (st, [fromCharCode value])
    else if Z.lor value 0x1F =? 0xDF then
      ({| bytes_remaining := 1; codepoint := Z.land value 0x1F |}, [])
    else if Z.lor value 0x0F =? 0xEF then
      ({| bytes_remaining := 2; codepoint := Z.land value 0x0F |}, [])
    else if Z.lor value 0x07 =? 0xF7 then
      ({| bytes_remaining := 3; codepoint := Z.land value 0x07 |}, [])
    else (st, [0xFFFD])
  else if Z.lor value 0x3F =? 0xBF then
    let codepoint' :=
      int32 (Z.lor (int32 (Z.shiftl (codepoint st) 6)) (Z.land value 0x3F)) in
    let bytes_remaining' := bytes_remaining st - 1 in
    ({| bytes_remaining := bytes_remaining'; codepoint := codepoint' |},
     if bytes_remaining' =? 0 then [fromCharCode codepoint'] else [])
  else
    ({| bytes_remaining := 0; codepoint := codepoint st |}, [0xFFFD]).

(** The bytes that start a sequence ([0xxxxxxx], [110xxxxx], [1110xxxx],
    [11110xxx]) and the bytes that continue one ([10xxxxxx]). *)
Definition is_lead (value : Z) : bool :=
  (value <=? 0x7F) || ((0xC0 <=? value) && (value <=? 0xF7)).
Definition is_continuation (value : Z) : bool :=
  (0x80 <=? value) && (value <=? 0xBF).

(** The loop of [__decode_utf8(buffer)], [text] being what was decoded so
    far. *)
Fixpoint decode_loop (st : t) (bytes : list Z) (text : jsstring)
  : t * jsstring :=
  match bytes with
  | [] => (st, text)
  | value :: rest =>
      let '(st', s) := decode_byte st value in
      decode_loop st' rest (text ++ s)
  end.

(** [__decode_utf8(buffer)] *)
Definition decode_utf8 (st : t) (buffer : list Z) : t * jsstring :=
  decode_loop st buffer [].

(** The blobs of a stream, decoded one after the other: the texts handed
    to [ontext]. *)
Fixpoint decode_chunks (st : t) (chunks : list (list Z))
  : t * list jsstring :=
  match chunks with
  | [] => (st, [])
  | buffer :: rest =>
      let '(st1, text) := decode_utf8 st buffer in
      let '(st2, texts) := decode_chunks st1 rest in
      (st2, text :: texts)
  end.

(** Two decoders that expect the same number of bytes, and hold the same
    codepoint when they expect any, decode alike. *)
Definition alike (st1 st2 : t) : Prop :=
  bytes_remaining st1 = bytes_remaining st2 /\
  (bytes_remaining st1 <> 0 -> codepoint st1 = codepoint st2).

End StringReader.

(** ** Display (Display.js): tasks, frames and the flush of frames

    Tasks are objects shared between the caller of [scheduleTask], the
    pending list and the frames, so they live in a heap and are named by
    their position in it.  Task handlers and frame callbacks are
    functions: while a frame is flushed they may call the display again,
    which starts another flush of frames inside the running one.  The
    array [frames] is one object: that inner flush reads and splices the
    array the outer loop is going through. *)
Module Display.

(** What a flush makes happen: [execute()] of a task, the call of a
    frame callback. *)
Inductive Event : Type :=
| Execute (task : nat)
| Callback (callback : nat).

(** A function given to the display, as a task handler or as a frame
    callback, named by [label]: when it runs, after the events [log],
    it makes the calls [calls log] on the display, one after the other.
    A closure may do something else each time it runs; what it does is
    taken here as a function of what has happened so far. *)
Inductive Handler : Type :=
| mkHandler (label : nat) (calls : list Event -> list Op)

(** The calls made on the display. *)
with Op : Type :=
| ScheduleTask (handler : option Handler) (blocked : bool)
| Flush (callback : option Handler)
| Unblock (task : nat).

Definition label (h : Handler) : nat :=
  match h with mkHandler label _ => label end.

Definition calls (h : Handler) : list Event -> list Op :=
  match h with mkHandler _ calls => calls end.

Record Task : Type := mkTask { taskHandler : option Handler; blocked : bool }.

Record Frame : Type := mkFrame { callback : option Handler; ftasks : list nat }.

Record t : Type := mk {
  heap : list Task;
  tasks : list nat;
  frames : list Frame;
  log : list Event
}.

Definition new : t := {| heap := []; tasks := []; frames := []; log := [] |}.

(** The display after the events [events]. *)
Definition logged (d : t) (events : list Event) : t :=
  {| heap := heap d; tasks := tasks d; frames := frames d;
     log := log d ++ events |}.

(** [tasks[i].blocked] *)
Definition is_blocked (heap : list Task) (task : nat) : bool :=
  match heap !! task with
  | Some tk => blocked tk
  | None => false
  end.

(** [frame.isReady()]: the search for a blocked task. *)
Fixpoint isReady_loop (heap : list Task) (tasks : list nat) : bool :=
  match tasks with
  | [] => true
  | task :: rest =>
      if is_blocked heap task then false else isReady_loop heap rest
  end.

Definition isReady (heap : list Task) (frame : Frame) : bool :=
  isReady_loop heap (ftasks frame).

(** [frames.splice(0, rendered_frames)] *)
Definition splice (d : t) (rendered_frames : nat) : t :=
  {| heap := heap d; tasks := tasks d;
     frames := drop rendered_frames (frames d); log := log d |}.

(** [scheduleTask(handler, blocked)]: the display and the new task. *)
Definition scheduleTask (d : t) (handler : option Handler) (blocked : bool)
  : t * nat :=
  let task := length (heap d) in
  ({| heap := heap d ++ [mkTask handler blocked];
      tasks := tasks d ++ [task]; frames := frames d; log := log d |},
   task).

(** The flush of frames, given how a handler or callback runs: [call h d]
    is the display after [h] ran on the display [d], or nothing when it
    does not return. *)
Section Drain.

Variable call : Handler -> t -> option t.

(** [task.execute()]: [if (taskHandler) taskHandler()]. *)
Definition execute (d : t) (task : nat) : option t :=
  let d1 := logged d [Execute task] in
  match heap d !! task with
  | Some tk =>
      match taskHandler tk with
      | Some handler => call handler d1
      | None => Some d1
      end
  | None => Some d1
  end.

(** [for (var i=0; i < tasks.length; i++) tasks[i].execute()], over the
    array the frame was made with. *)
Fixpoint execute_all (tasks : list nat) (d : t) : option t :=
  match tasks with
  | [] => Some d
  | task :: rest =>
      match execute d task with
      | Some d1 => execute_all rest d1
      | None => None
      end
  end.

(** [frame.flush()]: every task is executed, then the callback, if any,
    is called. *)
Definition Frame_flush (frame : Frame) (d : t) : option t :=
  match execute_all (ftasks frame) d with
  | Some d1 =>
      match callback frame with
      | Some cb => call cb (logged d1 [Callback (label cb)])
      | None => Some d1
      end
  | None => None
  end.

(** The loop of [__flush_frames] from [rendered_frames] on, and the
    [splice] after it.  [frames[rendered_frames]] and [frames.length] are
    read from the array as it is in each round.  Nothing bounds the
    rounds once handlers add frames, so the loop has fuel. *)
Fixpoint flush_loop (fuel : nat) (rendered_frames : nat) (d : t)
  : option t :=
  match fuel with
  | O => None
  | S fuel' =>
      match frames d !! rendered_frames with
      | None => Some (splice d rendered_frames)
      | Some frame =>
          if negb (isReady (heap d) frame)
          then Some (splice d rendered_frames)
          else
            match Frame_flush frame d with
            | Some d1 => flush_loop fuel' (S rendered_frames) d1
            | None => None
            end
      end
  end.

(** [__flush_frames()] *)
Definition flush_frames (fuel : nat) (d : t) : option t :=
  flush_loop fuel 0 d.

(** [display.flush(callback)] *)
Definition flush (fuel : nat) (d : t) (callback : option Handler)
  : option t :=
  flush_frames fuel
    {| heap := heap d; tasks := [];
       frames := frames d ++ [mkFrame callback (tasks d)]; log := log d |}.

(** [task.unblock()] *)
Definition unblock (fuel : nat) (d : t) (task : nat) : option t :=
  match heap d !! task with
  | Some tk =>
      if blocked tk then
        flush_frames fuel
          {| heap := <[task := mkTask (taskHandler tk) false]> (heap d);
             tasks := tasks d; frames := frames d; log := log d |}
      else Some d
  | None => Some d
  end.

Definition apply (fuel : nat) (d : t) (op : Op) : option t :=
  match op with
  | ScheduleTask handler blocked => Some (fst (scheduleTask d handler blocked))
  | Flush callback => flush fuel d callback
  | Unblock task => unblock fuel d task
  end.

(** Calls made one after the other. *)
Fixpoint run_ops (fuel : nat) (ops : list Op) (d : t) : option t :=
  match ops with
  | [] => Some d
  | op :: rest =>
      match apply fuel d op with
      | Some d1 => run_ops fuel rest d1
      | None => None
      end
  end.

End Drain.

(** A handler runs: it makes its calls on the display.  The fuel bounds
    how deep handlers call the display from inside a flush, and the
    rounds of each flush of frames. *)
Fixpoint call_handler (fuel : nat) (h : Handler) (d : t) : option t :=
  match fuel with
  | O => None
  | S fuel' => run_ops (call_handler fuel') fuel' (calls h (log d)) d
  end.

(** The calls [ops] made on the display [d] from outside. *)
Definition run (fuel : nat) (ops : list Op) (d : t) : option t :=
  run_ops (call_handler fuel) fuel ops d.

(** The handler makes no call on the display. *)
Definition quiet (h : Handler) : Prop := forall log, calls h log = [].

(** No handler or callback given with the call calls the display. *)
Definition quiet_op (op : Op) : Prop :=
  match op with
  | ScheduleTask (Some h) _ => quiet h
  | Flush (Some h) => quiet h
  | _ => True
  end.

(** The frames a sequence of calls submits, in the order of the calls of
    [flush], each with the tasks scheduled since the flush before, in
    the order they were scheduled; [next] is the next task to be
    created. *)
Fixpoint submitted (ops : list Op) (next : nat) (pending : list nat)
  : list Frame :=
  match ops with
  | [] => []
  | ScheduleTask _ _ :: rest => submitted rest (S next) (pending ++ [next])
  | Flush callback :: rest =>
      mkFrame callback pending :: submitted rest next []
  | Unblock _ :: rest => submitted rest next pending
  end.

(** Which tasks are blocked after a sequence of calls, by the calls
    alone: a task is blocked when it was scheduled blocked and has not
    been unblocked since.  [flags] are the tasks created before. *)
Fixpoint blocked_after (ops : list Op) (flags : list bool) : list bool :=
  match ops with
  | [] => flags
  | ScheduleTask _ blocked :: rest => blocked_after rest (flags ++ [blocked])
  | Flush _ :: rest => blocked_after rest flags
  | Unblock task :: rest => blocked_after rest (<[task := false]> flags)
  end.

(** What rendering a frame shows: its tasks executed in the order they
    were scheduled, then its callback called. *)
Definition frame_events (frame : Frame) : list Event :=
  map Execute (ftasks frame)
    ++ match callback frame with
       | Some cb => [Callback (label cb)]
       | None => []
       end.

(** The frames [done] have been rendered: the log is their events, one
    frame after the other, and none of their tasks is blocked. *)
Definition rendered (d : t) (done : list Frame) : Prop :=
  log d = flat_map frame_events done /\
  forall frame, frame ∈ done -> isReady (heap d) frame = true.

(** The flush of frames went as far as it can: the first frame still
    queued, if there is one, is not ready. *)
Definition drained (d : t) : Prop :=
  match frames d with
  | frame :: _ => isReady (heap d) frame = false
  | [] => True
  end.

(** Every task created so far is in exactly one place: a rendered frame,
    a queued frame or the pending list, in the order of creation. *)
Definition allocated (d : t) (done : list Frame) : Prop :=
  concat (map ftasks (done ++ frames d)) ++ tasks d
  = seq 0 (length (heap d)).

(** No handler of a task and no callback of a queued frame calls the
    display. *)
Definition quiet_display (d : t) : Prop :=
  (forall tk h, tk ∈ heap d -> taskHandler tk = Some h -> quiet h) /\
  (forall frame h, frame ∈ frames d -> callback frame = Some h -> quiet h).


(** A function that does nothing but what it is there for. *)
Definition plain (label : nat) : Handler := mkHandler label (fun _ => []).


(** A frame callback that calls [display.flush()] whenever it runs. *)
Definition flush_always (label : nat) : Handler :=
  mkHandler label (fun _ => [Flush None]).

(** A frame of a blocked and an unblocked task with callback 7, then a
    frame of one task without callback, then the blocked task is
    unblocked. *)
Definition two_frames : list Op :=
  [ScheduleTask (Some (plain 1)) true; ScheduleTask (Some (plain 2)) false;
   Flush (Some (plain 7)); ScheduleTask None false; Flush None; Unblock 0].




End Display.
(** ** Display: what a log says *)
Module DisplayLog.

Import Display.

(** The tasks a log executed, in order. *)
Fixpoint executed (log : list Event) : list nat :=
  match log with
  | [] => []
  | Execute task :: rest => task :: executed rest
  | Callback _ :: rest => executed rest
  end.

(** The number of tasks a sequence of calls schedules. *)
Fixpoint scheduled (ops : list Op) : nat :=
  match ops with
  | [] => 0
  | ScheduleTask _ _ :: rest => S (scheduled rest)
  | _ :: rest => scheduled rest
  end.

(** A display whose only frame, of one task without handler, is ready
    and has a callback that calls [flush()] whenever it runs. *)
Definition looping_display : Display.t :=
  {| heap := [mkTask None false]; tasks := [];
     frames := [mkFrame (Some (flush_always 1)) [0%nat]]; log := [] |}.

(** Three unblocked tasks flushed as two frames. *)
Definition unblocked_frames : list Op :=
  [ScheduleTask (Some (plain 1)) false; ScheduleTask None false;
   Flush (Some (plain 7)); ScheduleTask (Some (plain 2)) false; Flush None].

End DisplayLog.

(** ** ChainedTunnel: what a run shows *)
Module ChainedRun.

Import ChainedTunnel.

(** The tunnels an action list connects, in order, with the data given
    to [connect]. *)
Fixpoint connects (acts : list Action) : list (nat * option jsstring) :=
  match acts with
  | [] => []
  | Connect tunnel data :: rest => (tunnel, data) :: connects rest
  | _ :: rest => connects rest
  end.

(** The input is a call of [connect] by the consumer. *)
Definition is_connect_call (i : Input) : bool :=
  match i with
  | CallConnect _ => true
  | _ => false
  end.

(** What the consumer's handlers receive for an input of the inner
    tunnel [t] when that tunnel's handlers are the consumer's own. *)
Definition forwarded (c : t) (tunnel : nat) (i : Input) : list Action :=
  match i with
  | TunnelError u status =>
      if bool_decide (u = tunnel) && onerror c then [Error status] else []
  | TunnelStateChange u state =>
      if bool_decide (u = tunnel) && onstatechange c then [StateChange state]
      else []
  | TunnelInstruction u opcode elements =>
      if bool_decide (u = tunnel) && oninstruction c
      then [Instruction opcode elements] else []
  | CallConnect _ => []
  end.

(** At most one inner tunnel has handlers installed. *)
Definition single_live (c : t) : Prop :=
  forall u v, handlers_of c u <> Unset -> handlers_of c v <> Unset -> u = v.

End ChainedRun.


(** ** IntegerPool in use

    A caller of the pool, as [Guacamole.Client] is for its stream
    indices: it asks for integers and gives back integers.  [held] lists
    the integers the caller has been given and has not freed. *)
Module IntegerPoolUse.

Import JS IntegerPool.

Inductive Op : Type :=
| Next
| Free (integer : jsnum).

Fixpoint run (p : IntegerPool.t) (held : list jsnum) (ops : list Op)
  : IntegerPool.t * list jsnum :=
  match ops with
  | [] => (p, held)
  | Next :: rest =>
      let '(i, p') := next p in run p' (i :: held) rest
  | Free i :: rest =>
      run (free p i) (filter (fun j => j <> i) held) rest
  end.

(** The caller frees only integers it holds. *)
Fixpoint disciplined (p : IntegerPool.t) (held : list jsnum)
  (ops : list Op) : bool :=
  match ops with
  | [] => true
  | Next :: rest =>
      let '(i, p') := next p in disciplined p' (i :: held) rest
  | Free i :: rest =>
      bool_decide (i ∈ held)
      && disciplined (free p i) (filter (fun j => j <> i) held) rest
  end.

(** The integers below [n], as JavaScript numbers. *)
Definition below (n : Z) : list jsnum := Num <$> seqZ 0 n.

End IntegerPoolUse.

(** ** StringWriter.sendText over the ArrayBufferWriter *)
Module TextStream.

Import JS.

(** [sendText(text)]: [array_writer.sendData(__encode_utf8(text))]; for
    the empty text nothing is returned by [__encode_utf8], and
    [new Uint8Array(undefined)] is the empty array.  The byte arrays
    handed to [__send_blob]. *)
Definition sendText_blobs (text : jsstring) : list (list Z) :=
  ArrayBufferWriter.sendData_blobs
    (match StringWriter.encode_utf8 text with
     | Some out_buffer => out_buffer
     | None => []
     end).

End TextStream.

(** ** StringWriter: the buffer

    [__encode_utf8] writes into a [Uint8Array] that [__expand] replaces by
    a larger one when it is full.  A [Uint8Array] is a list of bytes of
    fixed length: a store outside of it does nothing, a stored integer is
    reduced modulo 256. *)
Module StringWriterBuffer.

Import JS.

(** [buffer] and [length] of a StringWriter. *)
Record t : Type := mk { buffer : list Z; length : Z }.

(** [new StringWriter(stream)]: [new Uint8Array(8192)], [length = 0]. *)
Definition new : t :=
  {| buffer := replicate (Z.to_nat 8192) 0; length := 0 |}.

(** The bytes written so far: [buffer.subarray(0, length)]. *)
Definition written (w : t) : list Z :=
  take (Z.to_nat (length w)) (buffer w).

(** [array[index] = value] *)
Definition store (array : list Z) (index value : Z) : list Z :=
  if 0 <=? index then <[Z.to_nat index := value mod 256]> array else array.

(** [target.set(source)]: a RangeError when the source is longer. *)
Definition set (target source : list Z) : option (list Z) :=
  if strlen source <=? strlen target
  then Some (source ++ drop (List.length source) target)
  else None.

(** [__expand(bytes)] *)
Definition expand (w : t) (bytes : Z) : option t :=
  if length w + bytes >=? strlen (buffer w) then
    match set (replicate (Z.to_nat ((length w + bytes) * 2)) 0) (buffer w)
    with
    | Some new_buffer =>
        Some {| buffer := new_buffer; length := length w + bytes |}
    | None => None
    end
  else Some {| buffer := buffer w; length := length w + bytes |}.

(** [for (var i=1; i<bytes; i++) {
       buffer[offset--] = 0x80 | (codepoint & 0x3F); codepoint >>= 6; }]
    with [n] rounds to go; the codepoints are below 2^31, where [>>=] is
    the shift of integers. *)
Fixpoint write_trailing (n : nat) (array : list Z) (offset codepoint : Z)
  : list Z * Z * Z :=
  match n with
  | O => (array, offset, codepoint)
  | S k =>
      write_trailing k
        (store array offset (Z.lor 0x80 (Z.land codepoint 0x3F)))
        (offset - 1) (Z.shiftr codepoint 6)
  end.

(** [__append_utf8(codepoint)] from [__expand(bytes)] on, [mask] and
    [bytes] being chosen. *)
Definition write_utf8 (w : t) (mask bytes codepoint : Z) : option t :=
  match expand w bytes with
  | Some w1 =>
      let '(array, offset, codepoint') :=
        write_trailing (Z.to_nat (bytes - 1)) (buffer w1) (length w1 - 1)
          codepoint in
      Some {| buffer := store array offset (Z.lor mask codepoint');
              length := length w1 |}
  | None => None
  end.

(** [__append_utf8(codepoint)] *)
Definition append_utf8 (w : t) (codepoint : Z) : option t :=
  if codepoint <=? 0x7F then write_utf8 w 0x00 1 codepoint
  else if codepoint <=? 0x7FF then write_utf8 w 0xC0 2 codepoint
  else if codepoint <=? 0xFFFF then write_utf8 w 0xE0 3 codepoint
  else if codepoint <=? 0x1FFFFF then write_utf8 w 0xF0 4 codepoint
  else write_utf8 w 0xE0 3 0xFFFD.

(** [for (var i=0; i<text.length; i++) __append_utf8(text.charCodeAt(i))] *)
Fixpoint fill (w : t) (text : jsstring) : option t :=
  match text with
  | [] => Some w
  | codepoint :: rest =>
      match append_utf8 w codepoint with
      | Some w1 => fill w1 rest
      | None => None
      end
  end.

(** [__encode_utf8(text)]: the writer afterwards and what is returned,
    [buffer.subarray(0, length)] or nothing. *)
Definition encode_utf8 (w : t) (text : jsstring)
  : option (t * option (list Z)) :=
  match fill w text with
  | Some w1 =>
      if length w1 >? 0 then
        Some ({| buffer := buffer w1; length := 0 |},
              Some (ArrayBufferWriter.subarray (buffer w1) 0 (length w1)))
      else Some (w1, None)
  | None => None
  end.

(** The texts of successive [sendText] calls: what each call hands to
    [array_writer.sendData]. *)
Fixpoint encode_all (w : t) (texts : list jsstring)
  : option (list (option (list Z))) :=
  match texts with
  | [] => Some []
  | text :: rest =>
      match encode_utf8 w text with
      | Some (w1, out) =>
          match encode_all w1 rest with
          | Some outs => Some (out :: outs)
          | None => None
          end
      | None => None
      end
  end.

(** The UTF-8 encoding of the code point [c] below 0x10000 as the
    standard gives it (RFC 3629), written with division: one byte
    [0xxxxxxx] up to 0x7F, two bytes [110xxxxx 10xxxxxx] up to 0x7FF,
    three bytes [1110xxxx 10xxxxxx 10xxxxxx] beyond. *)
Definition utf8_bytes (c : Z) : list Z :=
  if c <? 0x80 then [c]
  else if c <? 0x800 then [0xC0 + c / 64; 0x80 + c mod 64]
  else [0xE0 + c / 4096; 0x80 + (c / 64) mod 64; 0x80 + c mod 64].

(** What [sendText(text)] is to hand on: the encodings of the code
    units of the text, one after the other, or nothing when there is
    none. *)
Definition utf8_of_code_units (text : jsstring) : option (list Z) :=
  match flat_map utf8_bytes text with
  | [] => None
  | bytes => Some bytes
  end.

End StringWriterBuffer.

(** ** Layer.Pixel and Client.DefaultTransferFunction *)
Module Pixel.

(** [new Layer.Pixel(r, g, b, a)] *)
Record t : Type := mk { red : Z; green : Z; blue : Z; alpha : Z }.

End Pixel.

Module TransferFunction.

Import Pixel.

(** [Client.DefaultTransferFunction[function_index]]: each function
    changes [dst], which is given back here; the channels it does not
    assign are kept.  [~] is the complement of integers. *)
Definition DefaultTransferFunction (function_index : Z)
  : option (Pixel.t -> Pixel.t -> Pixel.t) :=
  match function_index with
  (* BLACK *)
  | 0x0 => Some (fun src dst =>
      {| red := 0x00; green := 0x00; blue := 0x00; alpha := alpha dst |})
  (* WHITE *)
  | 0xF => Some (fun src dst =>
      {| red := 0xFF; green := 0xFF; blue := 0xFF; alpha := alpha dst |})
  (* SRC *)
  | 0x3 => Some (fun src dst =>
      {| red := red src; green := green src; blue := blue src;
         alpha := alpha src |})
  (* DEST (no-op) *)
  | 0x5 => Some (fun src dst => dst)
  (* Invert SRC *)
  | 0xC => Some (fun src dst =>
      {| red := Z.land 0xFF (Z.lnot (red src));
         green := Z.land 0xFF (Z.lnot (green src));
         blue := Z.land 0xFF (Z.lnot (blue src));
         alpha := alpha src |})
  (* Invert DEST *)
  | 0xA => Some (fun src dst =>
      {| red := Z.land 0xFF (Z.lnot (red dst));
         green := Z.land 0xFF (Z.lnot (green dst));
         blue := Z.land 0xFF (Z.lnot (blue dst));
         alpha := alpha dst |})
  (* AND *)
  | 0x1 => Some (fun src dst =>
      {| red := Z.land (red src) (red dst);
         green := Z.land (green src) (green dst);
         blue := Z.land (blue src) (blue dst);
         alpha := alpha dst |})
  (* NAND *)
  | 0xE => Some (fun src dst =>
      {| red := Z.land 0xFF (Z.lnot (Z.land (red src) (red dst)));
         green := Z.land 0xFF (Z.lnot (Z.land (green src) (green dst)));
         blue := Z.land 0xFF (Z.lnot (Z.land (blue src) (blue dst)));
         alpha := alpha dst |})
  (* OR *)
  | 0x7 => Some (fun src dst =>
      {| red := Z.lor (red src) (red dst);
         green := Z.lor (green src) (green dst);
         blue := Z.lor (blue src) (blue dst);
         alpha := alpha dst |})
  (* NOR *)
  | 0x8 => Some (fun src dst =>
      {| red := Z.land 0xFF (Z.lnot (Z.lor (red src) (red dst)));
         green := Z.land 0xFF (Z.lnot (Z.lor (green src) (green dst)));
         blue := Z.land 0xFF (Z.lnot (Z.lor (blue src) (blue dst)));
         alpha := alpha dst |})
  (* XOR *)
  | 0x6 => Some (fun src dst =>
      {| red := Z.lxor (red src) (red dst);
         green := Z.lxor (green src) (green dst);
         blue := Z.lxor (blue src) (blue dst);
         alpha := alpha dst |})
  (* XNOR *)
  | 0x9 => Some (fun src dst =>
      {| red := Z.land 0xFF (Z.lnot (Z.lxor (red src) (red dst)));
         green := Z.land 0xFF (Z.lnot (Z.lxor (green src) (green dst)));
         blue := Z.land 0xFF (Z.lnot (Z.lxor (blue src) (blue dst)));
         alpha := alpha dst |})
  (* AND inverted source *)
  | 0x4 => Some (fun src dst =>
      {| red := Z.land 0xFF (Z.land (Z.lnot (red src)) (red dst));
         green := Z.land 0xFF (Z.land (Z.lnot (green src)) (green dst));
         blue := Z.land 0xFF (Z.land (Z.lnot (blue src)) (blue dst));
         alpha := alpha dst |})
  (* OR inverted source *)
  | 0xD => Some (fun src dst =>
      {| red := Z.land 0xFF (Z.lor (Z.lnot (red src)) (red dst));
         green := Z.land 0xFF (Z.lor (Z.lnot (green src)) (green dst));
         blue := Z.land 0xFF (Z.lor (Z.lnot (blue src)) (blue dst));
         alpha := alpha dst |})
  (* AND inverted destination *)
  | 0x2 => Some (fun src dst =>
      {| red := Z.land 0xFF (Z.land (red src) (Z.lnot (red dst)));
         green := Z.land 0xFF (Z.land (green src) (Z.lnot (green dst)));
         blue := Z.land 0xFF (Z.land (blue src) (Z.lnot (blue dst)));
         alpha := alpha dst |})
  (* OR inverted destination *)
  | 0xB => Some (fun src dst =>
      {| red := Z.land 0xFF (Z.lor (red src) (Z.lnot (red dst)));
         green := Z.land 0xFF (Z.lor (green src) (Z.lnot (green dst)));
         blue := Z.land 0xFF (Z.lor (blue src) (Z.lnot (blue dst)));
         alpha := alpha dst |})
  | _ => None
  end.

(** A byte of image data. *)
Definition is_byte (v : Z) : Prop := 0 <= v < 256.

(** The function index read as a truth table: the bit for a source bit
    [s] and a destination bit [d] is bit 0 for (1,1), bit 1 for (1,0),
    bit 2 for (0,1) and bit 3 for (0,0). *)
Definition table_bit (function_index : Z) (s d : bool) : bool :=
  Z.testbit function_index (2 * (1 - Z.b2z s) + (1 - Z.b2z d)).

(** A channel of the result follows the table in each of its bits. *)
Definition follows_table (function_index result src dst : Z) : Prop :=
  is_byte result /\
  forall i, 0 <= i < 8 ->
    Z.testbit result i
    = table_bit function_index (Z.testbit src i) (Z.testbit dst i).

End TransferFunction.

(** ** HTTPTunnel: sending *)
Module HTTPSend.

Import JS.

(** The tunnel with its [outputMessageBuffer], and the number of write
    requests whose answer has not arrived. *)
Record t : Type := mk {
  tunnel : HTTPTunnel.t;
  outputMessageBuffer : jsstring;
  awaiting : nat
}.

(** What sending does to the outside: a write request is posted, or the
    tunnel does what [HTTPTunnel.Event] lists, a call of a handler of
    the consumer or a throw. *)
Inductive Effect : Type :=
| Post (body : jsstring)
| Handler (event : HTTPTunnel.Event).

(** An open tunnel with nothing buffered and nothing being sent. *)
Definition opened (onerror onstatechange : bool) : t :=
  {| tunnel := HTTPTunnel.mk Tunnel.OPEN false onerror onstatechange;
     outputMessageBuffer := []; awaiting := 0 |}.

Definition set_sendingMessages (tn : HTTPTunnel.t) (b : bool)
  : HTTPTunnel.t :=
  HTTPTunnel.mk (HTTPTunnel.state tn) b (HTTPTunnel.onerror tn)
    (HTTPTunnel.onstatechange tn).

(** [sendPendingMessages()] *)
Definition sendPendingMessages (h : t) : t * list Effect :=
  if bool_decide (HTTPTunnel.state (tunnel h) ≠ Tunnel.OPEN) then (h, [])
  else if strlen (outputMessageBuffer h) >? 0 then
    ({| tunnel := set_sendingMessages (tunnel h) true;
        outputMessageBuffer := []; awaiting := S (awaiting h) |},
     [Post (outputMessageBuffer h)])
  else
    ({| tunnel := set_sendingMessages (tunnel h) false;
        outputMessageBuffer := outputMessageBuffer h;
        awaiting := awaiting h |}, []).

(** [tunnel.sendMessage(...)] *)
Definition sendMessage (h : t) (arguments : list jsstring)
  : t * list Effect :=
  match Codec.sendMessage (HTTPTunnel.state (tunnel h)) arguments with
  | None => (h, [])
  | Some message =>
      let h1 := {| tunnel := tunnel h;
                   outputMessageBuffer := outputMessageBuffer h ++ message;
                   awaiting := awaiting h |} in
      if negb (HTTPTunnel.sendingMessages (tunnel h1))
      then sendPendingMessages h1
      else (h1, [])
  end.

(** [handleHTTPTunnelError(message_xmlhttprequest)] *)
Definition handleHTTPTunnelError (h : t) (code message : option jsstring)
  : t * list Effect :=
  let '(tn, events) :=
    HTTPTunnel.handleHTTPTunnelError (tunnel h) code message in
  ({| tunnel := tn; outputMessageBuffer := outputMessageBuffer h;
      awaiting := awaiting h |}, map Handler events).

(** [tunnel.disconnect()] *)
Definition disconnect (h : t) : t * list Effect :=
  let '(tn, events) := HTTPTunnel.disconnect (tunnel h) in
  ({| tunnel := tn; outputMessageBuffer := outputMessageBuffer h;
      awaiting := awaiting h |}, map Handler events).

Inductive Input : Type :=
| Send (arguments : list jsstring)
(* a write request is answered with status 200 *)
| Answered
(* a write request is answered with another status; [code] and [message]
   are the two headers [handleHTTPTunnelError] reads *)
| Failed (code message : option jsstring)
| Disconnect.

(** One input.  An answer arrives only for a request that awaits one. *)
Definition step (h : t) (i : Input) : t * list Effect :=
  match i with
  | Send arguments => sendMessage h arguments
  | Answered =>
      match awaiting h with
      | O => (h, [])
      | S n =>
          sendPendingMessages
            {| tunnel := tunnel h;
               outputMessageBuffer := outputMessageBuffer h; awaiting := n |}
      end
  | Failed code message =>
      match awaiting h with
      | O => (h, [])
      | S n =>
          handleHTTPTunnelError
            {| tunnel := tunnel h;
               outputMessageBuffer := outputMessageBuffer h; awaiting := n |}
            code message
      end
  | Disconnect => disconnect h
  end.

Fixpoint run (h : t) (inputs : list Input) : t * list Effect :=
  match inputs with
  | [] => (h, [])
  | i :: rest =>
      let '(h1, effects1) := step h i in
      let '(h2, effects2) := run h1 rest in
      (h2, effects1 ++ effects2)
  end.

(** The bodies of the write requests, one after the other. *)
Fixpoint posted (effects : list Effect) : jsstring :=
  match effects with
  | [] => []
  | Post body :: rest => body ++ posted rest
  | Handler _ :: rest => posted rest
  end.

(** The messages an open tunnel makes of the [sendMessage] calls among
    the inputs, one after the other. *)
Fixpoint messages (inputs : list Input) : jsstring :=
  match inputs with
  | [] => []
  | Send arguments :: rest =>
      match Codec.sendMessage Tunnel.OPEN arguments with
      | Some message => message ++ messages rest
      | None => messages rest
      end
  | _ :: rest => messages rest
  end.

(** The greatest number of requests awaiting an answer along a run. *)
Fixpoint most_awaiting (h : t) (inputs : list Input) : nat :=
  match inputs with
  | [] => awaiting h
  | i :: rest => Nat.max (awaiting h) (most_awaiting (fst (step h i)) rest)
  end.

(** The input is a write request answered with an error. *)
Definition is_failed (i : Input) : bool :=
  match i with
  | Failed _ _ => true
  | _ => false
  end.

(** The send loop runs as meant: [sendingMessages] says that a request
    awaits its answer, and nothing is buffered unless one does. *)
Definition sending (h : t) : Prop :=
  (HTTPTunnel.sendingMessages (tunnel h) = true <-> awaiting h = 1%nat) /\
  (awaiting h = 0%nat -> outputMessageBuffer h = []).

(** The send loop has stopped for good: [sendingMessages] is true and
    no request awaits an answer. *)
Definition stalled (h : t) : Prop :=
  HTTPTunnel.sendingMessages (tunnel h) = true /\ awaiting h = 0%nat.

(** What holds between the calls: [sent] is what was posted and
    [accepted] the messages made so far. *)
Definition sending_invariant (h : t) (sent accepted : jsstring) : Prop :=
  HTTPTunnel.state (tunnel h) = Tunnel.OPEN /\
  (awaiting h <= 1)%nat /\
  sent ++ outputMessageBuffer h = accepted /\
  (sending h \/ stalled h).

End HTTPSend.

(** ** WebSocketTunnel (WebSocketTunnel.js) *)
Module WebSocketTunnel.

Import JS.

(** The tunnel's state and which handlers the consumer has installed. *)
Record t : Type := mk {
  state : Tunnel.State;
  onerror : bool;
  onstatechange : bool;
  oninstruction : bool
}.

Inductive Event : Type :=
| OnError (status : Status.t)
| OnStateChange (state : Tunnel.State)
| OnInstruction (opcode : jsstring) (elements : list jsstring)
| SocketSend (message : jsstring)
| SocketClose.

(** [close_tunnel(status)] *)
Definition close_tunnel (tunnel : t) (status : Status.t) : t * list Event :=
  if bool_decide (state tunnel = Tunnel.CLOSED) then (tunnel, [])
  else
    ({| state := Tunnel.CLOSED; onerror := onerror tunnel;
        onstatechange := onstatechange tunnel;
        oninstruction := oninstruction tunnel |},
     (if JS.ne (Status.code status) (Num Status.SUCCESS) && onerror tunnel
      then [OnError status] else [])
       ++ (if onstatechange tunnel then [OnStateChange Tunnel.CLOSED]
           else [])
       ++ [SocketClose]).

(** [tunnel.sendMessage(...)]: what is given to [socket.send]. *)
Definition sendMessage (tunnel : t) (arguments : list jsstring)
  : list Event :=
  match Codec.sendMessage (state tunnel) arguments with
  | Some message => [SocketSend message]
  | None => []
  end.

(** ["Incomplete instruction."] *)
Definition Incomplete_instruction : jsstring :=
  [73; 110; 99; 111; 109; 112; 108; 101; 116; 101; 32; 105; 110; 115; 116;
   114; 117; 99; 116; 105; 111; 110; 46].

(** [elementEnd] is [undefined] until the first length is read:
    [elementEnd + 1] is then NaN, and as the end of a substring
    [undefined] is the end of the string. *)
Definition plus1 (elementEnd : option jsnum) : jsnum :=
  match elementEnd with
  | Some n => JS.add n (Num 1)
  | None => NaN
  end.

Definition substring_to (s : jsstring) (a : jsnum) (b : option jsnum)
  : jsstring :=
  match b with
  | Some n => substring s a n
  | None => substring_from s a
  end.

(** The variables of [socket.onmessage] and what was done so far. *)
Record Vars : Type := mkVars {
  tunnel : t;
  startIndex : jsnum;
  elementEnd : option jsnum;
  elements : list jsstring;
  events : list Event
}.

(** The body of the [do ... while] loop. *)
Definition body (message : jsstring) (v : Vars) : Vars :=
  let lengthEnd := indexOf message DOT (ToInteger (startIndex v)) in
  let '(tunnel1, events1, startIndex1, elementEnd1) :=
    if negb (lengthEnd =? -1) then
      let length :=
        parseInt (substring message (plus1 (elementEnd v))
                    (Num lengthEnd)) in
      let startIndex' := Num (lengthEnd + 1) in
      (tunnel v, events v, startIndex', Some (JS.add startIndex' length))
    else
      let '(tunnel', closing) :=
        close_tunnel (tunnel v)
          (Status.mk (Num Status.SERVER_ERROR)
             (Some Incomplete_instruction)) in
      (tunnel', events v ++ closing, startIndex v, elementEnd v) in
  let element := substring_to message startIndex1 elementEnd1 in
  let terminator :=
    substring message (default NaN elementEnd1) (plus1 elementEnd1) in
  let pushed := elements v ++ [element] in
  let '(elements2, events2) :=
    if bool_decide (terminator = [SEMICOLON]) then
      ([], if oninstruction tunnel1
           then events1 ++ [OnInstruction (hd [] pushed) (tl pushed)]
           else events1)
    else (pushed, events1) in
  {| tunnel := tunnel1; startIndex := plus1 elementEnd1;
     elementEnd := elementEnd1; elements := elements2; events := events2 |}.

(** [do { ... } while (startIndex < message.length)]; [None] is the loop
    still running when the fuel is used up. *)
Fixpoint loop (fuel : nat) (message : jsstring) (v : Vars) : option Vars :=
  match fuel with
  | O => None
  | S fuel' =>
      let v' := body message v in
      if JS.lt (startIndex v') (Num (strlen message))
      then loop fuel' message v'
      else Some v'
  end.

(** [socket.onmessage(event)] with [event.data = message]: the tunnel
    afterwards and what was done, when the handler returns within [fuel]
    rounds of its loop. *)
Definition onmessage (fuel : nat) (tunnel : t) (message : jsstring)
  : option (t * list Event) :=
  match loop fuel message
          {| tunnel := tunnel; startIndex := Num 0; elementEnd := None;
             elements := []; events := [] |} with
  | Some v => Some (WebSocketTunnel.tunnel v, events v)
  | None => None
  end.

(** Instructions as [sendMessage] writes them, one after the other. *)
Fixpoint wire (instructions : list (jsstring * list jsstring)) : jsstring :=
  match instructions with
  | [] => []
  | (opcode, parameters) :: rest =>
      default [] (Codec.sendMessage Tunnel.OPEN (opcode :: parameters))
        ++ wire rest
  end.

(** The number of elements of the instructions. *)
Fixpoint element_count (instructions : list (jsstring * list jsstring))
  : nat :=
  match instructions with
  | [] => O
  | (opcode, parameters) :: rest =>
      S (length parameters) + element_count rest
  end.

End WebSocketTunnel.

(** ** The Parser fed a stream in packets *)
Module ParserStream.

Import JS Codec Parser.

(** A token is an element on the wire and the terminator after it. *)
Fixpoint stream (toks : list (jsstring * Z)) : jsstring :=
  match toks with
  | [] => []
  | (value, terminator) :: rest =>
      getElement value ++ terminator :: stream rest
  end.

Definition is_terminator (tok : jsstring * Z) : Prop :=
  snd tok = COMMA \/ snd tok = SEMICOLON.

(** The elements of one instruction as tokens. *)
Fixpoint element_tokens (first : jsstring) (rest : list jsstring)
  : list (jsstring * Z) :=
  match rest with
  | [] => [(first, SEMICOLON)]
  | e :: rest' => (first, COMMA) :: element_tokens e rest'
  end.

Fixpoint tokens (instructions : list Instruction) : list (jsstring * Z) :=
  match instructions with
  | [] => []
  | (opcode, parameters) :: rest =>
      element_tokens opcode parameters ++ tokens rest
  end.

(** What complete tokens come to, [element_buffer] holding what was
    pushed before: the [element_buffer] afterwards and the instructions
    handed to [oninstruction]. *)
Fixpoint emit (element_buffer : list jsstring) (toks : list (jsstring * Z))
  : list jsstring * list Instruction :=
  match toks with
  | [] => (element_buffer, [])
  | (value, terminator) :: rest =>
      let pushed := element_buffer ++ [value] in
      if bool_decide (terminator = SEMICOLON) then
        let '(eb, out) := emit [] rest in
        (eb, (hd [] pushed, tl pushed) :: out)
      else emit pushed rest
  end.

(** [parser.receive(packet)] for each packet in turn: the parser
    afterwards and every instruction handed to [oninstruction], in order;
    [None] when a call throws. *)
Fixpoint receive_all (p : Parser.t) (packets : list jsstring)
  : option (Parser.t * list Instruction) :=
  match packets with
  | [] => Some (p, [])
  | packet :: rest =>
      match receive p packet with
      | Some r =>
          match completion r with
          | Returned =>
              match receive_all (parser r) rest with
              | Some (p', out) => Some (p', emitted r ++ out)
              | None => None
              end
          | Threw _ => None
          end
      | None => None
      end
  end.

(** Between two calls of [receive], [rest] being the part of the stream
    still to come: the parser waits for the rest of an element and its
    terminator, *)
Definition at_body (p : Parser.t) (tok : jsstring * Z) (todo : list (jsstring * Z))
  (rest : jsstring) : Prop :=
  exists pre b1 b2,
    buffer p = pre ++ b1 /\ fst tok = b1 ++ b2 /\
    rest = b2 ++ snd tok :: stream todo /\
    start_index p = strlen pre /\
    element_end p = Num (strlen pre + strlen (fst tok)).

(** or for the rest of a length and its period, *)
Definition at_length (p : Parser.t) (tok : jsstring * Z) (todo : list (jsstring * Z))
  (rest : jsstring) : Prop :=
  exists pre d1 d2,
    buffer p = pre ++ d1 /\
    number_toString (strlen (fst tok)) = d1 ++ d2 /\
    rest = d2 ++ DOT :: fst tok ++ snd tok :: stream todo /\
    start_index p = strlen (buffer p) /\
    element_end p = Num (strlen pre - 1).

(** or the stream has ended. *)
Definition at_end (p : Parser.t) (rest : jsstring) : Prop :=
  rest = [] /\ start_index p = strlen (buffer p) /\
  element_end p = Num (strlen (buffer p) - 1).

(** [toks] are the tokens not yet taken from the buffer. *)
Definition waiting (p : Parser.t) (eb : list jsstring) (toks : list (jsstring * Z))
  (rest : jsstring) : Prop :=
  element_buffer p = eb /\ oninstruction p = true /\
  match toks with
  | [] => at_end p rest
  | tok :: todo => at_body p tok todo rest \/ at_length p tok todo rest
  end.

End ParserStream.

(** ** HTTPTunnel: reading a response *)
Module HTTPResponse.

Import JS.

(** The variables [handleResponse] keeps for one response. *)
Record t : Type := mk {
  elementEnd : jsnum;
  startIndex : Z;
  elements : list jsstring
}.

(** [elementEnd = -1; startIndex = 0; elements = new Array()] *)
Definition new : t := {| elementEnd := Num (-1); startIndex := 0;
                         elements := [] |}.

(** How the loop of [parseResponse] is left: the data received so far is
    used up, or a length of 0 was read and the response is finished (the
    request is aborted and the next response handled). *)
Inductive Outcome : Type :=
| Waiting
| Finished.

(** The first half of the loop body, [if (elementEnd >= startIndex)],
    with [oninstruction] installed: the variables afterwards and the
    instructions handed on so far. *)
Definition take_element (current : jsstring) (v : t)
  (out : list Parser.Instruction) : t * list Parser.Instruction :=
  if JS.ge (elementEnd v) (Num (startIndex v)) then
    let element := substring current (Num (startIndex v)) (elementEnd v) in
    let terminator :=
      substring current (elementEnd v) (JS.add (elementEnd v) (Num 1)) in
    let pushed := elements v ++ [element] in
    let '(elements', out') :=
      if bool_decide (terminator = [SEMICOLON])
      then ([], out ++ [(hd [] pushed, tl pushed)])
      else (pushed, out) in
    ({| elementEnd := elementEnd v;
        startIndex := ToInteger (JS.add (elementEnd v) (Num 1));
        elements := elements' |}, out')
  else (v, out).

(** The second half: the search for the end of the length.  [inl]
    continues the loop, [inr] is [break]. *)
Definition read_length (current : jsstring) (v : t) : t + (t * Outcome) :=
  let lengthEnd := indexOf current DOT (startIndex v) in
  if negb (lengthEnd =? -1) then
    let length :=
      parseInt (substring current (JS.add (elementEnd v) (Num 1))
                  (Num lengthEnd)) in
    if JS.eq length (Num 0) then inr (v, Finished)
    else
      let startIndex' := lengthEnd + 1 in
      inl {| elementEnd := JS.add (Num startIndex') length;
             startIndex := startIndex'; elements := elements v |}
  else
    inr ({| elementEnd := elementEnd v; startIndex := strlen current;
            elements := elements v |}, Waiting).

(** [while (elementEnd < current.length)]; [None] is the loop running
    out of fuel. *)
Fixpoint parse_loop (fuel : nat) (current : jsstring) (v : t)
  (out : list Parser.Instruction)
  : option (t * list Parser.Instruction * Outcome) :=
  match fuel with
  | O => None
  | S fuel' =>
      if JS.lt (elementEnd v) (Num (strlen current)) then
        let '(v1, out1) := take_element current v out in
        match read_length current v1 with
        | inr (v2, outcome) => Some (v2, out1, outcome)
        | inl v2 => parse_loop fuel' current v2 out1
        end
      else Some (v, out, Waiting)
  end.

End HTTPResponse.

(** ** RawAudioPlayer: the packet queue

    A packet is the list of its samples; [channels] is [format.channels]
    and [minSplitSamples] is [Math.floor(format.rate * MIN_SPLIT_SIZE)]. *)
Module RawAudioPlayer.

Import JS.

(** [Number.MAX_VALUE] *)
Definition MAX_VALUE : Z := 2 ^ 1024 - 2 ^ 971.

(** [joinAudioPackets(packets)]; [packets[0]] of an empty queue is
    undefined. *)
Definition joinAudioPackets (packets : list (list Z)) : option (list Z) :=
  match packets with
  | [] => None
  | [packet] => Some packet
  | _ => Some (concat packets)
  end.

(** [data[index]]: undefined outside the array. *)
Definition sample (data : list Z) (index : Z) : option Z :=
  if 0 <=? index then data !! Z.to_nat index else None.

(** [for (channel = 0; channel < format.channels; channel++)
       totalValue += Math.abs(data[offset + channel])],
    [n] rounds to go; [Math.abs(undefined)] is NaN. *)
Fixpoint sum_channels (n : nat) (data : list Z) (index : Z)
  (totalValue : jsnum) : jsnum :=
  match n with
  | O => totalValue
  | S k =>
      sum_channels k data (index + 1)
        (JS.add totalValue
           match sample data index with
           | Some value => Num (Z.abs value)
           | None => NaN
           end)
  end.

(** [for (offset = start; offset < data.length; offset += format.channels)]
    of [splitAudioPacket]: the [optimalSplitLength] at the end; [None] is
    the loop still running when the fuel is used up. *)
Fixpoint split_loop (fuel : nat) (channels : Z) (data : list Z)
  (offset : Z) (minValue : jsnum) (optimalSplitLength : Z) : option Z :=
  match fuel with
  | O => None
  | S fuel' =>
      if offset <? strlen data then
        let totalValue :=
          sum_channels (Z.to_nat channels) data offset (Num 0) in
        if JS.ge minValue totalValue
        then split_loop fuel' channels data (offset + channels) totalValue
               (offset + channels)
        else split_loop fuel' channels data (offset + channels) minValue
               optimalSplitLength
      else Some optimalSplitLength
  end.

(** [splitAudioPacket(data)]: the packet, or the two packets it is cut
    into. *)
Definition splitAudioPacket (channels minSplitSamples : Z) (data : list Z)
  : option (list (list Z)) :=
  let samples := strlen data / channels in
  let start :=
    Z.max (channels * minSplitSamples)
      (channels * (samples - minSplitSamples)) in
  match split_loop (S (length data)) channels data start (Num MAX_VALUE)
          (strlen data) with
  | Some optimalSplitLength =>
      if optimalSplitLength =? strlen data then Some [data]
      else Some [take (Z.to_nat optimalSplitLength) data;
                 drop (Z.to_nat optimalSplitLength) data]
  | None => None
  end.

(** [pushAudioPacket(data)] *)
Definition pushAudioPacket (packetQueue : list (list Z)) (data : list Z)
  : list (list Z) :=
  packetQueue ++ [data].

(** [shiftAudioPacket()]: the queue afterwards and the packet returned,
    null for an empty queue. *)
Definition shiftAudioPacket (channels minSplitSamples : Z)
  (packetQueue : list (list Z))
  : option (list (list Z) * option (list Z)) :=
  match joinAudioPackets packetQueue with
  | None => Some (packetQueue, None)
  | Some data =>
      match splitAudioPacket channels minSplitSamples data with
      | Some (first :: rest) => Some (rest, Some first)
      | Some [] => Some ([], None)
      | None => None
      end
  end.

(** [reader.ondata(data)]: the queue afterwards and the packet handed to
    the audio context. *)
Definition ondata (channels minSplitSamples : Z)
  (packetQueue : list (list Z)) (data : list Z)
  : option (list (list Z) * option (list Z)) :=
  shiftAudioPacket channels minSplitSamples
    (pushAudioPacket packetQueue data).

(** The packets of a stream, received one after the other: the queue at
    the end and the packets played, in order. *)
Fixpoint play (channels minSplitSamples : Z) (packetQueue : list (list Z))
  (received : list (list Z)) : option (list (list Z) * list (list Z)) :=
  match received with
  | [] => Some (packetQueue, [])
  | data :: rest =>
      match ondata channels minSplitSamples packetQueue data with
      | Some (queue1, packet) =>
          match play channels minSplitSamples queue1 rest with
          | Some (queue2, played) =>
              Some (queue2,
                    match packet with
                    | Some p => p :: played
                    | None => played
                    end)
          | None => None
          end
      | None => None
      end
  end.

(** A packet holds whole frames: a sample for every channel. *)
Definition whole_frames (channels : Z) (packet : list Z) : Prop :=
  (channels | strlen packet).

End RawAudioPlayer.
(** ** Guacamole.Object: the callbacks waiting for a body *)
Module GuacObject.

Import JS.

(** [bodyCallbacks] maps each stream name to the queue of its
    callbacks; a callback is named by a number.  It is a plain object,
    [{}]: the map holds its own properties. *)
Definition new : gmap jsstring (list nat) := ∅.

(** The properties a plain object inherits from [Object.prototype]
    (ECMAScript, Object.prototype and its Annex B additions).  The value
    of each is a function, that of [__proto__] is the prototype itself:
    all are truthy, and none has a [push] or a [shift]. *)
Definition Object_prototype : list jsstring :=
  [
    (* constructor *)
    [99; 111; 110; 115; 116; 114; 117; 99; 116; 111; 114];
    (* hasOwnProperty *)
    [104; 97; 115; 79; 119; 110; 80; 114; 111; 112; 101; 114; 116; 121];
    (* isPrototypeOf *)
    [105; 115; 80; 114; 111; 116; 111; 116; 121; 112; 101; 79; 102];
    (* propertyIsEnumerable *)
    [112; 114; 111; 112; 101; 114; 116; 121; 73; 115; 69; 110; 117; 109; 101; 114; 97; 98; 108; 101];
    (* toLocaleString *)
    [116; 111; 76; 111; 99; 97; 108; 101; 83; 116; 114; 105; 110; 103];
    (* toString *)
    [116; 111; 83; 116; 114; 105; 110; 103];
    (* valueOf *)
    [118; 97; 108; 117; 101; 79; 102];
    (* __proto__ *)
    [95; 95; 112; 114; 111; 116; 111; 95; 95];
    (* __defineGetter__ *)
    [95; 95; 100; 101; 102; 105; 110; 101; 71; 101; 116; 116; 101; 114; 95; 95];
    (* __defineSetter__ *)
    [95; 95; 100; 101; 102; 105; 110; 101; 83; 101; 116; 116; 101; 114; 95; 95];
    (* __lookupGetter__ *)
    [95; 95; 108; 111; 111; 107; 117; 112; 71; 101; 116; 116; 101; 114; 95; 95];
    (* __lookupSetter__ *)
    [95; 95; 108; 111; 111; 107; 117; 112; 83; 101; 116; 116; 101; 114; 95; 95]
  ].

(** What [bodyCallbacks[name]] gives. *)
Inductive Property : Type :=
| Undefined
| Callbacks (callbacks : list nat)
| Inherited.

(** [bodyCallbacks[name]]: the own property, else the inherited one. *)
Definition get (bodyCallbacks : gmap jsstring (list nat)) (name : jsstring)
  : Property :=
  match bodyCallbacks !! name with
  | Some callbacks => Callbacks callbacks
  | None =>
      if bool_decide (name ∈ Object_prototype) then Inherited else Undefined
  end.

(** [dequeueBodyCallback(name)]: the callback returned, if any, and the
    table afterwards; [None] when [callbacks.shift()] throws a TypeError,
    [callbacks] being an inherited property. *)
Definition dequeueBodyCallback (bodyCallbacks : gmap jsstring (list nat)) (name : jsstring)
  : option (option nat * gmap jsstring (list nat)) :=
  match get bodyCallbacks name with
  | Undefined => Some (None, bodyCallbacks)
  | Callbacks callbacks =>
      Some (head callbacks,
            if bool_decide (length (tail callbacks) = 0%nat)
            then delete name bodyCallbacks
            else <[name := tail callbacks]> bodyCallbacks)
  | Inherited => None
  end.

(** [enqueueBodyCallback(name, callback)]; [None] when
    [callbacks.push(callback)] throws a TypeError, [callbacks] being an
    inherited property. *)
Definition enqueueBodyCallback (bodyCallbacks : gmap jsstring (list nat)) (name : jsstring)
  (callback : nat) : option (gmap jsstring (list nat)) :=
  match get bodyCallbacks name with
  | Undefined => Some (<[name := [callback]]> bodyCallbacks)
  | Callbacks callbacks => Some (<[name := callbacks ++ [callback]]> bodyCallbacks)
  | Inherited => None
  end.

Inductive Effect : Type :=
(* [client.requestObjectInputStream(index, name)] *)
| Request (name : jsstring)
(* [callback(inputStream, mimetype)] *)
| Call (callback : nat) (name : jsstring)
(* thrown to the caller *)
| TypeError.

(** [requestInputStream(name, bodyCallback)] *)
Definition requestInputStream (bodyCallbacks : gmap jsstring (list nat)) (name : jsstring)
  (bodyCallback : option nat) : gmap jsstring (list nat) * list Effect :=
  match bodyCallback with
  | Some callback =>
      match enqueueBodyCallback bodyCallbacks name callback with
      | Some bodyCallbacks' => (bodyCallbacks', [Request name])
      | None => (bodyCallbacks, [TypeError])
      end
  | None => (bodyCallbacks, [Request name])
  end.

(** [onbody(inputStream, mimetype, name)], the default handler *)
Definition onbody (bodyCallbacks : gmap jsstring (list nat)) (name : jsstring) : gmap jsstring (list nat) * list Effect :=
  match dequeueBodyCallback bodyCallbacks name with
  | Some (callback, bodyCallbacks') =>
      (bodyCallbacks',
       match callback with
       | Some c => [Call c name]
       | None => []
       end)
  | None => (bodyCallbacks, [TypeError])
  end.

Inductive Op : Type :=
| RequestInputStream (name : jsstring) (bodyCallback : option nat)
| Body (name : jsstring).

Definition step (bodyCallbacks : gmap jsstring (list nat)) (op : Op) : gmap jsstring (list nat) * list Effect :=
  match op with
  | RequestInputStream name bodyCallback =>
      requestInputStream bodyCallbacks name bodyCallback
  | Body name => onbody bodyCallbacks name
  end.

Fixpoint run (bodyCallbacks : gmap jsstring (list nat)) (ops : list Op) : gmap jsstring (list nat) * list Effect :=
  match ops with
  | [] => (bodyCallbacks, [])
  | op :: rest =>
      let '(b1, effects1) := step bodyCallbacks op in
      let '(b2, effects2) := run b1 rest in
      (b2, effects1 ++ effects2)
  end.

(** The callbacks given with the requests for [name], in order. *)
Fixpoint given (name : jsstring) (ops : list Op) : list nat :=
  match ops with
  | [] => []
  | RequestInputStream n (Some callback) :: rest =>
      if bool_decide (n = name) then callback :: given name rest
      else given name rest
  | _ :: rest => given name rest
  end.

(** The callbacks called for [name], in order. *)
Fixpoint called (name : jsstring) (effects : list Effect) : list nat :=
  match effects with
  | [] => []
  | Call callback n :: rest =>
      if bool_decide (n = name) then callback :: called name rest
      else called name rest
  | _ :: rest => called name rest
  end.

(** The callbacks still waiting for a body of [name]. *)
Definition waiting (bodyCallbacks : gmap jsstring (list nat)) (name : jsstring) : list nat :=
  default [] (bodyCallbacks !! name).

(** No own property of the table has an inherited name. *)
Definition own_names_ordinary (bodyCallbacks : gmap jsstring (list nat))
  : Prop :=
  forall name, name ∈ Object_prototype -> bodyCallbacks !! name = None.

(** ["a"] and ["constructor"], as names of streams. *)
Definition name_a : jsstring := [97].
Definition name_constructor : jsstring := [99; 111; 110; 115; 116; 114; 117; 99; 116; 111; 114].

(** Two requests for [a], a request for [constructor], a body for
    each. *)
Definition example_ops : list Op :=
  [RequestInputStream name_a (Some 1%nat);
   RequestInputStream name_constructor (Some 2%nat);
   RequestInputStream name_a (Some 3%nat);
   Body name_a; Body name_constructor].

End GuacObject.

(** ** Client: the indices of the output streams

    [createFileStream], [createPipeStream], [createClipboardStream] and
    [createObjectOutputStream] take an index from the pool, enter the
    stream in [output_streams] and replace its [sendEnd]; they differ in
    the instruction they send through the tunnel, which does not touch
    the pool or the table and is left out here. *)
Module ClientStreams.

Import JS Client.

(** A client without streams. *)
Definition new : Client.t :=
  {| streams := ∅; stream_indices := IntegerPool.new; output_streams := ∅ |}.

(** [var index = stream_indices.next();
     output_streams[index] = new OutputStream(guac_client, index)]:
    the index of the stream and the client afterwards. *)
Definition createStream (c : Client.t) : jsnum * Client.t :=
  let '(index, pool) := IntegerPool.next (stream_indices c) in
  (index,
   {| streams := streams c; stream_indices := pool;
      output_streams := <[index := mkOutput false]> (output_streams c) |}).

(** The [sendEnd] of the stream created with [index]:
    [old_end(); stream_indices.free(index); delete output_streams[index]]. *)
Definition sendEnd (c : Client.t) (index : jsnum) : Client.t :=
  {| streams := streams c;
     stream_indices := IntegerPool.free (stream_indices c) index;
     output_streams := delete index (output_streams c) |}.

(** [stream.onack = handler], by the consumer, on the stream it was
    given with [index]. *)
Definition set_onack (c : Client.t) (index : jsnum) : Client.t :=
  match output_streams c !! index with
  | Some _ =>
      {| streams := streams c; stream_indices := stream_indices c;
         output_streams := <[index := mkOutput true]> (output_streams c) |}
  | None => c
  end.

(** The calls the consumer makes: it opens a stream, installing an
    [onack] handler on it or not, or it ends the stream it was given
    with [index]. *)
Inductive Call : Type :=
| Create (onack : bool)
| SendEnd (index : jsnum).

Definition call (c : Client.t) (k : Call) : Client.t :=
  match k with
  | Create onack =>
      let '(index, c1) := createStream c in
      if onack then set_onack c1 index else c1
  | SendEnd index => sendEnd c index
  end.

Fixpoint calls (c : Client.t) (ks : list Call) : Client.t :=
  match ks with
  | [] => c
  | k :: rest => calls (call c k) rest
  end.

(** [instructionHandlers["ack"]] when the [onack] handler of the stream,
    if it is called, makes the calls [during] on the client before it
    returns: the handler of the instruction goes on with the client as
    the [onack] handler left it. *)
Definition ack_calling (c : Client.t) (parameters : list jsstring)
  (during : list Call) : Client.t :=
  let stream_index := parseInt_parameter parameters 0 in
  let code := parseInt_parameter parameters 2 in
  match output_streams c !! stream_index with
  | Some stream =>
      let c1 := if onack stream then calls c during else c in
      if JS.ge code (Num 0x0100) then
        {| streams := streams c1;
           stream_indices :=
             IntegerPool.free (stream_indices c1) stream_index;
           output_streams := delete stream_index (output_streams c1) |}
      else c1
  | None => c
  end.

(** What happens to the output streams of a client: the consumer makes
    a call, or the server acknowledges, the [onack] handler making the
    calls [during]. *)
Inductive Op : Type :=
| Do (k : Call)
| Ack (parameters : list jsstring) (during : list Call).

Definition step (c : Client.t) (op : Op) : Client.t :=
  match op with
  | Do k => call c k
  | Ack parameters during => ack_calling c parameters during
  end.

Fixpoint run (c : Client.t) (ops : list Op) : Client.t :=
  match ops with
  | [] => c
  | op :: rest => run (step c op) rest
  end.

(** The consumer calls [sendEnd] only on streams that are in the table:
    not ended before, and not taken out by an acknowledgement. *)
Fixpoint ends_live (c : Client.t) (ks : list Call) : bool :=
  match ks with
  | [] => true
  | k :: rest =>
      match k with
      | SendEnd index => bool_decide (is_Some (output_streams c !! index))
      | Create _ => true
      end && ends_live (call c k) rest
  end.

(** The same along a run, for the calls the [onack] handlers make too;
    and when an [onack] handler called for an error code returns, the
    stream acknowledged is in the table: the handler has not ended
    it. *)
Fixpoint ends_live_streams (c : Client.t) (ops : list Op) : bool :=
  match ops with
  | [] => true
  | op :: rest =>
      match op with
      | Do k => ends_live c [k]
      | Ack parameters during =>
          match output_streams c !! parseInt_parameter parameters 0 with
          | Some stream =>
              negb (onack stream)
              || (ends_live c during
                  && (negb (JS.ge (parseInt_parameter parameters 2)
                              (Num 0x0100))
                      || bool_decide
                           (is_Some (output_streams (calls c during)
                                       !! parseInt_parameter parameters 0))))
          | None => true
          end
      end && ends_live_streams (step c op) rest
  end.

(** The indices in the table and the indices in the pool are the
    integers below [next_int], each in one of the two and the pool
    holding none twice. *)
Definition indices_partition (c : Client.t) : Prop :=
  NoDup (IntegerPool.pool (stream_indices c)) /\
  0 <= IntegerPool.next_int (stream_indices c) /\
  (forall i, i ∈ IntegerPool.pool (stream_indices c) ->
             output_streams c !! i = None) /\
  (forall i,
     (is_Some (output_streams c !! i)
      \/ i ∈ IntegerPool.pool (stream_indices c))
     <-> exists z, i = Num z /\
                   0 <= z < IntegerPool.next_int (stream_indices c)).

(** Two streams with [onack] handlers; the first is acknowledged with
    the error code 512, its handler opening another stream; the second
    is acknowledged with code 0, its handler ending it; a last stream is
    opened. *)
Definition example_run : list Op :=
  [Do (Create true); Do (Create true);
   Ack [[48]; [120]; [53; 49; 50]] [Create false];
   Ack [[49]; [120]; [48]] [SendEnd (Num 1)];
   Do (Create false)].

End ClientStreams.

(** ** The status of a tunnel that is closed from outside *)
Module TunnelErrors.

Import JS.

(** [socket.onclose(event)] of the WebSocket tunnel:
    [close_tunnel(new Status(parseInt(event.reason), event.reason))]. *)
Definition onclose (tunnel : WebSocketTunnel.t) (reason : jsstring)
  : WebSocketTunnel.t * list WebSocketTunnel.Event :=
  WebSocketTunnel.close_tunnel tunnel
    (Status.mk (parseInt reason) (Some reason)).

End TunnelErrors.


(** ** The Parser after an illegal terminator *)
Module ParserErrors.

Import JS Parser.

(** [parser.receive(packet)] for each packet in turn, by a caller that
    catches what is thrown and goes on: the result of every call. *)
Fixpoint receive_each (p : Parser.t) (packets : list jsstring)
  : list (option Result) :=
  match packets with
  | [] => []
  | packet :: rest =>
      match receive p packet with
      | Some r => Some r :: receive_each (parser r) rest
      | None => [None]
      end
  end.

(** The call threw "Illegal terminator." and handed on nothing. *)
Definition threw_illegal_terminator (r : option Result) : Prop :=
  exists res,
    r = Some res /\ completion res = Threw IllegalTerminator /\
    emitted res = [].

(** The parser stands before the complete element [value], which is
    followed by [terminator]. *)
Definition before_element (p : Parser.t) (value : jsstring)
  (terminator : Z) : Prop :=
  exists pre post,
    buffer p = pre ++ value ++ terminator :: post /\
    start_index p = strlen pre /\
    element_end p = Num (strlen pre + strlen value).

End ParserErrors.
(** * Properties *)

(** ** Facts about the JavaScript primitives *)
Section JSFacts.

Lemma digits_of_spec (fuel : nat) :
  forall n acc, 0 <= n < Z.of_nat fuel ->
    exists ds, digits_of fuel n acc = ds ++ acc /\ ds <> [] /\
      Forall is_decimal ds /\
      forall v, fold_left (fun a c => a * 10 + (c - 48)) ds v
                = v * 10 ^ Z.of_nat (length ds) + n.
Proof.
  induction fuel as [|fuel IH]; intros n acc Hn; [lia|].
  cbn [digits_of].
  pose proof (Z.mod_pos_bound n 10 ltac:(lia)) as Hm.
  pose proof (Z.div_mod n 10 ltac:(lia)) as Hd.
  destruct (Z.eqb_spec (n / 10) 0) as [Hz|Hz].
  - exists [48 + n mod 10]. repeat split.
    + discriminate.
    + constructor; [unfold is_decimal; lia | constructor].
    + intros v. cbn. lia.
  - assert (0 < n / 10) by (pose proof (Z.div_pos n 10); lia).
    destruct (IH (n / 10) ((48 + n mod 10) :: acc)) as (ds & E & Hne & Hall & Hv);
      [lia|].
    exists (ds ++ [48 + n mod 10]). repeat split.
    + by rewrite E, <- app_assoc.
    + destruct ds; discriminate.
    + apply Forall_app; split; [done|].
      constructor; [unfold is_decimal; lia | constructor].
    + intros v. rewrite fold_left_app, Hv. cbn.
      rewrite length_app. cbn [length].
      replace (Z.of_nat (length ds + 1)) with (Z.succ (Z.of_nat (length ds))) by lia.
      rewrite Z.pow_succ_r by lia. lia.
Qed.

Lemma number_toString_spec (n : Z) :
  0 <= n ->
  number_toString n <> [] /\ Forall is_decimal (number_toString n) /\
  fold_left (fun a c => a * 10 + (c - 48)) (number_toString n) 0 = n.
Proof.
  intros Hn. unfold number_toString.
  destruct (digits_of_spec (S (Z.to_nat n)) n []) as (ds & E & Hne & Hall & Hv);
    [lia|].
  rewrite E, app_nil_r. split; [done | split; [done | rewrite Hv; lia]].
Qed.

Lemma digitValue_decimal (c : Z) :
  is_decimal c -> digitValue 10 c = Some (c - 48).
Proof.
  unfold is_decimal, digitValue. intros H.
  destruct (Z.leb_spec 48 c), (Z.leb_spec c 57); try lia. cbn.
  destruct (Z.ltb_spec (c - 48) 10); [done | lia].
Qed.

Lemma digitPrefix_decimal (ds : jsstring) :
  Forall is_decimal ds -> digitPrefix 10 ds = map (fun c => c - 48) ds.
Proof.
  induction 1 as [|c ds Hc _ IH]; [done|].
  cbn [digitPrefix]. rewrite digitValue_decimal by done. by rewrite IH.
Qed.

Lemma digitsValue_map (ds : jsstring) (v : Z) :
  fold_left (fun a d => a * 10 + d) (map (fun c => c - 48) ds) v
  = fold_left (fun a c => a * 10 + (c - 48)) ds v.
Proof. revert v. induction ds as [|c ds IH]; intros v; cbn; [done | apply IH]. Qed.

Lemma parseInt_decimal (ds : jsstring) :
  ds <> [] -> Forall is_decimal ds ->
  parseInt ds = Num (fold_left (fun a c => a * 10 + (c - 48)) ds 0).
Proof.
  intros Hne Hall. destruct ds as [|c ds]; [done|].
  pose proof (Forall_inv Hall) as Hc. unfold is_decimal in Hc.
  unfold parseInt. cbn [skipWhiteSpace].
  assert (isWhiteSpace c = false) as ->.
  { unfold isWhiteSpace.
    rewrite !(proj2 (Z.eqb_neq c _)) by lia.
    by rewrite (proj2 (Z.leb_gt 8192 c)) by lia. }
  destruct (Z.eqb_spec c 45); [lia|]. destruct (Z.eqb_spec c 43); [lia|].
  assert (digitPrefix 10 (c :: ds) = map (fun c => c - 48) (c :: ds)) as Hp
    by (by apply digitPrefix_decimal).
  assert (1 * digitsValue 10 (map (fun c => c - 48) (c :: ds))
          = fold_left (fun a c0 => a * 10 + (c0 - 48)) (c :: ds) 0) as Hv.
  { unfold digitsValue. rewrite (digitsValue_map (c :: ds)). lia. }
  destruct ds as [|c1 r].
  - lazy beta iota. rewrite Hp. cbn [map]. f_equal. exact Hv.
  - pose proof (Forall_inv (Forall_inv_tail Hall)) as Hc1.
    unfold is_decimal in Hc1.
    destruct (Z.eqb_spec c1 120); [lia|]. destruct (Z.eqb_spec c1 88); [lia|].
    rewrite andb_false_r. lazy beta iota. rewrite Hp. cbn [map]. f_equal.
    exact Hv.
Qed.

Lemma parseInt_number_toString (n : Z) :
  0 <= n -> parseInt (number_toString n) = Num n.
Proof.
  intros Hn. destruct (number_toString_spec n Hn) as (Hne & Hall & Hv).
  by rewrite parseInt_decimal, Hv.
Qed.

End JSFacts.

(** ** Facts about strings *)
Section StringFacts.

Lemma strlen_app (a b : jsstring) : strlen (a ++ b) = strlen a + strlen b.
Proof. unfold strlen. rewrite length_app. lia. Qed.

Lemma strlen_cons (c : Z) (s : jsstring) : strlen (c :: s) = 1 + strlen s.
Proof. unfold strlen. cbn [length]. lia. Qed.

Lemma strlen_nonneg (s : jsstring) : 0 <= strlen s.
Proof. unfold strlen. lia. Qed.

Lemma clamp_id (z len : Z) : 0 <= z <= len -> clamp z len = z.
Proof. unfold clamp. lia. Qed.

Lemma substring_app_mid (pre mid post : jsstring) :
  substring (pre ++ mid ++ post) (Num (strlen pre))
    (Num (strlen pre + strlen mid)) = mid.
Proof.
  unfold substring. cbn [ToInteger].
  pose proof (strlen_nonneg pre). pose proof (strlen_nonneg mid).
  pose proof (strlen_nonneg post).
  rewrite !clamp_id by (rewrite !strlen_app; lia).
  rewrite Z.min_l, Z.max_r by lia.
  replace (Z.to_nat (strlen pre)) with (length pre) by (unfold strlen; lia).
  replace (Z.to_nat (strlen pre + strlen mid - strlen pre))
    with (length mid) by (unfold strlen; lia).
  rewrite drop_app_length. by rewrite take_app_length.
Qed.

Lemma find_char_app (c : Z) (mid post : jsstring) (i : Z) :
  Forall (fun x => x <> c) mid ->
  find_char c (mid ++ c :: post) i = i + strlen mid.
Proof.
  intros H. revert i. induction H as [|x mid Hx _ IH]; intros i.
  - cbn. rewrite Z.eqb_refl. unfold strlen. cbn. lia.
  - cbn [app find_char]. destruct (Z.eqb_spec x c); [done|].
    rewrite IH, strlen_cons. lia.
Qed.

Lemma indexOf_app (c : Z) (pre mid post : jsstring) :
  Forall (fun x => x <> c) mid ->
  indexOf (pre ++ mid ++ c :: post) c (strlen pre) = strlen pre + strlen mid.
Proof.
  intros H. unfold indexOf.
  pose proof (strlen_nonneg pre). pose proof (strlen_nonneg mid).
  pose proof (strlen_nonneg post).
  rewrite clamp_id by (rewrite !strlen_app, strlen_cons; lia).
  replace (Z.to_nat (strlen pre)) with (length pre) by (unfold strlen; lia).
  rewrite drop_app_length. by apply find_char_app.
Qed.

Lemma indexOf_end (c : Z) (s : jsstring) : indexOf s c (strlen s) = -1.
Proof.
  unfold indexOf. pose proof (strlen_nonneg s).
  rewrite clamp_id by lia.
  replace (Z.to_nat (strlen s)) with (length s) by (unfold strlen; lia).
  by rewrite drop_all.
Qed.

Lemma decimal_not_dot (ds : jsstring) :
  Forall is_decimal ds -> Forall (fun x => x <> DOT) ds.
Proof.
  intros H. eapply List.Forall_impl; [|exact H].
  unfold is_decimal, DOT. intros c Hc. lia.
Qed.

End StringFacts.

(** ** The framing written by [sendMessage] and read by [Parser.receive] *)
Section Framing.

Import Codec Parser.

Lemma append_elements_wire (message : jsstring) (rest : list jsstring) :
  append_elements message rest ++ [SEMICOLON] = message ++ wire_tail rest.
Proof.
  revert message. induction rest as [|e rest IH]; intros message; [done|].
  cbn [append_elements wire_tail]. rewrite IH.
  by rewrite <- app_assoc.
Qed.

Lemma sendMessage_wire (first : jsstring) (rest : list jsstring) :
  sendMessage Tunnel.OPEN (first :: rest)
  = Some (getElement first ++ wire_tail rest).
Proof. unfold sendMessage. cbn. by rewrite append_elements_wire. Qed.

Lemma wire_tail_length (rest : list jsstring) :
  (length rest < length (wire_tail rest))%nat.
Proof.
  induction rest as [|e rest IH]; cbn [wire_tail length]; [lia|].
  rewrite length_app. lia.
Qed.

Lemma substring_terminator (pre body post : jsstring) (c : Z) :
  substring (pre ++ body ++ c :: post) (Num (strlen pre + strlen body))
    (Num (strlen pre + strlen body + 1)) = [c].
Proof.
  rewrite (app_assoc pre body), <- (strlen_app pre body).
  change (c :: post) with ([c] ++ post).
  change 1 with (strlen [c]). apply substring_app_mid.
Qed.

Lemma take_element_semicolon (p : Parser.t) (out : list Instruction)
  (pre body post : jsstring) :
  buffer p = pre ++ body ++ SEMICOLON :: post ->
  start_index p = strlen pre ->
  element_end p = Num (strlen pre + strlen body) ->
  oninstruction p = true ->
  take_element p out
  = inl ({| buffer := buffer p; element_buffer := [];
            element_end := element_end p;
            start_index := strlen pre + strlen body + 1;
            oninstruction := true |},
         out ++ [(hd [] (element_buffer p ++ [body]),
                  tl (element_buffer p ++ [body]))]).
Proof.
  intros Hb Hs He Ho. unfold take_element. rewrite Hb, Hs, He, Ho.
  cbn [JS.ge JS.add ToInteger]. pose proof (strlen_nonneg body).
  rewrite (proj2 (Z.leb_le _ _)) by lia.
  rewrite substring_app_mid, substring_terminator.
  by rewrite bool_decide_eq_true_2.
Qed.

Lemma take_element_comma (p : Parser.t) (out : list Instruction)
  (pre body post : jsstring) :
  buffer p = pre ++ body ++ COMMA :: post ->
  start_index p = strlen pre ->
  element_end p = Num (strlen pre + strlen body) ->
  take_element p out
  = inl ({| buffer := buffer p; element_buffer := element_buffer p ++ [body];
            element_end := element_end p;
            start_index := strlen pre + strlen body + 1;
            oninstruction := oninstruction p |}, out).
Proof.
  intros Hb Hs He. unfold take_element. rewrite Hb, Hs, He.
  cbn [JS.ge JS.add ToInteger]. pose proof (strlen_nonneg body).
  rewrite (proj2 (Z.leb_le _ _)) by lia.
  rewrite substring_app_mid, substring_terminator.
  rewrite bool_decide_eq_false_2 by discriminate.
  by rewrite bool_decide_eq_false_2 by (intros Hc; by apply Hc).
Qed.

Lemma read_length_element (p : Parser.t) (pre value post : jsstring)
  (ee : Z) :
  buffer p = pre ++ getElement value ++ post ->
  start_index p = strlen pre ->
  element_end p = Num ee -> ee + 1 = strlen pre ->
  read_length p
  = inl {| buffer := buffer p; element_buffer := element_buffer p;
           element_end :=
             Num (strlen pre + strlen (number_toString (strlen value)) + 1
                  + strlen value);
           start_index :=
             strlen pre + strlen (number_toString (strlen value)) + 1;
           oninstruction := oninstruction p |}.
Proof.
  intros Hb Hs He Hee. unfold read_length, getElement in *.
  rewrite Hb, Hs, He. rewrite <- !app_assoc. cbn [app JS.add].
  destruct (number_toString_spec (strlen value) (strlen_nonneg value))
    as (_ & Hdec & _).
  rewrite indexOf_app by (by apply decimal_not_dot).
  pose proof (strlen_nonneg pre).
  pose proof (strlen_nonneg (number_toString (strlen value))).
  rewrite (proj2 (Z.eqb_neq _ _)) by lia. cbn [negb].
  rewrite Hee, substring_app_mid.
  rewrite parseInt_number_toString by apply strlen_nonneg.
  cbn [JS.eq JS.add]. do 2 f_equal; lia.
Qed.

Lemma read_length_at_end (p : Parser.t) :
  start_index p = strlen (buffer p) ->
  read_length p
  = inr ({| buffer := buffer p; element_buffer := element_buffer p;
            element_end := element_end p; start_index := strlen (buffer p);
            oninstruction := oninstruction p |}, Returned).
Proof. intros Hs. unfold read_length. by rewrite Hs, indexOf_end. Qed.

(** The loop, entered when the length of an element was just read: the
    body of the element and the elements after it complete the
    instruction. *)
Lemma parse_loop_elements (rest : list jsstring) :
  forall (fuel : nat) (pre body : jsstring) (eb : list jsstring)
         (out : list Instruction),
    (length rest < fuel)%nat ->
    parse_loop fuel
      {| buffer := pre ++ body ++ wire_tail rest; element_buffer := eb;
         element_end := Num (strlen pre + strlen body);
         start_index := strlen pre; oninstruction := true |} out
    = Some
        {| parser := consumed (pre ++ body ++ wire_tail rest);
           emitted := out ++ [(hd [] (eb ++ body :: rest),
                               tl (eb ++ body :: rest))];
           completion := Returned |}.
Proof.
  induction rest as [|e rest IH]; intros fuel pre body eb out Hfuel;
    (destruct fuel as [|fuel]; [cbn in Hfuel; lia|]);
    pose proof (strlen_nonneg pre) as Hpre;
    pose proof (strlen_nonneg body) as Hbody;
    cbn [parse_loop Parser.buffer Parser.element_end JS.lt].
  - rewrite (proj2 (Z.ltb_lt _ _))
      by (unfold strlen; rewrite !length_app; cbn [wire_tail length]; lia).
    cbn [wire_tail].
    rewrite (take_element_semicolon _ out pre body []) by done.
    rewrite read_length_at_end.
    2:{ cbn [Parser.buffer Parser.start_index].
        rewrite !strlen_app, strlen_cons. change (strlen []) with 0. lia. }
    cbn [Parser.buffer Parser.element_buffer Parser.element_end
         Parser.oninstruction].
    unfold consumed. 
    rewrite !strlen_app, strlen_cons. change (strlen []) with 0.
    replace (strlen pre + (strlen body + (1 + 0)) - 1)
      with (strlen pre + strlen body) by lia.
    replace (strlen pre + (strlen body + (1 + 0)))
      with (strlen pre + strlen body + 1) by lia.
    reflexivity.
  - rewrite (proj2 (Z.ltb_lt _ _))
      by (unfold strlen; rewrite !length_app; cbn [wire_tail length]; lia).
    cbn [wire_tail].
    rewrite (take_element_comma _ out pre body
               (getElement e ++ wire_tail rest)) by done.
    cbn [Parser.buffer Parser.element_buffer Parser.element_end
         Parser.oninstruction].
    rewrite (read_length_element _ (pre ++ body ++ [COMMA]) e
               (wire_tail rest) (strlen pre + strlen body)).
    2:{ cbn [Parser.buffer]. by rewrite <- !app_assoc. }
    2:{ cbn [Parser.start_index]. rewrite !strlen_app.
        change (strlen [COMMA]) with 1. lia. }
    2:{ done. }
    2:{ rewrite !strlen_app. change (strlen [COMMA]) with 1. lia. }
    cbn [Parser.buffer Parser.element_buffer Parser.oninstruction].
    specialize (IH fuel
                  ((pre ++ body ++ [COMMA])
                     ++ number_toString (strlen e) ++ [DOT])
                  e (eb ++ [body]) out ltac:(cbn in Hfuel; lia)).
    assert (pre ++ body ++ COMMA :: getElement e ++ wire_tail rest
            = ((pre ++ body ++ [COMMA]) ++ number_toString (strlen e)
                 ++ [DOT]) ++ e ++ wire_tail rest) as Ebuf
      by (unfold getElement; rewrite <- !app_assoc; done).
    rewrite Ebuf. rewrite <- (app_assoc eb [body]) in IH. cbn [app] in IH.
    rewrite <- IH.
    replace (strlen ((pre ++ body ++ [COMMA])
                       ++ number_toString (strlen e) ++ [DOT]))
      with (strlen (pre ++ body ++ [COMMA])
            + strlen (number_toString (strlen e)) + 1)
      by (rewrite !strlen_app; change (strlen [DOT]) with 1; lia).
    reflexivity.
Qed.

(** Receiving one whole message with a fresh parser. *)
Lemma receive_message (opcode : jsstring) (elements : list jsstring) :
  receive (set_oninstruction Parser.new)
    (getElement opcode ++ wire_tail elements)
  = Some {| parser := consumed (getElement opcode ++ wire_tail elements);
            emitted := [(opcode, elements)];
            completion := Returned |}.
Proof.
  unfold receive, truncate, append, set_oninstruction, Parser.new.
  cbn [Parser.buffer Parser.element_buffer Parser.element_end
       Parser.start_index Parser.oninstruction JS.ge andb Z.ltb Z.compare app].
  set (buf := getElement opcode ++ wire_tail elements).
  replace (length buf + 2)%nat with (S (S (length buf))) by lia.
  set (fuel := S (length buf)).
  cbn [parse_loop Parser.buffer Parser.element_end JS.lt].
  pose proof (strlen_nonneg buf).
  rewrite (proj2 (Z.ltb_lt _ _)) by lia.
  unfold take_element.
  cbn [Parser.element_end Parser.start_index JS.ge].
  change (0 <=? -1) with false. cbv iota.
  rewrite (read_length_element _ [] opcode (wire_tail elements) (-1));
    [|done|done|done|done].
  cbn [Parser.buffer Parser.element_buffer Parser.oninstruction].
  change (strlen []) with 0.
  pose proof (parse_loop_elements elements fuel
                (number_toString (strlen opcode) ++ [DOT]) opcode [] []) as L.
  assert (buf = (number_toString (strlen opcode) ++ [DOT]) ++ opcode
                  ++ wire_tail elements) as Ebuf
    by (subst buf; unfold getElement; rewrite <- !app_assoc; done).
  rewrite <- Ebuf in L. cbn [app hd tail] in L.
  replace (strlen (number_toString (strlen opcode) ++ [DOT]))
    with (0 + strlen (number_toString (strlen opcode)) + 1) in L
    by (rewrite !strlen_app; change (strlen [DOT]) with 1; lia).
  apply L. subst fuel buf. rewrite length_app.
  pose proof (wire_tail_length elements). lia.
Qed.

End Framing.

(** C1. Framing round trip: the message [sendMessage] builds from an
    opcode and its elements, each rendered as [len.value], separated by
    commas and closed by a semicolon, makes a fresh parser emit exactly
    one instruction, with that opcode and those elements, code unit for
    code unit. *)
Theorem framing_round_trip (opcode : jsstring) (elements : list jsstring) :
  exists message,
    Codec.sendMessage Tunnel.OPEN (opcode :: elements) = Some message /\
    Parser.receive (Parser.set_oninstruction Parser.new) message
    = Some {| Parser.parser := Parser.consumed message;
              Parser.emitted := [(opcode, elements)];
              Parser.completion := Parser.Returned |}.
Proof.
  exists (Codec.getElement opcode ++ Codec.wire_tail elements). split.
  - apply sendMessage_wire.
  - apply receive_message.
Qed.

(** ** The length prefix *)
Section LengthPrefix.

(** C2, as the spec states it, fails: the one-character string U+4E16 has
    three UTF-8 bytes, and is framed as [1.] followed by the character,
    not as [3.] followed by it. *)
Lemma length_prefix_is_not_utf8_length :
  StringWriter.utf8_length [0x4E16] = 3 /\
  Codec.sendMessage Tunnel.OPEN [[0x4E16]] = Some [49; 46; 0x4E16; 59] /\
  Codec.getElement [0x4E16]
  <> number_toString (StringWriter.utf8_length [0x4E16]) ++ DOT :: [0x4E16].
Proof. split; [|split]; [reflexivity | reflexivity | discriminate]. Qed.

(** C2, amended: the length written before the dot is the number of
    UTF-16 code units of the element, the [length] of the string;
    U+4E16 is framed as [1.] followed by the character. *)
Theorem length_prefix_is_string_length :
  (forall value : jsstring,
     exists len,
       Codec.getElement value = len ++ DOT :: value /\
       Forall is_decimal len /\
       parseInt len = Num (Z.of_nat (length value))) /\
  Codec.getElement [0x4E16] = [49; 46; 0x4E16].
Proof.
  split; [|reflexivity].
  intros value. exists (number_toString (strlen value)).
  destruct (number_toString_spec (strlen value) (strlen_nonneg value))
    as (_ & Hdec & _).
  split; [reflexivity | split; [exact Hdec|]].
  apply parseInt_number_toString, strlen_nonneg.
Qed.

End LengthPrefix.

(** ** Malformed lengths *)
Section MalformedLength.

Import Parser.

Lemma eq_NaN (x : jsnum) : JS.eq x NaN = false.
Proof. by destruct x. Qed.

Lemma read_length_completion (p p' : Parser.t) (c : Completion) :
  read_length p = inr (p', c) -> c = Returned.
Proof.
  unfold read_length. rewrite eq_NaN.
  destruct (negb _); intros H; by inversion H.
Qed.

(** The test [length == NaN] never holds, so no call of [receive] ends
    with the error for a non-numeric length. *)
Lemma receive_never_reports_length (p : Parser.t) (packet : jsstring)
  (r : Result) :
  receive p packet = Some r -> completion r <> Threw NonNumericLength.
Proof.
  unfold receive.
  generalize (length (buffer (append (truncate p) packet)) + 2)%nat.
  generalize (append (truncate p) packet).
  generalize (@nil Instruction).
  intros out q fuel. revert q out.
  induction fuel as [|fuel IH]; intros q out; cbn [parse_loop]; [done|].
  destruct (JS.lt _ _); [|intros [= <-]; done].
  destruct (take_element q out) as [[q1 out1]|[q1 out1]];
    [|intros [= <-]; done].
  destruct (read_length q1) as [q2|[q2 c]] eqn:E; [apply IH|].
  intros [= <-]. cbn. by rewrite (read_length_completion _ _ _ E).
Qed.

(** C7 at two inputs with a non-digit before the dot.  For [a.b;] the
    length is NaN: [receive] returns without an error and without an
    instruction, and the parser is left with [element_end] NaN.  For
    [1x.b;] the length is read as 1 and the instruction [b] is emitted. *)
Theorem receive_non_digit_length :
  receive (set_oninstruction Parser.new) [97; 46; 98; 59]
  = Some {| parser := {| buffer := [97; 46; 98; 59]; element_buffer := [];
                         element_end := NaN; start_index := 2;
                         oninstruction := true |};
            emitted := []; completion := Returned |} /\
  receive (set_oninstruction Parser.new) [49; 120; 46; 98; 59]
  = Some {| parser := consumed [49; 120; 46; 98; 59];
            emitted := [([98], [])]; completion := Returned |}.
Proof. split; reflexivity. Qed.

(** Once [element_end] is NaN the loop is never entered again: every
    later packet is appended to the buffer and nothing is emitted. *)
Lemma receive_stuck (p : Parser.t) (packet : jsstring) :
  element_end p = NaN ->
  receive p packet
  = Some {| parser := append p packet; emitted := [];
            completion := Returned |}.
Proof.
  intros H. unfold receive, truncate. rewrite H. cbn [JS.ge].
  rewrite andb_false_r.
  replace (length (buffer (append p packet)) + 2)%nat
    with (S (S (length (buffer (append p packet))))) by lia.
  cbn [parse_loop]. unfold append at 1. cbn [element_end]. by rewrite H.
Qed.

End MalformedLength.

(** ** ArrayBufferWriter: the blobs of [sendData] *)
Section Blobs.

Import ArrayBufferWriter.

(** A payload that fits is sent as it is, in one blob. *)
Lemma sendData_blobs_small {A : Type} (bytes : list A) :
  Z.of_nat (length bytes) <= 8064 -> sendData_blobs bytes = [bytes].
Proof.
  intros H. unfold sendData_blobs. by rewrite (proj2 (Z.leb_le _ _)).
Qed.

(** A payload that does not fit: the first blob is cut at 8094 bytes, not
    at 8064. *)
Lemma sendData_blobs_first {A : Type} (bytes : list A) :
  8064 < Z.of_nat (length bytes) ->
  exists rest, sendData_blobs bytes = take (Z.to_nat 8094) bytes :: rest.
Proof.
  intros H. unfold sendData_blobs. rewrite (proj2 (Z.leb_gt _ _)) by lia.
  destruct bytes as [|b bytes]; [cbn in H; lia|].
  cbn [length send_loop]. rewrite (proj2 (Z.ltb_lt _ _)) by lia.
  eexists. f_equal.
Qed.

(** C5 at payloads of 8065 and of 20000 bytes.  The loop advances by
    8064 but cuts [subarray(offset, offset + 8094)]: the first blob of
    the 8065-byte payload carries all 8065 bytes and the second repeats
    the last one; the 20000 bytes go out as blobs of 8094, 8094 and 3872
    bytes, 20060 bytes in all. *)
Theorem sendData_blobs_overlap :
  map strlen (sendData_blobs (payload 8065)) = [8065; 1] /\
  concat (sendData_blobs (payload 8065)) <> payload 8065 /\
  map strlen (sendData_blobs (payload 20000)) = [8094; 8094; 3872] /\
  concat (sendData_blobs (payload 20000)) <> payload 20000.
Proof.
  assert (strlen (concat (sendData_blobs (payload 8065))) = 8066) as L1
    by (vm_compute; reflexivity).
  assert (strlen (payload 8065) = 8065) as P1 by (vm_compute; reflexivity).
  assert (strlen (concat (sendData_blobs (payload 20000))) = 20060) as L2
    by (vm_compute; reflexivity).
  assert (strlen (payload 20000) = 20000) as P2 by (vm_compute; reflexivity).
  split; [vm_compute; reflexivity|].
  split; [intros H; rewrite H in L1; lia|].
  split; [vm_compute; reflexivity|].
  intros H; rewrite H in L2; lia.
Qed.

End Blobs.

(** ** HTTPTunnel: closing never happens *)
Section HTTPClose.

Import HTTPTunnel.

Lemma step_never_closes (tunnel : HTTPTunnel.t) (i : Input) :
  state tunnel <> Tunnel.CLOSED ->
  state (fst (step tunnel i)) <> Tunnel.CLOSED /\
  (forall status, OnError status ∉ snd (step tunnel i)) /\
  OnStateChange Tunnel.CLOSED ∉ snd (step tunnel i).
Proof.
  intros Hs.
  assert (forall e, e <> ReferenceError ->
                    e ∉ snd (tunnel, [ReferenceError])) as Hthrow.
  { intros e He H%list_elem_of_singleton. by destruct He. }
  destruct i as [status code message|status code message|code message| |];
    cbn [step];
    try (split; [exact Hs|]; split; [intros s|]; by apply Hthrow).
  - unfold connect_answered. destruct (negb (status =? 200));
      [split; [exact Hs|]; split; [intros s|]; by apply Hthrow|].
    cbn [fst snd state]. split; [done|].
    split; [intros s|]; destruct (onstatechange tunnel);
      try apply not_elem_of_nil; by intros H%list_elem_of_singleton.
  - unfold read_answered.
    destruct (bool_decide _);
      [split; [exact Hs|]; split; [intros s|]; apply not_elem_of_nil|].
    destruct (status =? 0);
      [split; [exact Hs|]; split; [intros s|]; by apply Hthrow|].
    destruct (negb (status =? 200));
      [split; [exact Hs|]; split; [intros s|]; by apply Hthrow|].
    split; [exact Hs|]; split; [intros s|]; apply not_elem_of_nil.
Qed.

(** Whatever happens to a new tunnel, it is never CLOSED, [onerror] is
    never called and [onstatechange] is never called with CLOSED. *)
Lemma run_never_closes (inputs : list Input) :
  forall tunnel : HTTPTunnel.t,
    state tunnel <> Tunnel.CLOSED ->
    state (fst (run tunnel inputs)) <> Tunnel.CLOSED /\
    (forall status, OnError status ∉ snd (run tunnel inputs)) /\
    OnStateChange Tunnel.CLOSED ∉ snd (run tunnel inputs).
Proof.
  induction inputs as [|i rest IH]; intros tunnel Hs.
  { split; [exact Hs|]. split; [intros s|]; apply not_elem_of_nil. }
  cbn [run]. destruct (step_never_closes tunnel i Hs) as (H1 & H2 & H3).
  destruct (step tunnel i) as [tunnel1 events1]. cbn [fst snd] in *.
  destruct (IH tunnel1 H1) as (H4 & H5 & H6).
  destruct (run tunnel1 rest) as [tunnel2 events2]. cbn [fst snd] in *.
  split; [exact H4|].
  split.
  - intros s [H|H]%elem_of_app; [by apply (H2 s) | by apply (H5 s)].
  - intros [H|H]%elem_of_app; [by apply H3 | by apply H6].
Qed.

(** C8 on the code.  A tunnel that is CONNECTING and whose connect
    request is answered with a status other than 200, here 404 with the
    status code RESOURCE_NOT_FOUND in its header, throws a
    ReferenceError at [new Status]: [onerror] is not called, the state
    stays CONNECTING and [onstatechange] is not called.  The same
    happens to an open tunnel whose read or write request fails or
    which the consumer disconnects, and [close_tunnel] itself, entered
    with any status on a tunnel that is not closed, throws at
    [Status.Code.SUCCESS] before it calls a handler or writes the
    state.  Whatever happens to a new tunnel, it never becomes
    CLOSED and never calls [onerror]. *)
Theorem close_tunnel_never_reports (sending oe os : bool)
  (code message : option jsstring) (status : Status.t)
  (inputs : list Input) :
  let connecting := HTTPTunnel.mk Tunnel.CONNECTING sending oe os in
  let opened := HTTPTunnel.mk Tunnel.OPEN sending oe os in
  step connecting (ConnectAnswered 404 (Some header_516) message)
  = (connecting, [ReferenceError]) /\
  step opened (ReadAnswered 404 code message) = (opened, [ReferenceError]) /\
  step opened (WriteFailed code message) = (opened, [ReferenceError]) /\
  step opened Disconnect = (opened, [ReferenceError]) /\
  close_tunnel connecting status = (connecting, [ReferenceError]) /\
  close_tunnel opened status = (opened, [ReferenceError]) /\
  state (fst (run (HTTPTunnel.new oe os) inputs)) <> Tunnel.CLOSED /\
  (forall e, OnError e ∉ snd (run (HTTPTunnel.new oe os) inputs)) /\
  OnStateChange Tunnel.CLOSED ∉ snd (run (HTTPTunnel.new oe os) inputs).
Proof.
  intros connecting opened. repeat (split; [reflexivity|]).
  by apply run_never_closes.
Qed.

End HTTPClose.

(** ** Client: the stream instructions *)
Section Streams.

Import Client.

(** What [ack] does for a live output stream. *)
Lemma ack_live (c : Client.t) (parameters : list jsstring)
  (stream : OutputStream) :
  output_streams c !! parseInt_parameter parameters 0 = Some stream ->
  ack c parameters
  = (if JS.ge (parseInt_parameter parameters 2) (Num 0x0100) then
       {| streams := streams c;
          stream_indices :=
            IntegerPool.free (stream_indices c)
              (parseInt_parameter parameters 0);
          output_streams :=
            delete (parseInt_parameter parameters 0) (output_streams c) |}
     else c,
     if onack stream then
       [OnAck (parseInt_parameter parameters 0)
          (Status.mk (parseInt_parameter parameters 2)
             (parameter parameters 1))]
     else []).
Proof. intros H. unfold ack. rewrite H. by destruct (JS.ge _ _). Qed.

(** For the codes that are not negative the test of [ack] and
    [Status.isError] agree. *)
Lemma ack_test_isError (code : jsnum) (message : option jsstring) :
  (forall z, code = Num z -> 0 <= z) ->
  JS.ge code (Num 0x0100) = Status.isError (Status.mk code message).
Proof.
  intros H. unfold Status.isError. cbn [Status.code].
  destruct code as [z|]; [|reflexivity].
  specialize (H z eq_refl). cbn [JS.ge JS.lt JS.gt].
  destruct (Z.leb_spec 256 z), (Z.ltb_spec z 0), (Z.ltb_spec 255 z);
    cbn; lia || reflexivity.
Qed.

(** With a negative code the stream stays in the table and its index is
    not freed, although the status is an error. *)
Lemma ack_negative_code (c : Client.t) (parameters : list jsstring)
  (stream : OutputStream) (z : Z) :
  output_streams c !! parseInt_parameter parameters 0 = Some stream ->
  parseInt_parameter parameters 2 = Num z -> z < 0 ->
  fst (ack c parameters) = c /\
  Status.isError (Status.mk (Num z) (parameter parameters 1)) = true.
Proof.
  intros H Hz Hneg. rewrite (ack_live _ _ _ H), Hz. cbn [JS.ge fst].
  rewrite (proj2 (Z.leb_gt _ _)) by lia. split; [reflexivity|].
  unfold Status.isError. cbn. by rewrite (proj2 (Z.ltb_lt _ _)) by lia.
Qed.

(** C6 at the instruction [ack 0 x -1] for the live output stream 0:
    [onack] is called with the status -1, which is an error, and the
    stream stays in the table, its index not freed. *)
Theorem ack_negative_code_keeps_stream :
  ack one_output_stream [[48]; [120]; [45; 49]]
  = (one_output_stream,
     [OnAck (Num 0) (Status.mk (Num (-1)) (Some [120]))]) /\
  Status.isError (Status.mk (Num (-1)) (Some [120])) = true /\
  output_streams (fst (ack one_output_stream [[48]; [120]; [45; 49]]))
    !! Num 0 = Some (mkOutput true) /\
  IntegerPool.pool
    (stream_indices (fst (ack one_output_stream [[48]; [120]; [45; 49]])))
  = [].
Proof.
  assert (ack one_output_stream [[48]; [120]; [45; 49]]
          = (one_output_stream,
             [OnAck (Num 0) (Status.mk (Num (-1)) (Some [120]))])) as E.
  { rewrite (ack_live _ _ (mkOutput true)); [reflexivity|].
    apply lookup_singleton_eq. }
  rewrite E. repeat split; apply lookup_singleton_eq.
Qed.

(** C10. A [blob], [end] or [ack] instruction whose index is not in the
    table its handler reads calls no handler and leaves the stream
    tables and the index pool as they are. *)
Theorem dispatch_unknown_stream (c : Client.t) (opcode : StreamOpcode)
  (parameters : list jsstring) :
  live c opcode (parseInt_parameter parameters 0) = false ->
  dispatch c opcode parameters = (c, []).
Proof.
  unfold live, dispatch, ack, blob, end_.
  destruct opcode; intros H; apply bool_decide_eq_false in H;
    apply eq_None_not_Some in H; by rewrite H.
Qed.

(** An instance: a [blob] for stream 0 when no input stream exists. *)
Lemma dispatch_unknown_stream_witness :
  live one_output_stream Blob (parseInt_parameter [[48]; [65]] 0) = false /\
  dispatch one_output_stream Blob [[48]; [65]] = (one_output_stream, []).
Proof.
  assert (live one_output_stream Blob (parseInt_parameter [[48]; [65]] 0)
          = false) as H by reflexivity.
  split; [exact H | exact (dispatch_unknown_stream _ Blob _ H)].
Defined.

End Streams.

(** ** StringReader: the streaming UTF-8 decoder *)
Section Decoder.

Import StringReader.

Lemma forall_range_spec (P : Z -> bool) (n : nat) :
  forall lo, forall_range P lo n = true ->
    forall z, lo <= z < lo + Z.of_nat n -> P z = true.
Proof.
  induction n as [|n IH]; intros lo H z Hz; [lia|].
  cbn [forall_range] in H. apply andb_true_iff in H as [H0 H1].
  destruct (Z.eq_dec z lo) as [->|Hne]; [exact H0|].
  apply (IH (lo + 1) H1). lia.
Qed.

(** The accumulated text is only ever extended. *)
Lemma decode_loop_text (bytes : list Z) :
  forall st text,
    decode_loop st bytes text
    = (fst (decode_utf8 st bytes), text ++ snd (decode_utf8 st bytes)).
Proof.
  unfold decode_utf8.
  induction bytes as [|value rest IH]; intros st text; cbn [decode_loop].
  - cbn [fst snd]. by rewrite app_nil_r.
  - destruct (decode_byte st value) as [st' s].
    rewrite (IH st' (text ++ s)), (IH st' ([] ++ s)). cbn [fst snd app].
    by rewrite app_assoc.
Qed.

Lemma decode_utf8_app (st : t) (a b : list Z) :
  decode_utf8 st (a ++ b)
  = (fst (decode_utf8 (fst (decode_utf8 st a)) b),
     snd (decode_utf8 st a) ++ snd (decode_utf8 (fst (decode_utf8 st a)) b)).
Proof.
  revert st. induction a as [|value rest IH]; intros st.
  - change (decode_utf8 st []) with (st, @nil Z). cbn [fst snd app].
    by destruct (decode_utf8 st b).
  - unfold decode_utf8 in *. cbn [app decode_loop].
    destruct (decode_byte st value) as [st' s].
    rewrite !(decode_loop_text _ st' ([] ++ s)). unfold decode_utf8.
    rewrite IH. cbn [fst snd app]. by rewrite app_assoc.
Qed.

(** Feeding the bytes in chunks gives the text of feeding them at once. *)
Lemma decode_chunks_concat (chunks : list (list Z)) :
  forall st,
    decode_utf8 st (concat chunks)
    = (fst (decode_chunks st chunks), concat (snd (decode_chunks st chunks))).
Proof.
  induction chunks as [|buffer rest IH]; intros st; [reflexivity|].
  cbn [concat decode_chunks]. rewrite decode_utf8_app.
  destruct (decode_utf8 st buffer) as [st1 text]. cbn [fst snd].
  rewrite IH. by destruct (decode_chunks st1 rest).
Qed.

Lemma decode_chunks_length (chunks : list (list Z)) :
  forall st, length (snd (decode_chunks st chunks)) = length chunks.
Proof.
  induction chunks as [|buffer rest IH]; intros st; [reflexivity|].
  cbn [decode_chunks]. destruct (decode_utf8 st buffer) as [st1 text].
  specialize (IH st1). destruct (decode_chunks st1 rest). cbn in *. lia.
Qed.

Lemma decode_byte_code_units (st : t) (value : Z) :
  Forall is_code_unit (snd (decode_byte st value)).
Proof.
  assert (forall z, is_code_unit (fromCharCode z)) as Hf.
  { intros z. unfold is_code_unit, fromCharCode.
    pose proof (Z.mod_pos_bound z 65536). lia. }
  assert (is_code_unit 0xFFFD) as Hr by (unfold is_code_unit; lia).
  unfold decode_byte.
  repeat match goal with
         | |- context [if ?b then _ else _] => destruct b
         end; cbn [snd];
    repeat first [ apply Forall_nil_2
                 | apply Forall_cons_2; [first [apply Hf | exact Hr]|] ].
Qed.

Lemma decode_utf8_code_units (bytes : list Z) :
  forall st, Forall is_code_unit (snd (decode_utf8 st bytes)).
Proof.
  induction bytes as [|value rest IH]; intros st; [constructor|].
  change (value :: rest) with ([value] ++ rest).
  rewrite decode_utf8_app. cbn [snd]. apply Forall_app. split; [|apply IH].
  unfold decode_utf8. cbn [decode_loop].
  pose proof (decode_byte_code_units st value) as H.
  destruct (decode_byte st value) as [st' s]. by cbn in *.
Qed.

Lemma decode_byte_alike (st1 st2 : t) (value : Z) :
  alike st1 st2 ->
  snd (decode_byte st1 value) = snd (decode_byte st2 value) /\
  alike (fst (decode_byte st1 value)) (fst (decode_byte st2 value)).
Proof.
  intros [Hr Hc]. unfold decode_byte. rewrite <- Hr.
  destruct (Z.eqb_spec (bytes_remaining st1) 0) as [Hz|Hz].
  - repeat match goal with
           | |- context [if ?b then _ else _] => destruct b
           end; cbn [fst snd]; (split; [reflexivity|]);
      unfold alike; cbn [bytes_remaining codepoint]; try (split; [lia | done]).
    all: split; [exact Hr | intros; lia].
  - rewrite <- (Hc Hz).
    destruct (Z.lor value 63 =? 191); cbn [fst snd];
      (split; [reflexivity|]); unfold alike; cbn [bytes_remaining codepoint];
      split; reflexivity || (intros; reflexivity) || (intros; lia).
Qed.

Lemma decode_utf8_alike (bytes : list Z) :
  forall st1 st2, alike st1 st2 ->
    snd (decode_utf8 st1 bytes) = snd (decode_utf8 st2 bytes) /\
    alike (fst (decode_utf8 st1 bytes)) (fst (decode_utf8 st2 bytes)).
Proof.
  induction bytes as [|value rest IH]; intros st1 st2 H; [by split|].
  change (value :: rest) with ([value] ++ rest).
  rewrite !decode_utf8_app. cbn [fst snd].
  destruct (decode_byte_alike st1 st2 value H) as [Ht Ha].
  assert (forall st, decode_utf8 st [value] = decode_byte st value) as E.
  { intros st. unfold decode_utf8. cbn [decode_loop].
    by destruct (decode_byte st value). }
  rewrite !E. destruct (IH _ _ Ha) as [Ht' Ha'].
  split; [by rewrite Ht, Ht' | exact Ha'].
Qed.

(** Every codepoint up to U+FFFF, encoded by the StringWriter and decoded
    by a fresh StringReader, comes back. *)
Lemma decode_encode_new (c : Z) :
  0 <= c <= 0xFFFF ->
  snd (decode_utf8 StringReader.new (StringWriter.append_utf8 c)) = [c] /\
  bytes_remaining
    (fst (decode_utf8 StringReader.new (StringWriter.append_utf8 c))) = 0.
Proof.
  intros Hc.
  pose (P := fun c =>
               match decode_utf8 StringReader.new
                       (StringWriter.append_utf8 c) with
               | (st, text) =>
                   bool_decide (text = [c]) && (bytes_remaining st =? 0)
               end).
  assert (forall_range P 0 (Z.to_nat 65536) = true) as H
    by (vm_compute; reflexivity).
  pose proof (forall_range_spec P _ 0 H c ltac:(lia)) as Hp.
  unfold P in Hp.
  destruct (decode_utf8 StringReader.new (StringWriter.append_utf8 c))
    as [st text].
  apply andb_true_iff in Hp as [H1 H2].
  apply bool_decide_eq_true in H1. apply Z.eqb_eq in H2. by split.
Qed.

(** A byte that cannot start a sequence fails every test for a leading
    byte; a byte that is not a continuation fails the test for one. *)
Lemma not_lead_tests (value : Z) :
  0 <= value < 256 -> is_lead value = false ->
  (Z.lor value 0x7F =? 0x7F) = false /\ (Z.lor value 0x1F =? 0xDF) = false /\
  (Z.lor value 0x0F =? 0xEF) = false /\ (Z.lor value 0x07 =? 0xF7) = false.
Proof.
  intros Hv Hl.
  pose (P := fun v =>
               is_lead v
               || (negb (Z.lor v 0x7F =? 0x7F) && negb (Z.lor v 0x1F =? 0xDF)
                   && negb (Z.lor v 0x0F =? 0xEF)
                   && negb (Z.lor v 0x07 =? 0xF7))).
  assert (forall_range P 0 256 = true) as H by (vm_compute; reflexivity).
  pose proof (forall_range_spec P _ 0 H value ltac:(lia)) as Hp.
  unfold P in Hp. rewrite Hl in Hp. cbn [orb] in Hp.
  repeat (apply andb_true_iff in Hp as [Hp ?]).
  repeat split; by apply negb_true_iff.
Qed.

Lemma not_continuation_test (value : Z) :
  0 <= value < 256 -> is_continuation value = false ->
  (Z.lor value 0x3F =? 0xBF) = false.
Proof.
  intros Hv Hl.
  pose (P := fun v => is_continuation v || negb (Z.lor v 0x3F =? 0xBF)).
  assert (forall_range P 0 256 = true) as H by (vm_compute; reflexivity).
  pose proof (forall_range_spec P _ 0 H value ltac:(lia)) as Hp.
  unfold P in Hp. rewrite Hl in Hp. by apply negb_true_iff.
Qed.

(** C9, as the spec states it, fails.  The three bytes ED A0 80 decode to
    the lone surrogate U+D800, so the text is not well-formed; the
    ill-formed bytes C0 80 decode to U+0000 and not to U+FFFD; and after
    C3 the well-formed byte 41 is consumed by the error, so it is not
    decoded. *)
Lemma decode_utf8_not_valid_unicode :
  snd (decode_utf8 StringReader.new [0xED; 0xA0; 0x80]) = [0xD800] /\
  well_formed_utf16 (snd (decode_utf8 StringReader.new [0xED; 0xA0; 0x80]))
  = false /\
  snd (decode_utf8 StringReader.new [0xC0; 0x80]) = [0] /\
  snd (decode_utf8 StringReader.new [0xC3; 0x41]) = [0xFFFD].
Proof. repeat split. Qed.

(** A four-byte sequence is put together and then handed to
    [String.fromCharCode], which keeps sixteen bits: U+1F600 comes out as
    U+F600. *)
Lemma decode_utf8_four_bytes :
  decode_utf8 StringReader.new [0xF0; 0x9F; 0x98; 0x80]
  = ({| bytes_remaining := 0; codepoint := 0x1F600 |}, [0xF600]).
Proof. reflexivity. Qed.

(** C9, amended.  Whatever bytes are fed, in whatever chunks, the decoder
    returns one text per chunk, the texts together are the text of the
    bytes fed at once, and they consist of code units; the one to three
    bytes of a codepoint up to U+FFFF, met when no sequence is open,
    decode to that codepoint; a byte that cannot start a sequence, met
    when none is open, and a byte that is not a continuation, met when
    one is open, become U+FFFD and close the sequence. *)
Theorem decode_utf8_streaming (st : t) (chunks : list (list Z))
  (idle waiting : t) (c bad_lead bad_continuation : Z) :
  bytes_remaining idle = 0 -> 0 <= c <= 0xFFFF ->
  0 <= bad_lead < 256 -> is_lead bad_lead = false ->
  bytes_remaining waiting <> 0 ->
  0 <= bad_continuation < 256 -> is_continuation bad_continuation = false ->
  length (snd (decode_chunks st chunks)) = length chunks /\
  decode_utf8 st (concat chunks)
  = (fst (decode_chunks st chunks), concat (snd (decode_chunks st chunks))) /\
  Forall (fun u => 0 <= u <= 0xFFFF) (snd (decode_utf8 st (concat chunks))) /\
  snd (decode_utf8 idle (StringWriter.append_utf8 c)) = [c] /\
  bytes_remaining (fst (decode_utf8 idle (StringWriter.append_utf8 c))) = 0 /\
  decode_byte idle bad_lead = (idle, [0xFFFD]) /\
  decode_byte waiting bad_continuation
  = ({| bytes_remaining := 0; codepoint := codepoint waiting |}, [0xFFFD]).
Proof.
  intros Hidle Hc Hb1 Hl Hw Hb2 Hcont.
  split; [apply decode_chunks_length|].
  split; [apply decode_chunks_concat|].
  split; [apply decode_utf8_code_units|].
  assert (alike idle StringReader.new) as Ha
    by (split; [exact Hidle | intros; lia]).
  destruct (decode_utf8_alike (StringWriter.append_utf8 c) _ _ Ha)
    as [Ht [Hr _]].
  destruct (decode_encode_new c Hc) as [Ht' Hr'].
  split; [by rewrite Ht|]. split; [by rewrite Hr|].
  split.
  - destruct (not_lead_tests _ Hb1 Hl) as (T1 & T2 & T3 & T4).
    unfold decode_byte. rewrite Hidle. cbn [Z.eqb].
    by rewrite T1, T2, T3, T4.
  - unfold decode_byte. rewrite (proj2 (Z.eqb_neq _ _) Hw).
    by rewrite (not_continuation_test _ Hb2 Hcont).
Qed.

(** An instance: the three bytes of U+4E16 split over two chunks, the
    byte FF where a sequence should start, and the byte 41 where a
    continuation is expected. *)
Lemma decode_utf8_streaming_witness :
  length (snd (decode_chunks StringReader.new [[0xE4; 0xB8]; [0x96; 0x41]]))
  = 2%nat /\
  decode_utf8 StringReader.new (concat [[0xE4; 0xB8]; [0x96; 0x41]])
  = (fst (decode_chunks StringReader.new [[0xE4; 0xB8]; [0x96; 0x41]]),
     concat (snd (decode_chunks StringReader.new
                    [[0xE4; 0xB8]; [0x96; 0x41]]))) /\
  Forall (fun u => 0 <= u <= 0xFFFF)
    (snd (decode_utf8 StringReader.new
            (concat [[0xE4; 0xB8]; [0x96; 0x41]]))) /\
  snd (decode_utf8 StringReader.new (StringWriter.append_utf8 0x4E16))
  = [0x4E16] /\
  bytes_remaining
    (fst (decode_utf8 StringReader.new (StringWriter.append_utf8 0x4E16)))
  = 0 /\
  decode_byte StringReader.new 0xFF = (StringReader.new, [0xFFFD]) /\
  decode_byte (StringReader.mk 1 3) 0x41
  = ({| bytes_remaining := 0; codepoint := 3 |}, [0xFFFD]).
Proof.
  apply (decode_utf8_streaming StringReader.new [[0xE4; 0xB8]; [0x96; 0x41]]
           StringReader.new (StringReader.mk 1 3) 0x4E16 0xFF 0x41);
    cbn; (reflexivity || lia).
Defined.

End Decoder.

(** ** ChainedTunnel: a failure before commit *)
Section FailOver.

Import ChainedTunnel.

(** An error that comes with a status object never gets past the test
    of [failTunnel]: the chained tunnel is as before, the consumer's
    [onerror] is not called, and the caller receives the
    ReferenceError. *)
Lemma wrapped_onerror_status (c : ChainedTunnel.t) (tunnel : nat)
  (status : Status.t) :
  handlers_of c tunnel = Wrapped ->
  step c (TunnelError tunnel (Some status)) = (c, [ReferenceError]).
Proof. intros H. cbn [step]. by rewrite H. Qed.

(** After [connect(data)] on a chain of at least two tunnels the first
    is attached, not committed, and the others are still to be tried. *)
Lemma connected_first (first next : nat) (rest : list nat)
  (oe oi os : bool) (data : option jsstring) :
  let c := fst (run (ChainedTunnel.new (first :: next :: rest) oe oi os)
                  [CallConnect data]) in
  handlers_of c first = Wrapped /\ committedTunnel c = None /\
  tunnels c = next :: rest /\ connect_data c = data.
Proof.
  cbn. unfold handlers_of. cbn. by rewrite lookup_insert_eq.
Qed.

(** C4 on the code.  A chained tunnel over at least two tunnels has
    connected the first, which is attached and not committed.  When that
    tunnel calls [onerror] with a status, UPSTREAM_TIMEOUT or any other,
    [failTunnel] throws a ReferenceError at [Status]: the list of
    tunnels is not dropped, the next tunnel is not connected, and the
    consumer's [onerror] is not called.  When the tunnel then reports
    CLOSED, as after UPSTREAM_TIMEOUT it may, the next tunnel of the
    chain is attached and connected. *)
Theorem upstream_timeout_keeps_chain (first next : nat) (rest : list nat)
  (oe oi os : bool) (data : option jsstring) (status : Status.t)
  (message : option jsstring) :
  let c := fst (run (ChainedTunnel.new (first :: next :: rest) oe oi os)
                  [CallConnect data]) in
  let timeout := Status.mk (Num Status.UPSTREAM_TIMEOUT) message in
  step c (TunnelError first (Some status)) = (c, [ReferenceError]) /\
  tunnels (fst (step c (TunnelError first (Some timeout)))) = next :: rest /\
  run c [TunnelError first (Some timeout);
         TunnelStateChange first Tunnel.CLOSED]
  = (fst (attach (set_handlers (set_tunnels c rest) first Unset) next),
     [ReferenceError; Connect next data]).
Proof.
  intros c timeout.
  destruct (connected_first first next rest oe oi os data)
    as (Hw & _ & Ht & Hd).
  fold c in Hw, Ht, Hd.
  split; [by apply wrapped_onerror_status|].
  rewrite (wrapped_onerror_status c first timeout Hw). cbn [fst].
  split; [exact Ht|].
  cbn [run]. rewrite (wrapped_onerror_status c first timeout Hw).
  cbn [step]. rewrite Hw. unfold wrapped_onstatechange, failTunnel.
  rewrite Ht. cbn [attach fst snd app set_handlers set_tunnels connect_data].
  by rewrite Hd.
Qed.

(** The chain of the tunnels 0, 1 and 2: the time-out of tunnel 0 is
    followed by the connection of tunnel 1, and its time-out and CLOSED
    by the connection of tunnel 2. *)
Lemma upstream_timeout_then_closed :
  snd (run connected_chain
         [TunnelError 0 (Some (Status.mk (Num Status.UPSTREAM_TIMEOUT) None));
          TunnelStateChange 0 Tunnel.CLOSED;
          TunnelError 1 (Some (Status.mk (Num Status.UPSTREAM_TIMEOUT) None));
          TunnelStateChange 1 Tunnel.CLOSED])
  = [ReferenceError; Connect 1 None; ReferenceError; Connect 2 None].
Proof. vm_compute. reflexivity. Qed.

End FailOver.

(** ** Display: the frame engine *)
Section Frames.

Import Display.

Lemma isReady_loop_spec (heap : list Task) (ts : list nat) :
  isReady_loop heap ts = true <->
  forall task, task ∈ ts -> is_blocked heap task = false.
Proof.
  induction ts as [|t ts IH]; cbn [isReady_loop].
  - split; [intros _ task H; by apply elem_of_nil in H | done].
  - destruct (is_blocked heap t) eqn:E.
    + split; [done|]. intros H. rewrite (H t) in E; [done | by left].
    + rewrite IH. split.
      * intros H task [->|Hin]%elem_of_cons; [done | by apply H].
      * intros H task Hin. apply H. by right.
Qed.

Lemma isReady_loop_false (heap : list Task) (ts : list nat) :
  isReady_loop heap ts = false ->
  exists task, task ∈ ts /\ is_blocked heap task = true.
Proof.
  induction ts as [|t ts IH]; cbn [isReady_loop]; [done|].
  destruct (is_blocked heap t) eqn:E.
  - intros _. exists t. split; [by left | done].
  - intros H. destruct (IH H) as (task & Hin & Hb).
    exists task. split; [by right | done].
Qed.

Lemma logged_nil (d : Display.t) : logged d [] = d.
Proof. unfold logged. rewrite app_nil_r. by destruct d. Qed.

Lemma logged_logged (d : Display.t) (a b : list Event) :
  logged (logged d a) b = logged d (a ++ b).
Proof. unfold logged. cbn. by rewrite app_assoc. Qed.

(** A handler that makes no call returns at once. *)
Lemma call_quiet (fuel : nat) (h : Handler) (d : Display.t) :
  quiet h -> call_handler (S fuel) h d = Some d.
Proof. intros H. cbn [call_handler]. by rewrite H. Qed.

Lemma execute_all_quiet (fuel : nat) (ts : list nat) :
  forall d : Display.t,
    (forall tk h, tk ∈ heap d -> taskHandler tk = Some h -> quiet h) ->
    execute_all (call_handler (S fuel)) ts d
    = Some (logged d (map Execute ts)).
Proof.
  induction ts as [|t ts IH]; intros d Hq; cbn [execute_all map].
  - by rewrite logged_nil.
  - assert (execute (call_handler (S fuel)) d t
            = Some (logged d [Execute t])) as ->.
    { unfold execute. destruct (heap d !! t) as [tk|] eqn:E; [|done].
      destruct (taskHandler tk) as [h|] eqn:Eh; [|done].
      apply call_quiet. apply (Hq tk h); [|done].
      by apply list_elem_of_lookup_2 in E. }
    rewrite IH by exact Hq. by rewrite logged_logged.
Qed.

(** With handlers that make no call, flushing a frame is executing its
    tasks in order and calling its callback. *)
Lemma Frame_flush_quiet (fuel : nat) (frame : Frame) (d : Display.t) :
  (forall tk h, tk ∈ heap d -> taskHandler tk = Some h -> quiet h) ->
  (forall h, callback frame = Some h -> quiet h) ->
  Frame_flush (call_handler (S fuel)) frame d
  = Some (logged d (frame_events frame)).
Proof.
  intros Hq Hc. unfold Frame_flush, frame_events.
  rewrite execute_all_quiet by exact Hq.
  destruct (callback frame) as [cb|] eqn:Ecb.
  - rewrite call_quiet by (by apply Hc). by rewrite logged_logged.
  - by rewrite app_nil_r.
Qed.

(** The loop renders the ready frames at the head of what is left of
    the queue, and stops at the first frame that is not ready. *)
Lemma flush_loop_quiet (fuel : nat) (pending : list Frame) :
  forall (n r : nat) (d : Display.t),
    drop r (frames d) = pending -> (length pending < n)%nat ->
    quiet_display d ->
    exists ready rest,
      pending = ready ++ rest /\
      flush_loop (call_handler (S fuel)) n r d
      = Some (logged (splice d (r + length ready))
                (flat_map frame_events ready)) /\
      (forall frame, frame ∈ ready -> isReady (heap d) frame = true) /\
      match rest with
      | frame :: _ => isReady (heap d) frame = false
      | [] => True
      end.
Proof.
  induction pending as [|frame pending IH]; intros n r d Hp Hn Hq;
    (destruct n as [|n]; [cbn in Hn; lia|]); cbn [flush_loop].
  - assert (frames d !! r = None) as ->.
    { pose proof (lookup_drop (frames d) r 0) as H.
      rewrite Hp, Nat.add_0_r in H. by rewrite <- H. }
    exists [], []. cbn [length flat_map]. rewrite Nat.add_0_r, logged_nil.
    split; [done|]. split; [done|]. split; [|done].
    intros f H. by apply elem_of_nil in H.
  - assert (frames d !! r = Some frame) as ->.
    { pose proof (lookup_drop (frames d) r 0) as H.
      rewrite Hp, Nat.add_0_r in H. by rewrite <- H. }
    destruct (isReady (heap d) frame) eqn:E; cbn [negb].
    + destruct Hq as [Hq1 Hq2].
      rewrite Frame_flush_quiet; [|exact Hq1|].
      2:{ intros h Hh. apply (Hq2 frame h); [|done].
          apply (list_elem_of_lookup_2 _ r).
          pose proof (lookup_drop (frames d) r 0) as H.
          rewrite Hp, Nat.add_0_r in H. by rewrite <- H. }
      destruct (IH n (S r) (logged d (frame_events frame)))
        as (ready & rest & -> & El & Hr & Hh).
      * unfold logged. cbn [Display.frames].
        replace (S r) with (r + 1)%nat by lia.
        by rewrite <- drop_drop, Hp.
      * cbn [length] in Hn. lia.
      * by split.
      * exists (frame :: ready), rest. split; [done|]. split.
        -- rewrite El. f_equal. unfold logged, splice.
           cbn [Display.heap Display.tasks Display.frames Display.log
                  length flat_map].
           f_equal; [f_equal; lia | by rewrite <- app_assoc].
        -- split; [|done].
           intros f [->|Hin]%elem_of_cons; [done | by apply Hr].
    + exists [], (frame :: pending). cbn [length flat_map].
      rewrite Nat.add_0_r, logged_nil.
      split; [done|]. split; [done|]. split; [|done].
      intros f H. by apply elem_of_nil in H.
Qed.

Lemma quiet_display_sub (d d' : Display.t) :
  heap d' = heap d -> (forall frame, frame ∈ frames d' -> frame ∈ frames d) ->
  quiet_display d -> quiet_display d'.
Proof.
  intros Eh Hf [H1 H2]. split.
  - rewrite Eh. exact H1.
  - intros frame h Hin. apply H2. by apply Hf.
Qed.

(** Flushing the frames of a display whose rendered frames are [done]:
    the ready frames at the head of the queue join them. *)
Lemma flush_frames_spec (fuel n : nat) (d : Display.t) (done : list Frame) :
  rendered d done -> quiet_display d -> (length (frames d) < n)%nat ->
  exists d' ready,
    flush_frames (call_handler (S fuel)) n d = Some d' /\
    done ++ frames d = (done ++ ready) ++ frames d' /\
    rendered d' (done ++ ready) /\ drained d' /\
    heap d' = heap d /\ tasks d' = tasks d /\ quiet_display d' /\
    (length (frames d') <= length (frames d))%nat.
Proof.
  intros [Hlog Hready] Hq Hn. unfold flush_frames.
  destruct (flush_loop_quiet fuel (frames d) n 0 d)
    as (ready & rest & Ef & El & Hr & Hh); [done|done|done|].
  rewrite El. cbn [Nat.add]. eexists. exists ready.
  split; [reflexivity|].
  unfold logged, splice.
  cbn [Display.frames Display.heap Display.tasks Display.log].
  rewrite Ef, drop_app_length.
  split; [by rewrite app_assoc|]. split; [|split].
  - split; cbn [Display.log Display.heap].
    + by rewrite Hlog, flat_map_app.
    + intros frame [Hin|Hin]%elem_of_app; [by apply Hready | by apply Hr].
  - unfold drained. cbn [Display.frames Display.heap]. exact Hh.
  - split; [done|]. split; [done|]. split.
    + apply (quiet_display_sub d); [done| |exact Hq].
      cbn [Display.frames]. intros frame Hin. rewrite Ef.
      apply elem_of_app. by right.
    + rewrite length_app. lia.
Qed.

Lemma is_blocked_app (heap l : list Task) (task : nat) :
  (task < length heap)%nat ->
  is_blocked (heap ++ l) task = is_blocked heap task.
Proof. intros H. unfold is_blocked. by rewrite lookup_app_l. Qed.

Lemma isReady_app (heap l : list Task) (frame : Frame) :
  (forall task, task ∈ ftasks frame -> (task < length heap)%nat) ->
  isReady (heap ++ l) frame = isReady heap frame.
Proof.
  unfold isReady. induction (ftasks frame) as [|t ts IH]; intros H; [done|].
  cbn [isReady_loop]. rewrite is_blocked_app by (apply H; by left).
  rewrite IH; [done|]. intros task Hin. apply H. by right.
Qed.

Lemma is_blocked_unblock (heap : list Task) (task task' : nat)
  (handler : option Handler) :
  is_blocked heap task' = false ->
  is_blocked (<[task := mkTask handler false]> heap) task' = false.
Proof.
  unfold is_blocked. intros H.
  destruct (decide (task = task')) as [->|Hne].
  - destruct (decide (task' < length heap)%nat) as [Hlt|Hge].
    + by rewrite list_lookup_insert_eq.
    + by rewrite list_insert_ge by lia.
  - by rewrite list_lookup_insert_ne.
Qed.

Lemma isReady_unblock (heap : list Task) (task : nat)
  (handler : option Handler) (frame : Frame) :
  isReady heap frame = true ->
  isReady (<[task := mkTask handler false]> heap) frame = true.
Proof.
  unfold isReady. rewrite !isReady_loop_spec. intros H task' Hin.
  by apply is_blocked_unblock, H.
Qed.

Lemma elem_of_concat {A : Type} (x : A) (ls : list (list A)) :
  x ∈ concat ls <-> exists l, l ∈ ls /\ x ∈ l.
Proof.
  rewrite list_elem_of_In, in_concat. split.
  - intros (l & H1 & H2). exists l. by rewrite !list_elem_of_In.
  - intros (l & H1 & H2). exists l. by rewrite <- !list_elem_of_In.
Qed.

Lemma elem_of_map {A B : Type} (f : A -> B) (l : list A) (x : A) :
  x ∈ l -> f x ∈ map f l.
Proof. rewrite !list_elem_of_In. apply in_map. Qed.

(** A task of a frame was created: it is in the heap. *)
Lemma allocated_lt (d : Display.t) (done : list Frame) (frame : Frame)
  (task : nat) :
  allocated d done -> frame ∈ done ++ frames d -> task ∈ ftasks frame ->
  (task < length (heap d))%nat.
Proof.
  unfold allocated. intros Ha Hf Ht.
  assert (task ∈ seq 0 (length (heap d))) as Hin.
  { rewrite <- Ha. apply elem_of_app. left.
    apply elem_of_concat. exists (ftasks frame). split; [|done].
    by apply elem_of_map. }
  apply elem_of_seq in Hin. lia.
Qed.

(** One call from outside, with handlers that make no call, returns,
    keeps the display in order and queues the frame it submits, if it
    submits one; the tasks blocked afterwards are those the call
    leaves blocked. *)
Lemma apply_spec (fuel n : nat) (d : Display.t) (done : list Frame)
  (op : Op) :
  rendered d done -> drained d -> allocated d done -> quiet_display d ->
  quiet_op op -> (length (frames d) + 1 < n)%nat ->
  forall rest : list Op,
  exists d' done',
    apply (call_handler (S fuel)) n d op = Some d' /\
    (done ++ frames d) ++ submitted (op :: rest) (length (heap d)) (tasks d)
    = (done' ++ frames d')
        ++ submitted rest (length (heap d')) (tasks d') /\
    rendered d' done' /\ drained d' /\ allocated d' done' /\
    quiet_display d' /\
    (length (frames d') <= S (length (frames d)))%nat /\
    map blocked (heap d') = blocked_after [op] (map blocked (heap d)).
Proof.
  intros Hr Hd Ha Hq Hop Hn rest. destruct op as [handler b|cb|task];
    cbn [apply submitted blocked_after].
  - (* scheduleTask *)
    eexists. exists done. split; [reflexivity|].
    unfold scheduleTask. cbn [fst].
    cbn [Display.heap Display.tasks Display.frames].
    rewrite length_app. cbn [length].
    replace (length (heap d) + 1)%nat with (S (length (heap d))) by lia.
    split; [done|].
    assert (forall frame, frame ∈ done ++ frames d ->
              isReady (heap d ++ [mkTask handler b]) frame
              = isReady (heap d) frame) as Hext.
    { intros frame Hin. apply isReady_app. intros task Ht.
      by apply (allocated_lt d done frame). }
    split; [|split; [|split; [|split; [|split]]]].
    + destruct Hr as [Hlog Hready]. split; [done|].
      intros frame Hin. cbn [Display.heap].
      rewrite Hext by (apply elem_of_app; by left). by apply Hready.
    + unfold drained in *. cbn [Display.frames Display.heap].
      destruct (frames d) as [|frame fs] eqn:Ef; [done|].
      rewrite Hext; [done|]. apply elem_of_app. right. by left.
    + unfold allocated in *. cbn [Display.frames Display.heap Display.tasks].
      rewrite app_assoc, Ha, length_app. cbn [length].
      by rewrite seq_app.
    + destruct Hq as [Hq1 Hq2]. split; [|exact Hq2].
      cbn [Display.heap]. intros tk h [Hin|Hin]%elem_of_app Hh.
      * by apply (Hq1 tk h).
      * apply list_elem_of_singleton in Hin. subst tk. cbn in Hh.
        subst handler. exact Hop.
    + lia.
    + by rewrite map_app.
  - (* flush *)
    unfold flush.
    set (d0 := {| heap := heap d; tasks := [];
                  frames := frames d ++ [mkFrame cb (tasks d)];
                  log := log d |}).
    assert (rendered d0 done) as Hr0 by done.
    assert (quiet_display d0) as Hq0.
    { destruct Hq as [Hq1 Hq2]. split; [exact Hq1|].
      cbn [Display.frames d0]. intros frame h [Hin|Hin]%elem_of_app Hh.
      - by apply (Hq2 frame h).
      - apply list_elem_of_singleton in Hin. subst frame. cbn in Hh.
        subst cb. exact Hop. }
    destruct (flush_frames_spec fuel n d0 done Hr0 Hq0)
      as (d' & ready & E & Ef & Hr1 & Hd1 & Eh & Et & Hq1 & Hl).
    { cbn [Display.frames d0]. rewrite length_app. cbn [length]. lia. }
    exists d', (done ++ ready). split; [exact E|].
    rewrite Eh, Et. cbn [Display.heap Display.tasks d0].
    split; [|split; [exact Hr1|split; [exact Hd1|split; [|split; [exact Hq1|split]]]]].
    + rewrite <- Ef. cbn [Display.frames d0]. by rewrite <- !app_assoc.
    + unfold allocated in *. rewrite <- Ef, Eh, Et.
      cbn [Display.frames Display.heap Display.tasks d0].
      rewrite app_nil_r, app_assoc, map_app, concat_app. cbn [map concat].
      by rewrite app_nil_r.
    + cbn [Display.frames d0] in Hl. rewrite length_app in Hl.
      cbn [length] in Hl. lia.
    + done.
  - (* unblock *)
    unfold unblock. destruct (heap d !! task) as [tk|] eqn:El.
    2:{ exists d, done. split; [done|]. split; [done|].
        repeat (split; [done|]). split; [lia|].
        rewrite list_insert_ge; [done|]. rewrite length_map.
        by apply lookup_ge_None. }
    destruct (blocked tk) eqn:Eb.
    2:{ exists d, done. split; [done|]. split; [done|].
        repeat (split; [done|]). split; [lia|].
        rewrite list_insert_id; [done|].
        by rewrite list_lookup_fmap, El; cbn; rewrite Eb. }
    set (d0 := {| heap := <[task := mkTask (taskHandler tk) false]> (heap d);
                  tasks := tasks d; frames := frames d; log := log d |}).
    assert (rendered d0 done) as Hr0.
    { destruct Hr as [Hlog Hready]. split; [done|].
      intros frame Hin. by apply isReady_unblock, Hready. }
    assert (quiet_display d0) as Hq0.
    { destruct Hq as [Hq1 Hq2]. split; [|exact Hq2].
      cbn [Display.heap d0]. intros tk' h Hin Hh.
      apply list_elem_of_lookup in Hin as [i Hi].
      destruct (decide (task = i)) as [->|Hne].
      - rewrite list_lookup_insert_eq in Hi
          by (by apply lookup_lt_Some in El).
        injection Hi as <-. cbn in Hh. apply (Hq1 tk h); [|done].
        by apply list_elem_of_lookup_2 in El.
      - rewrite list_lookup_insert_ne in Hi by done.
        apply (Hq1 tk' h); [|done]. by apply list_elem_of_lookup_2 in Hi. }
    destruct (flush_frames_spec fuel n d0 done Hr0 Hq0)
      as (d' & ready & E & Ef & Hr1 & Hd1 & Eh & Et & Hq1 & Hl).
    { cbn [Display.frames d0]. lia. }
    exists d', (done ++ ready). split; [exact E|].
    rewrite Eh, Et. cbn [Display.heap Display.tasks Display.frames d0] in *.
    rewrite length_insert.
    split; [|split; [exact Hr1|split; [exact Hd1|split; [|split; [exact Hq1|split]]]]].
    + by rewrite <- Ef.
    + unfold allocated in *. rewrite <- Ef, Eh, Et.
      cbn [Display.frames Display.heap Display.tasks].
      by rewrite length_insert.
    + lia.
    + by rewrite list_fmap_insert.
Qed.

Lemma run_spec (fuel n : nat) (ops : list Op) :
  forall (d : Display.t) (done : list Frame),
    rendered d done -> drained d -> allocated d done -> quiet_display d ->
    Forall quiet_op ops -> (length (frames d) + length ops < n)%nat ->
    exists d' done',
      run_ops (call_handler (S fuel)) n ops d = Some d' /\
      (done ++ frames d) ++ submitted ops (length (heap d)) (tasks d)
      = done' ++ frames d' /\
      rendered d' done' /\ drained d' /\ allocated d' done' /\
      map blocked (heap d') = blocked_after ops (map blocked (heap d)).
Proof.
  induction ops as [|op rest IH]; intros d done Hr Hd Ha Hq Hops Hn.
  - exists d, done. cbn. by rewrite app_nil_r.
  - apply Forall_cons in Hops as [Hop Hops]. cbn [length] in Hn.
    destruct (apply_spec fuel n d done op Hr Hd Ha Hq Hop ltac:(lia) rest)
      as (d1 & done1 & E1 & E & Hr1 & Hd1 & Ha1 & Hq1 & Hl1 & Hb1).
    destruct (IH d1 done1 Hr1 Hd1 Ha1 Hq1 Hops ltac:(lia))
      as (d2 & done2 & E2 & E' & Hr2 & Hd2 & Ha2 & Hb2).
    exists d2, done2. cbn [run_ops]. rewrite E1.
    split; [exact E2|]. split; [by rewrite E, E'|].
    split; [exact Hr2|]. split; [exact Hd2|]. split; [exact Ha2|].
    rewrite Hb2, Hb1. by destruct op.
Qed.

(** The state after any calls from outside, on a new display, when no
    handler calls the display. *)
Lemma run_new_spec (fuel : nat) (ops : list Op) :
  Forall quiet_op ops -> (length ops < fuel)%nat ->
  exists d done,
    run fuel ops Display.new = Some d /\
    submitted ops 0 [] = done ++ frames d /\
    rendered d done /\ drained d /\ allocated d done /\
    map blocked (heap d) = blocked_after ops [].
Proof.
  intros Hops Hn. destruct fuel as [|fuel]; [lia|]. unfold run.
  destruct (run_spec fuel (S fuel) ops Display.new []) as (d & done & H).
  - split; [reflexivity|]. intros frame Hin. by apply elem_of_nil in Hin.
  - exact I.
  - reflexivity.
  - split; [intros tk h Hin | intros frame h Hin];
      by apply elem_of_nil in Hin.
  - exact Hops.
  - cbn. lia.
  - exists d, done. exact H.
Qed.


(** What the state of the heap says in terms of the calls. *)
Lemma blocked_lookup (d : Display.t) (flags : list bool) (task : nat)
  (b : bool) :
  map blocked (heap d) = flags -> (task < length (heap d))%nat ->
  is_blocked (heap d) task = b -> flags !! task = Some b.
Proof.
  intros <- Hlt <-. unfold is_blocked. rewrite list_lookup_fmap.
  destruct (heap d !! task) as [tk|] eqn:E; [done|].
  apply lookup_ge_None in E. lia.
Qed.

(** More fuel changes no result: where a flush returns, it returns the
    same display with any more fuel. *)
Section MoreFuel.

Variables call call' : Handler -> Display.t -> option Display.t.

Hypothesis call_more :
  forall h d d', call h d = Some d' -> call' h d = Some d'.





End MoreFuel.






(** The example: nothing runs while task 0 is blocked; once it is
    unblocked the two frames run, each whole and in order. *)
Lemma two_frames_log :
  (log <$> run 7 (take 5 two_frames) Display.new) = Some [] /\
  (log <$> run 7 two_frames Display.new)
  = Some [Execute 0; Execute 1; Callback 7; Execute 2].
Proof. split; vm_compute; reflexivity. Qed.

End Frames.

(** ** The loops end within their fuel *)
Section Fuel.

Import Parser.

Lemma find_char_bounds (c : Z) (s : jsstring) :
  forall i, find_char c s i = -1 \/ i <= find_char c s i < i + strlen s.
Proof.
  induction s as [|x s IH]; intros i; cbn [find_char]; [by left|].
  rewrite strlen_cons. pose proof (strlen_nonneg s).
  destruct (x =? c); [right; lia|].
  destruct (IH (i + 1)) as [H1|H1]; [by left | right; lia].
Qed.

Lemma indexOf_bounds (s : jsstring) (c pos : Z) :
  indexOf s c pos = -1 \/ (pos <= indexOf s c pos < strlen s).
Proof.
  unfold indexOf, clamp. pose proof (strlen_nonneg s) as Hs.
  set (start := Z.min (Z.max pos 0) (strlen s)).
  destruct (find_char_bounds c (drop (Z.to_nat start) s) start) as [H|H];
    [by left | right].
  assert (strlen (drop (Z.to_nat start) s) = strlen s - start) as E
    by (unfold strlen; rewrite length_drop; unfold strlen in *; lia).
  rewrite E in H. lia.
Qed.

Lemma take_element_start (p p1 : Parser.t) (out out1 : list Instruction) :
  take_element p out = inl (p1, out1) ->
  buffer p1 = buffer p /\ start_index p <= start_index p1.
Proof.
  unfold take_element.
  destruct (element_end p) as [e|]; cbn [JS.ge JS.add ToInteger];
    [|intros [= <- <-]; split; [done | lia]].
  destruct (Z.leb_spec (start_index p) e);
    [|intros [= <- <-]; split; [done | lia]].
  repeat case_bool_decide; intros [= <- <-]; cbn; split; done || lia.
Qed.

Lemma read_length_start (p p2 : Parser.t) :
  read_length p = inl p2 ->
  buffer p2 = buffer p /\
  start_index p < start_index p2 <= strlen (buffer p).
Proof.
  unfold read_length.
  destruct (indexOf_bounds (buffer p) DOT (start_index p)) as [H|H].
  - rewrite H. cbn. by intros [=].
  - destruct (negb _); [|by intros [=]].
    destruct (JS.eq _ _); [by intros [=]|].
    intros [= <-]. cbn. split; [done | lia].
Qed.

(** The loop returns when its fuel exceeds what is left of the buffer. *)
Lemma parse_loop_returns (fuel : nat) :
  forall (p : Parser.t) (out : list Instruction),
    strlen (buffer p) - start_index p + 1 < Z.of_nat fuel ->
    0 < Z.of_nat fuel ->
    exists r, parse_loop fuel p out = Some r.
Proof.
  induction fuel as [|fuel IH]; intros p out Hm Hpos; [lia|].
  cbn [parse_loop].
  destruct (JS.lt _ _); [|by eexists].
  destruct (take_element p out) as [[p1 out1]|[p1 out1]] eqn:Et;
    [|by eexists].
  destruct (take_element_start _ _ _ _ Et) as [Eb Hs].
  destruct (read_length p1) as [p2|[p2 c]] eqn:Er; [|by eexists].
  destruct (read_length_start _ _ Er) as [Eb2 Hs2].
  rewrite Eb in Hs2.
  assert (strlen (buffer p2) = strlen (buffer p)) as El
    by (by rewrite Eb2, Eb).
  apply IH; rewrite ?El; lia.
Qed.

(** [receive] returns or throws: it does not run out of fuel. *)
Lemma receive_returns (p : Parser.t) (packet : jsstring) :
  0 <= start_index p -> exists r, receive p packet = Some r.
Proof.
  intros Hs. unfold receive. apply parse_loop_returns; [|lia].
  assert (0 <= start_index (append (truncate p) packet)) as H.
  { unfold append, truncate. cbn [start_index].
    destruct (_ && _); cbn [start_index]; lia. }
  unfold strlen. lia.
Qed.

Import ArrayBufferWriter.

(** More rounds than [length bytes] change nothing: the loop of
    [sendData] has ended by then. *)
Lemma send_loop_fuel {A : Type} (bytes : list A) (fuel : nat) :
  forall (extra : nat) (offset : Z),
    Z.of_nat (length bytes) <= offset + Z.of_nat fuel ->
    send_loop (fuel + extra) bytes offset = send_loop fuel bytes offset.
Proof.
  induction fuel as [|fuel IH]; intros extra offset H.
  - cbn [Nat.add send_loop]. destruct extra; [done|]. cbn [send_loop].
    by rewrite (proj2 (Z.ltb_ge _ _)) by lia.
  - cbn [Nat.add send_loop]. destruct (offset <? _); [|done].
    f_equal. apply IH. lia.
Qed.

End Fuel.

(** ** Display: what the frame engine keeps *)
Section FrameEngineMore.

Import Display DisplayLog.

Lemma executed_app (l1 l2 : list Event) :
  executed (l1 ++ l2) = executed l1 ++ executed l2.
Proof.
  induction l1 as [|[task|cb] l1 IH]; cbn [app executed]; [done| |done].
  by rewrite IH.
Qed.

Lemma executed_frame_events (frame : Frame) :
  executed (frame_events frame) = ftasks frame.
Proof.
  unfold frame_events. rewrite executed_app.
  assert (executed (match callback frame with
                    | Some cb => [Callback (label cb)]
                    | None => []
                    end) = []) as -> by (by destruct (callback frame)).
  rewrite app_nil_r. induction (ftasks frame) as [|t ts IH]; [done|].
  cbn [map executed]. by rewrite IH.
Qed.

Lemma executed_rendered (done : list Frame) :
  executed (flat_map frame_events done) = concat (map ftasks done).
Proof.
  induction done as [|frame done IH]; [done|].
  cbn [flat_map map concat].
  by rewrite executed_app, executed_frame_events, IH.
Qed.

Lemma length_blocked_after (ops : list Op) :
  forall flags,
    length (blocked_after ops flags) = (length flags + scheduled ops)%nat.
Proof.
  induction ops as [|[handler b|cb|task] ops IH]; intros flags;
    cbn [blocked_after scheduled].
  - lia.
  - rewrite IH, length_app. cbn. lia.
  - apply IH.
  - by rewrite IH, length_insert.
Qed.

(** X1: When no handler calls the display, and whatever
    is scheduled, flushed and unblocked from outside: no task is
    executed twice; every task executed was scheduled, and flushed in
    one of the frames submitted; and a task that is still pending, or
    whose frame is still queued, has not been executed. *)
Theorem tasks_execute_at_most_once (fuel : nat) (ops : list Op) :
  Forall quiet_op ops -> (length ops < fuel)%nat ->
  exists d : Display.t,
    run fuel ops Display.new = Some d /\
    NoDup (executed (log d)) /\
    (forall task,
       task ∈ executed (log d) ->
       (task < scheduled ops)%nat /\
       exists frame, frame ∈ submitted ops 0 [] /\ task ∈ ftasks frame) /\
    (forall task, task ∈ tasks d -> task ∉ executed (log d)) /\
    (forall frame task,
       frame ∈ frames d -> task ∈ ftasks frame ->
       task ∉ executed (log d)).
Proof.
  intros Hops Hn.
  destruct (run_new_spec fuel ops Hops Hn)
    as (d & done & E & Es & [Hlog Hready] & Hd & Ha & Hb).
  exists d. split; [exact E|].
  pose proof Ha as Ha'.
  unfold allocated in Ha. rewrite map_app, concat_app in Ha.
  pose proof (NoDup_seq 0 (length (heap d))) as Hs.
  rewrite <- Ha in Hs.
  apply NoDup_app in Hs as (Hs1 & Hs2 & _).
  apply NoDup_app in Hs1 as (Hs3 & Hs4 & _).
  rewrite Hlog, executed_rendered.
  split; [exact Hs3|]. split; [|split].
  - intros task Hin.
    apply elem_of_concat in Hin as (l & Hl & Hin).
    apply list_elem_of_In, in_map_iff in Hl as (frame & <- & Hf).
    apply list_elem_of_In in Hf. split.
    + assert (length (heap d) = scheduled ops) as <-.
      { rewrite <- (length_map blocked), Hb, length_blocked_after.
        by cbn. }
      apply (allocated_lt d done frame); [exact Ha'| |exact Hin].
      apply elem_of_app. by left.
    + exists frame. split; [|exact Hin]. rewrite Es.
      apply elem_of_app. by left.
  - intros task Ht Hex. apply (Hs2 task); [|exact Ht].
    apply elem_of_app. by left.
  - intros frame task Hf Ht Hex. apply (Hs4 task); [exact Hex|].
    apply elem_of_concat. exists (ftasks frame). split; [|done].
    by apply elem_of_map.
Qed.

Lemma tasks_execute_at_most_once_witness :
  exists d : Display.t,
    run 7 two_frames Display.new = Some d /\
    NoDup (executed (log d)) /\
    (forall task,
       task ∈ executed (log d) ->
       (task < scheduled two_frames)%nat /\
       exists frame,
         frame ∈ submitted two_frames 0 [] /\ task ∈ ftasks frame) /\
    (forall task, task ∈ tasks d -> task ∉ executed (log d)) /\
    (forall frame task,
       frame ∈ frames d -> task ∈ ftasks frame ->
       task ∉ executed (log d)).
Proof.
  apply (tasks_execute_at_most_once 7 two_frames).
  - repeat (apply Forall_cons_2; [by cbn|]). apply Forall_nil_2.
  - cbn. lia.
Defined.

(** X2: When no handler calls the display and no
    task scheduled is blocked any more, no frame is left waiting: the
    log is all the frames submitted, in the order of the calls of
    [flush], each its tasks executed in the order they were scheduled
    and then its callback called. *)
Theorem nothing_blocked_nothing_queued (fuel : nat) (ops : list Op) :
  Forall quiet_op ops -> (length ops < fuel)%nat ->
  (forall task, blocked_after ops [] !! task <> Some true) ->
  exists d : Display.t,
    run fuel ops Display.new = Some d /\
    frames d = [] /\
    log d = flat_map frame_events (submitted ops 0 []).
Proof.
  intros Hops Hn Hfree.
  destruct (run_new_spec fuel ops Hops Hn)
    as (d & done & E & Es & [Hlog Hready] & Hd & Ha & Hb).
  exists d. split; [exact E|].
  assert (frames d = []) as Ef.
  { unfold drained in Hd. destruct (frames d) as [|frame fs] eqn:Ef; [done|].
    apply isReady_loop_false in Hd as (task & Ht & Hblocked).
    destruct (Hfree task).
    apply (blocked_lookup d); [exact Hb| |exact Hblocked].
    apply (allocated_lt d done frame); [exact Ha| |exact Ht].
    rewrite Ef. apply elem_of_app. right. by left. }
  split; [exact Ef|]. by rewrite Es, Ef, app_nil_r.
Qed.

Lemma nothing_blocked_nothing_queued_witness :
  exists d : Display.t,
    run 6 unblocked_frames Display.new = Some d /\
    frames d = [] /\
    log d = [Execute 0; Execute 1; Callback 7; Execute 2].
Proof.
  apply (nothing_blocked_nothing_queued 6 unblocked_frames).
  - repeat (apply Forall_cons_2; [by cbn|]). apply Forall_nil_2.
  - cbn. lia.
  - intros [|[|[|task]]]; by cbn.
Defined.

(** X30: A frame callback whose first act,
    whenever it runs, is to call [display.flush()] never returns, and
    neither does the flush of frames that called it, whatever the fuel:
    the inner flush of frames finds the frame that is being rendered
    still at the head of the queue, renders it again and calls the
    callback again, without end.  The frame is at the head of the
    queue and ready, and the task handlers make no call. *)
Theorem reentrant_flush_never_returns (fuel n : nat) (d : Display.t)
  (frame : Frame) (rest : list Frame) (cb : Handler) :
  frames d = frame :: rest -> isReady (heap d) frame = true ->
  callback frame = Some cb ->
  (forall log, exists c more, calls cb log = Flush c :: more) ->
  (forall tk h, tk ∈ heap d -> taskHandler tk = Some h -> quiet h) ->
  flush_frames (call_handler fuel) n d = None.
Proof.
  intros Hf Hr Hcb Hcalls Hq. unfold flush_frames.
  revert n d rest Hf Hr Hq.
  induction fuel as [|fuel IH]; intros n d rest Hf Hr Hq;
    (destruct n as [|n]; [done|]); cbn [flush_loop];
    rewrite Hf; cbn [lookup list_lookup]; rewrite Hr; cbn [negb];
    unfold Frame_flush; rewrite Hcb.
  - by destruct (execute_all _ _ _).
  - rewrite execute_all_quiet by exact Hq.
    cbn [call_handler].
    destruct (Hcalls (log (logged (logged d (map Execute (ftasks frame)))
                             [Callback (label cb)])))
      as (c & more & ->).
    cbn [run_ops apply]. unfold flush, flush_frames.
    rewrite (IH fuel _ (rest ++ [mkFrame c (tasks d)])); [done| | |].
    + unfold logged. cbn [Display.frames]. by rewrite Hf.
    + exact Hr.
    + exact Hq.
Qed.

Lemma reentrant_flush_never_returns_witness :
  flush_frames (call_handler 9) 9 looping_display = None.
Proof.
  apply (reentrant_flush_never_returns 9 9 looping_display
           (mkFrame (Some (flush_always 1)) [0%nat]) [] (flush_always 1)).
  - reflexivity.
  - reflexivity.
  - reflexivity.
  - intros log. by exists None, [].
  - intros tk h Hin Hh. apply list_elem_of_singleton in Hin. by subst tk.
Defined.

End FrameEngineMore.
(** ** ChainedTunnel: order of the attempts, commitment *)
Section ChainMore.

Import ChainedTunnel ChainedRun.

Lemma connects_app (a b : list Action) :
  connects (a ++ b) = connects a ++ connects b.
Proof.
  induction a as [|x a IH]; [done|]. destruct x; cbn; by rewrite ?IH.
Qed.

Lemma connects_if (b : bool) (a : Action) :
  (forall t d, a <> Connect t d) -> connects (if b then [a] else []) = [].
Proof.
  intros H. destruct b; [|done]. destruct a; try done. by destruct (H tunnel data).
Qed.

(** What [failTunnel] connects when it returns: nothing, leaving the
    list, or the head of the list, taking it. *)
Lemma failTunnel_connects (c c' : ChainedTunnel.t) (tunnel : nat)
  (status : option Status.t) (acts : list Action) (next : option nat) :
  failTunnel c tunnel status = Returns (c', acts, next) ->
  connect_data c' = connect_data c /\
  ((connects acts = [] /\ next = None /\ tunnels c' = tunnels c)
   \/ exists n rest,
        tunnels c = n :: rest /\ tunnels c' = rest /\
        next = Some n /\ connects acts = [(n, connect_data c)]).
Proof.
  unfold failTunnel. destruct status as [s|]; [done|].
  destruct (tunnels c) as [|n rest] eqn:Et; cbn; intros [= <- <- <-].
  - split; [done|]. left. by rewrite Et.
  - split; [done|]. right. by exists n, rest.
Qed.

(** An input other than a call of [connect] connects nothing, or the
    head of the list. *)
Lemma step_connects (c : ChainedTunnel.t) (i : Input) :
  is_connect_call i = false ->
  connect_data (fst (step c i)) = connect_data c /\
  ((connects (snd (step c i)) = [] /\ tunnels (fst (step c i)) = tunnels c)
   \/ exists next rest,
        tunnels c = next :: rest /\ tunnels (fst (step c i)) = rest /\
        connects (snd (step c i)) = [(next, connect_data c)]).
Proof.
  intros Hi.
  destruct i as [tunnel status|tunnel state|tunnel opcode elements|data];
    [| | |done]; cbn [step].
  - destruct (handlers_of c tunnel); cbn [fst snd].
    + split; [done|]. by left.
    + unfold wrapped_onerror.
      destruct (failTunnel c tunnel status) as [[[c' acts] next]|] eqn:Ef;
        cbn [fst snd]; [|split; [done | by left]].
      destruct (failTunnel_connects c c' tunnel status acts next Ef)
        as [Hd H].
      split; [done|].
      destruct H as [(Hc & -> & Ht)|(n & rest & Et & Et' & -> & Hc)].
      * left. split; [|done]. rewrite connects_app, Hc. by apply connects_if.
      * right. exists n, rest. split; [done|]. split; [done|].
        by rewrite connects_app, Hc.
    + split; [done|]. left. split; [by apply connects_if | done].
  - destruct (handlers_of c tunnel); cbn [fst snd].
    + split; [done|]. by left.
    + unfold wrapped_onstatechange. destruct state; cbn [fst snd].
      * split; [done|]. by left.
      * split; [done|]. left. split; [by apply connects_if | done].
      * destruct (failTunnel c tunnel None) as [[[c' acts] next]|] eqn:Ef;
          cbn [fst snd]; [|split; [done | by left]].
        destruct (failTunnel_connects c c' tunnel None acts next Ef)
          as [Hd H].
        split; [done|].
        destruct H as [(Hc & -> & Ht)|(n & rest & Et & Et' & -> & Hc)].
        -- left. split; [|done]. rewrite connects_app, Hc.
           by apply connects_if.
        -- right. exists n, rest. split; [done|]. split; [done|].
           by rewrite connects_app, Hc.
    + split; [done|]. left. split; [by apply connects_if | done].
  - destruct (handlers_of c tunnel); cbn [fst snd].
    + split; [done|]. by left.
    + split; [done|]. left. split; [by apply connects_if | done].
    + split; [done|]. left. split; [by apply connects_if | done].
Qed.

Lemma run_connects (chain : list nat) (data : option jsstring)
  (inputs : list Input) :
  forallb (fun i => negb (is_connect_call i)) inputs = true ->
  forall (c : ChainedTunnel.t) (k : nat),
    connect_data c = data ->
    tunnels c = drop k chain ->
    exists k',
      (k <= k')%nat /\
      tunnels (fst (run c inputs)) = drop k' chain /\
      map (fun t => (t, data)) (take k chain) ++ connects (snd (run c inputs))
      = map (fun t => (t, data)) (take k' chain).
Proof.
  induction inputs as [|i rest IH]; intros Hall c k Hd Ht.
  - exists k. split; [lia|]. split; [done|]. cbn. by rewrite app_nil_r.
  - cbn [forallb] in Hall. apply andb_true_iff in Hall as [Hi Hall].
    apply negb_true_iff in Hi. cbn [run].
    destruct (step_connects c i Hi) as [Hd1 H].
    destruct (step c i) as [c1 acts1] eqn:Es. cbn [fst snd] in *.
    destruct H as [[Hc Ht1]|(next & l & Et & Et1 & Hc)].
    + destruct (IH Hall c1 k) as (k' & Hk & Ht' & E); [congruence..|].
      destruct (run c1 rest) as [c2 acts2]. cbn [fst snd] in *.
      exists k'. split; [done|]. split; [done|].
      by rewrite connects_app, Hc.
    + rewrite Et in Ht.
      assert (chain !! k = Some next /\ l = drop (S k) chain) as [Hk El].
      { clear -Ht. revert k Ht. induction chain as [|x chain IHc];
          intros [|k] Ht; cbn in *; try done.
        - by inversion Ht.
        - by apply IHc. }
      destruct (IH Hall c1 (S k)) as (k' & Hk' & Ht' & E); [congruence..|].
      destruct (run c1 rest) as [c2 acts2]. cbn [fst snd] in *.
      exists k'. split; [lia|]. split; [done|].
      rewrite connects_app, Hc, Hd, app_assoc, <- E.
      f_equal. rewrite (take_S_r _ _ _ Hk), map_app. done.
Qed.

(** X4: After [connect(data)], whatever the inner tunnels
    do, the tunnels connected are the first tunnels of the chain, in the
    order of the chain, each once and each with [data], the first of
    them by [connect] itself; the tunnels after them are still in the
    list. *)
Theorem tunnels_tried_in_order (chain : list nat) (oe oi os : bool)
  (data : option jsstring) (later : list Input) :
  forallb (fun i => negb (is_connect_call i)) later = true ->
  exists k,
    (chain = [] \/ 1 <= k)%nat /\
    connects (snd (run (ChainedTunnel.new chain oe oi os)
                     (CallConnect data :: later)))
    = map (fun t => (t, data)) (take k chain) /\
    tunnels (fst (run (ChainedTunnel.new chain oe oi os)
                    (CallConnect data :: later)))
    = drop k chain.
Proof.
  intros Hall. cbn [run step]. unfold connect.
  cbn [committedTunnel ChainedTunnel.new tunnels].
  destruct chain as [|first rest].
  - destruct (run_connects [] data later Hall
                {| connect_data := data; tunnels := []; committedTunnel := None;
                   handlers := ∅; attached := None; onerror := oe;
                   oninstruction := oi; onstatechange := os |} 0 eq_refl)
      as (k' & _ & Ht & E); [done|].
    cbn [fst snd] in *. destruct (run _ later) as [c2 acts2].
    exists k'. cbn [fst snd] in *. split; [by left|]. split; [|done].
    rewrite connects_app. by rewrite connects_if by done.
  - cbn [attach set_tunnels connect_data tunnels committedTunnel handlers
         attached onerror oninstruction onstatechange].
    match goal with
    | |- context [run ?c later] =>
        destruct (run_connects (first :: rest) data later Hall c 1 eq_refl)
          as (k' & Hk & Ht & E); [done|]; destruct (run c later) as [c2 acts2]
    end.
    exists k'. cbn [fst snd connects app] in *.
    split; [by right|]. split; [exact E | exact Ht].
Qed.

Lemma tunnels_tried_in_order_witness :
  exists k,
    (([0; 1; 2] : list nat) = [] \/ 1 <= k)%nat /\
    connects (snd (run (ChainedTunnel.new [0%nat; 1%nat; 2%nat] true true true)
                     [CallConnect None;
                      TunnelError 0
                        (Some (Status.mk (Num Status.SERVER_ERROR) None));
                      TunnelStateChange 0 Tunnel.CLOSED;
                      TunnelInstruction 1 [] []]))
    = map (fun t => (t, None)) (take k [0%nat; 1%nat; 2%nat]) /\
    tunnels (fst (run (ChainedTunnel.new [0%nat; 1%nat; 2%nat] true true true)
                    [CallConnect None;
                     TunnelError 0
                       (Some (Status.mk (Num Status.SERVER_ERROR) None));
                     TunnelStateChange 0 Tunnel.CLOSED;
                     TunnelInstruction 1 [] []]))
    = drop k [0%nat; 1%nat; 2%nat].
Proof.
  apply (tunnels_tried_in_order [0%nat; 1%nat; 2%nat] true true true None
           [TunnelError 0 (Some (Status.mk (Num Status.SERVER_ERROR) None));
            TunnelStateChange 0 Tunnel.CLOSED; TunnelInstruction 1 [] []]).
  reflexivity.
Defined.

End ChainMore.

(** ** ChainedTunnel: commitment and exhaustion *)
Section ChainCommit.

Import ChainedTunnel ChainedRun.

Lemma handlers_insert (m : gmap nat Handlers) (n u : nat) (h : Handlers) :
  default Unset (<[n := h]> m !! u)
  = if decide (n = u) then h else default Unset (m !! u).
Proof.
  destruct (decide (n = u)) as [->|Hne];
    [by rewrite lookup_insert_eq | by rewrite lookup_insert_ne].
Qed.

Lemma single_live_ext (c c' : ChainedTunnel.t) :
  handlers c' = handlers c -> single_live c -> single_live c'.
Proof. unfold single_live, handlers_of. by intros ->. Qed.

Lemma commit_single_live (c : ChainedTunnel.t) (tunnel : nat) :
  handlers_of c tunnel <> Unset -> single_live c ->
  single_live (commit_tunnel c tunnel).
Proof.
  intros Hl Hs u v Hu Hv.
  unfold handlers_of, commit_tunnel in Hu, Hv. cbn [handlers] in Hu, Hv.
  rewrite handlers_insert in Hu, Hv.
  assert (forall w, (if decide (tunnel = w) then Forwarding
                     else default Unset (handlers c !! w)) <> Unset ->
                    w = tunnel) as H.
  { intros w Hw. destruct (decide (tunnel = w)) as [->|Hne]; [done|].
    by apply Hs. }
  by rewrite (H u Hu), (H v Hv).
Qed.

Lemma failTunnel_single_live (c c' : ChainedTunnel.t) (tunnel : nat)
  (status : option Status.t) (acts : list Action) (next_tunnel : option nat) :
  handlers_of c tunnel <> Unset -> single_live c ->
  failTunnel c tunnel status = Returns (c', acts, next_tunnel) ->
  single_live c'.
Proof.
  intros Hl Hs. unfold failTunnel. destruct status as [s|]; [done|].
  destruct (tunnels c) as [|next rest]; [by intros [= <- <- <-]|].
  cbn [fst attach]. intros [= <- <- <-].
  intros u v Hu Hv.
  assert (forall w,
            handlers_of
              {| connect_data := connect_data c; tunnels := rest;
                 committedTunnel := committedTunnel c;
                 handlers := <[next := Wrapped]>
                               (<[tunnel := Unset]> (handlers c));
                 attached := Some next; onerror := onerror c;
                 oninstruction := oninstruction c;
                 onstatechange := onstatechange c |} w <> Unset ->
            w = next) as H.
  { intros w Hw.
    unfold handlers_of in Hw. cbn [handlers] in Hw.
    rewrite handlers_insert in Hw.
    destruct (decide (next = w)) as [->|Hne]; [done|].
    destruct (decide (tunnel = w)) as [->|Hne'].
    - by rewrite lookup_insert_eq in Hw.
    - rewrite lookup_insert_ne in Hw by done.
      destruct Hne'. symmetry. by apply Hs. }
  by rewrite (H u Hu), (H v Hv).
Qed.

Lemma step_single_live (c : ChainedTunnel.t) (i : Input) :
  is_connect_call i = false -> single_live c -> single_live (fst (step c i)).
Proof.
  intros Hi Hs.
  destruct i as [tunnel status|tunnel state|tunnel opcode elements|data];
    [| | |done]; cbn [step];
    destruct (handlers_of c tunnel) eqn:Eh; try exact Hs.
  - unfold wrapped_onerror.
    destruct (failTunnel c tunnel status) as [[[c' acts] next]|] eqn:Ef;
      [|exact Hs].
    apply (failTunnel_single_live c c' tunnel status acts next);
      [by rewrite Eh | done | done].
  - unfold wrapped_onstatechange. destruct state; [done| |].
    + apply commit_single_live; [by rewrite Eh | done].
    + destruct (failTunnel c tunnel None) as [[[c' acts] next]|] eqn:Ef;
        [|exact Hs].
      apply (failTunnel_single_live c c' tunnel None acts next);
        [by rewrite Eh | done | done].
  - apply commit_single_live; [by rewrite Eh | done].
Qed.

Lemma run_single_live (inputs : list Input) :
  forallb (fun i => negb (is_connect_call i)) inputs = true ->
  forall c, single_live c -> single_live (fst (run c inputs)).
Proof.
  induction inputs as [|i rest IH]; intros Hall c Hs; [done|].
  cbn [forallb] in Hall. apply andb_true_iff in Hall as [Hi Hall].
  apply negb_true_iff in Hi. cbn [run].
  pose proof (step_single_live c i Hi Hs) as H1.
  destruct (step c i) as [c1 acts1]. specialize (IH Hall c1 H1).
  by destruct (run c1 rest).
Qed.

Lemma connected_single_live (chain : list nat) (oe oi os : bool)
  (data : option jsstring) :
  single_live (fst (step (ChainedTunnel.new chain oe oi os)
                      (CallConnect data))).
Proof.
  cbn [step]. unfold connect. cbn [committedTunnel ChainedTunnel.new tunnels].
  destruct chain as [|first rest].
  - intros u v Hu. by destruct Hu.
  - intros u v Hu Hv. cbn [fst attach set_tunnels] in *.
    unfold handlers_of in Hu, Hv. cbn [handlers] in Hu, Hv.
    rewrite handlers_insert in Hu, Hv.
    destruct (decide (first = u)) as [<-|]; [|by destruct Hu].
    destruct (decide (first = v)) as [<-|]; [done|]. by destruct Hv.
Qed.

(** With the handlers of [tunnel] the consumer's own and no other
    tunnel live, an input changes nothing and is forwarded. *)
Lemma step_forwarding (c : ChainedTunnel.t) (tunnel : nat) (i : Input) :
  is_connect_call i = false -> single_live c ->
  handlers_of c tunnel = Forwarding ->
  step c i = (c, forwarded c tunnel i).
Proof.
  intros Hi Hs Hf.
  assert (forall u, u <> tunnel -> handlers_of c u = Unset) as Hother.
  { intros u Hne. destruct (handlers_of c u) eqn:Eu; [done| |];
      destruct Hne; apply Hs; by rewrite ?Eu, ?Hf. }
  destruct i as [u status|u state|u opcode elements|data]; [| | |done];
    cbn [step forwarded]; case_bool_decide as Hu; cbn [andb];
    (subst; rewrite ?Hf; reflexivity) || (by rewrite (Hother u Hu)).
Qed.

(** X5: Once a tunnel is committed, and as long as the
    consumer does not call [connect] again, nothing the inner tunnels do
    changes the chained tunnel or connects another tunnel: every event
    of the committed tunnel goes to the consumer's handler as it is, an
    error with its status included, and the events of the other tunnels
    are not heard. *)
Theorem commit_is_final (chain : list nat) (oe oi os : bool)
  (data : option jsstring) (before after : list Input)
  (c : ChainedTunnel.t) (tunnel : nat) :
  forallb (fun i => negb (is_connect_call i)) before = true ->
  forallb (fun i => negb (is_connect_call i)) after = true ->
  c = fst (run (ChainedTunnel.new chain oe oi os)
             (CallConnect data :: before)) ->
  handlers_of c tunnel = Forwarding ->
  run c after = (c, flat_map (forwarded c tunnel) after) /\
  connects (snd (run c after)) = [].
Proof.
  intros Hb Ha Hc Hf.
  assert (single_live c) as Hs.
  { subst c. cbn [run].
    pose proof (connected_single_live chain oe oi os data) as H0.
    destruct (step _ (CallConnect data)) as [c1 acts1].
    pose proof (run_single_live before Hb c1 H0) as H1.
    by destruct (run c1 before). }
  assert (run c after = (c, flat_map (forwarded c tunnel) after)) as E.
  { clear Hc. induction after as [|i rest IH]; [done|].
    cbn [forallb] in Ha. apply andb_true_iff in Ha as [Hi Ha].
    apply negb_true_iff in Hi. cbn [run flat_map].
    rewrite (step_forwarding c tunnel i Hi Hs Hf). by rewrite (IH Ha). }
  split; [exact E|]. rewrite E. cbn [snd]. clear.
  induction after as [|i rest IH]; [done|].
  cbn [flat_map]. rewrite connects_app, IH, app_nil_r.
  destruct i; cbn [forwarded]; try done; by apply connects_if.
Qed.

Lemma commit_is_final_witness :
  run (fst (run (ChainedTunnel.new [0%nat; 1%nat] true true true)
              [CallConnect None; TunnelStateChange 0 Tunnel.OPEN]))
    [TunnelError 0 (Some (Status.mk (Num Status.UPSTREAM_TIMEOUT) None));
     TunnelStateChange 0 Tunnel.CLOSED; TunnelInstruction 1 [] []]
  = (fst (run (ChainedTunnel.new [0%nat; 1%nat] true true true)
            [CallConnect None; TunnelStateChange 0 Tunnel.OPEN]),
     [Error (Some (Status.mk (Num Status.UPSTREAM_TIMEOUT) None));
      StateChange Tunnel.CLOSED]) /\
  connects
    (snd (run (fst (run (ChainedTunnel.new [0%nat; 1%nat] true true true)
                      [CallConnect None; TunnelStateChange 0 Tunnel.OPEN]))
            [TunnelError 0
               (Some (Status.mk (Num Status.UPSTREAM_TIMEOUT) None));
             TunnelStateChange 0 Tunnel.CLOSED;
             TunnelInstruction 1 [] []])) = [].
Proof.
  exact (commit_is_final [0%nat; 1%nat] true true true None
           [TunnelStateChange 0 Tunnel.OPEN]
           [TunnelError 0
              (Some (Status.mk (Num Status.UPSTREAM_TIMEOUT) None));
            TunnelStateChange 0 Tunnel.CLOSED; TunnelInstruction 1 [] []]
           _ 0 eq_refl eq_refl eq_refl eq_refl).
Defined.

(** Without a committed tunnel no handler slot holds the consumer's
    handlers. *)
Lemma step_uncommitted (c : ChainedTunnel.t) (i : Input) :
  (committedTunnel c = None -> forall u, handlers_of c u <> Forwarding) ->
  committedTunnel (fst (step c i)) = None ->
  committedTunnel c = None /\
  (forall u, handlers_of (fst (step c i)) u <> Forwarding) /\
  forall s, Error (Some s) ∉ snd (step c i).
Proof.
  intros Hinv.
  assert (forall (b : bool) (a : Action) s,
            a <> Error (Some s) -> Error (Some s) ∉ (if b then [a] else []))
    as Hif.
  { intros b a s Ha. destruct b; [|by apply not_elem_of_nil].
    intros H%list_elem_of_singleton. by destruct Ha. }
  assert (forall c0 n u, handlers_of c0 u <> Forwarding ->
                         handlers_of (fst (attach c0 n)) u <> Forwarding)
    as Hattach.
  { intros c0 n u H0. unfold handlers_of, attach. cbn [fst handlers].
    rewrite handlers_insert. by destruct (decide (n = u)). }
  assert (forall c0 n u, handlers_of c0 u <> Forwarding ->
                         handlers_of (set_handlers c0 n Unset) u
                         <> Forwarding) as Hset.
  { intros c0 n u H0. unfold handlers_of, set_handlers. cbn [handlers].
    rewrite handlers_insert. by destruct (decide (n = u)). }
  assert (forall tunnel status c' acts next,
            failTunnel c tunnel status = Returns (c', acts, next) ->
            committedTunnel c' = committedTunnel c /\
            ((forall u, handlers_of c u <> Forwarding) ->
             forall u, handlers_of c' u <> Forwarding) /\
            forall s, Error (Some s) ∉ acts) as Hfail.
  { intros tunnel status c' acts next. unfold failTunnel.
    destruct status as [s|]; [done|].
    destruct (tunnels c) as [|n rest]; cbn; intros [= <- <- <-].
    - split; [done|]. split; [done|]. intros s. apply not_elem_of_nil.
    - split; [done|]. split.
      + intros H0 u. apply (Hattach (set_handlers (set_tunnels c rest)
                                      tunnel Unset) n u).
        apply Hset. apply H0.
      + intros s H%list_elem_of_singleton. discriminate. }
  destruct i as [tunnel status|tunnel state|tunnel opcode elements|data];
    cbn [step].
  - destruct (handlers_of c tunnel) eqn:Eh; cbn [fst snd].
    + intros Hc. split; [done|]. split; [by apply Hinv|].
      intros s. apply not_elem_of_nil.
    + unfold wrapped_onerror.
      destruct (failTunnel c tunnel status) as [[[c' acts] next]|] eqn:Ef;
        cbn [fst snd].
      * destruct (Hfail _ _ _ _ _ Ef) as (Hc' & Hh & Ha).
        intros Hc. rewrite Hc' in Hc. split; [done|].
        split; [by apply Hh, Hinv|]. intros s [H|H]%elem_of_app;
          [by apply (Ha s)|].
        destruct status as [s0|]; [done|]. revert H.
        destruct next; [apply not_elem_of_nil|]. by apply Hif.
      * intros Hc. split; [done|]. split; [by apply Hinv|].
        intros s H%list_elem_of_singleton. discriminate.
    + intros Hc. by destruct (Hinv Hc tunnel).
  - destruct (handlers_of c tunnel) eqn:Eh; cbn [fst snd].
    + intros Hc. split; [done|]. split; [by apply Hinv|].
      intros s. apply not_elem_of_nil.
    + unfold wrapped_onstatechange. destruct state; cbn [fst snd].
      * intros Hc. split; [done|]. split; [by apply Hinv|].
        intros s. apply not_elem_of_nil.
      * done.
      * destruct (failTunnel c tunnel None) as [[[c' acts] next]|] eqn:Ef;
          cbn [fst snd].
        -- destruct (Hfail _ _ _ _ _ Ef) as (Hc' & Hh & Ha).
           intros Hc. rewrite Hc' in Hc. split; [done|].
           split; [by apply Hh, Hinv|]. intros s [H|H]%elem_of_app;
             [by apply (Ha s)|].
           revert H. destruct next; [apply not_elem_of_nil|]. by apply Hif.
        -- intros Hc. split; [done|]. split; [by apply Hinv|].
           intros s H%list_elem_of_singleton. discriminate.
    + intros Hc. by destruct (Hinv Hc tunnel).
  - destruct (handlers_of c tunnel) eqn:Eh; cbn [fst snd].
    + intros Hc. split; [done|]. split; [by apply Hinv|].
      intros s. apply not_elem_of_nil.
    + done.
    + intros Hc. by destruct (Hinv Hc tunnel).
  - unfold connect. cbn [committedTunnel tunnels].
    destruct (committedTunnel c) as [n|] eqn:Ec; [done|].
    destruct (tunnels c) as [|n rest]; cbn [fst snd attach committedTunnel].
    + intros _. split; [done|]. split; [by apply Hinv|].
      intros s. by apply Hif.
    + intros _. split; [done|]. split.
      * intros u. unfold handlers_of. cbn [handlers set_tunnels].
        rewrite handlers_insert. destruct (decide (n = u)); [done|].
        by apply Hinv.
      * intros s H%list_elem_of_singleton. discriminate.
Qed.

Lemma run_uncommitted (inputs : list Input) :
  forall c : ChainedTunnel.t,
    (committedTunnel c = None -> forall u, handlers_of c u <> Forwarding) ->
    committedTunnel (fst (run c inputs)) = None ->
    committedTunnel c = None /\
    forall s, Error (Some s) ∉ snd (run c inputs).
Proof.
  induction inputs as [|i rest IH]; intros c Hinv Hc.
  { split; [done|]. intros s. apply not_elem_of_nil. }
  cbn [run] in Hc |- *.
  pose proof (step_uncommitted c i Hinv) as Hstep.
  destruct (step c i) as [c1 acts1]. cbn [fst snd] in Hstep.
  assert (committedTunnel c1 = None ->
          forall u, handlers_of c1 u <> Forwarding) as Hinv1.
  { intros H. by destruct (Hstep H) as (_ & Hh & _). }
  specialize (IH c1 Hinv1). destruct (run c1 rest) as [c2 acts2].
  cbn [fst snd] in *.
  destruct (IH Hc) as [Hc1 Ha2]. destruct (Hstep Hc1) as (Hc0 & _ & Ha1).
  split; [done|].
  intros s [H|H]%elem_of_app; [by apply (Ha1 s) | by apply (Ha2 s)].
Qed.

(** X6: As long as no tunnel is committed, the
    consumer's [onerror] is never called with a status, whatever the
    inner tunnels report and however often [connect] is called: before
    commitment an error that comes with a status ends in the
    ReferenceError of [failTunnel]. *)
Theorem status_not_reported_before_commit (chain : list nat)
  (oe oi os : bool) (inputs : list Input) (status : Status.t) :
  committedTunnel (fst (run (ChainedTunnel.new chain oe oi os) inputs))
  = None ->
  Error (Some status) ∉ snd (run (ChainedTunnel.new chain oe oi os) inputs).
Proof.
  intros Hc.
  apply (run_uncommitted inputs (ChainedTunnel.new chain oe oi os));
    [|exact Hc].
  intros _ u. unfold handlers_of. cbn [handlers ChainedTunnel.new].
  by rewrite lookup_empty.
Qed.

Lemma status_not_reported_before_commit_witness :
  Error (Some (Status.mk (Num Status.SERVER_ERROR) None))
  ∉ snd (run (ChainedTunnel.new [0%nat; 1%nat] true true true)
           [CallConnect None;
            TunnelError 0 (Some (Status.mk (Num Status.SERVER_ERROR) None));
            TunnelStateChange 0 Tunnel.CLOSED;
            TunnelError 1 (Some (Status.mk (Num Status.SERVER_ERROR) None));
            TunnelStateChange 1 Tunnel.CLOSED]).
Proof.
  apply (status_not_reported_before_commit [0%nat; 1%nat] true true true
           [CallConnect None;
            TunnelError 0 (Some (Status.mk (Num Status.SERVER_ERROR) None));
            TunnelStateChange 0 Tunnel.CLOSED;
            TunnelError 1 (Some (Status.mk (Num Status.SERVER_ERROR) None));
            TunnelStateChange 1 Tunnel.CLOSED]).
  reflexivity.
Defined.

End ChainCommit.

(** ** IntegerPool *)
Section Pool.

Import JS IntegerPool IntegerPoolUse.

Lemma filter_ne_Permutation (l : list jsnum) (i : jsnum) :
  NoDup l -> i ∈ l -> l ≡ₚ i :: filter (fun j => j <> i) l.
Proof.
  induction l as [|a l IH]; intros Hnd Hin; [by apply elem_of_nil in Hin|].
  apply NoDup_cons in Hnd as [Ha Hnd].
  destruct (decide (a = i)) as [->|Hne].
  - rewrite filter_cons_False by (intros H; by apply H).
    constructor. clear IH Hnd Hin.
    induction l as [|b l IH]; [done|].
    rewrite not_elem_of_cons in Ha. destruct Ha as [Hb Ha].
    rewrite filter_cons_True by (intros ->; by apply Hb).
    constructor. by apply IH.
  - rewrite filter_cons_True by done.
    apply elem_of_cons in Hin as [->|Hin]; [done|].
    rewrite (IH Hnd Hin) at 1. apply Permutation_swap.
Qed.

Lemma below_succ (n : Z) : 0 <= n -> below (n + 1) = below n ++ [Num n].
Proof.
  intros Hn. unfold below, seqZ.
  replace (Z.to_nat (n + 1)) with (S (Z.to_nat n)) by lia.
  rewrite seq_S, !fmap_app. cbn. do 3 f_equal. lia.
Qed.

Lemma NoDup_below (n : Z) : NoDup (below n).
Proof.
  unfold below. apply NoDup_fmap_2; [|apply NoDup_seqZ].
  by intros x y [= ->].
Qed.

(** The invariant: the held and the freed integers are the integers
    below [next_int], each once. *)
Lemma run_partition (ops : list Op) (p : IntegerPool.t)
  (held : list jsnum) :
  0 <= next_int p ->
  held ++ pool p ≡ₚ below (next_int p) ->
  disciplined p held ops = true ->
  0 <= next_int (fst (run p held ops)) /\
  snd (run p held ops) ++ pool (fst (run p held ops))
  ≡ₚ below (next_int (fst (run p held ops))).
Proof.
  revert p held.
  induction ops as [|[|i] rest IH]; intros p held Hn Hp Hd; [done| |].
  - cbn [run disciplined] in *. unfold next in *.
    destruct (pool p) as [|i q] eqn:Eq.
    + apply IH; [cbn; lia| |exact Hd]. cbn [pool next_int].
      rewrite below_succ by done. rewrite app_nil_r in *.
      rewrite <- Hp. cbn. by rewrite Permutation_cons_append.
    + apply IH; [done| |exact Hd]. cbn [pool next_int].
      rewrite <- Hp. cbn. by rewrite Permutation_middle.
  - cbn [run disciplined] in *.
    apply andb_true_iff in Hd as [Hi Hd]. apply bool_decide_eq_true in Hi.
    apply IH; [done| |exact Hd]. cbn [free pool next_int].
    rewrite <- Hp.
    assert (NoDup held) as Hnd.
    { pose proof (NoDup_below (next_int p)) as H. rewrite <- Hp in H.
      by apply NoDup_app in H as [H _]. }
    rewrite (filter_ne_Permutation held i Hnd Hi) at 2.
    rewrite app_assoc. cbn.
    rewrite <- (Permutation_cons_append _ i). cbn.
    constructor. by rewrite Permutation_app_comm.
Qed.

(** X7: While the caller frees only integers it holds,
    the integers it holds and the integers freed and not handed out again
    are together the integers 0 up to [next_int] - 1, each exactly once;
    and the integer that [next()] returns then is not one the caller
    holds. *)
Theorem pool_never_hands_out_held (ops : list Op) :
  disciplined IntegerPool.new [] ops = true ->
  let p := fst (run IntegerPool.new [] ops) in
  let held := snd (run IntegerPool.new [] ops) in
  held ++ pool p ≡ₚ below (next_int p) /\
  (fst (next p) ∉ held) /\
  next_int p = Z.of_nat (length held + length (pool p)).
Proof.
  intros Hd p held.
  destruct (run_partition ops IntegerPool.new []) as [Hn Hp];
    [done|done|exact Hd|].
  fold p held in Hn, Hp. split; [exact Hp|]. split.
  - pose proof (NoDup_below (next_int p)) as Hnd. rewrite <- Hp in Hnd.
    unfold next. destruct (pool p) as [|i q] eqn:Eq; cbn [fst].
    + intros Hin. rewrite app_nil_r in Hp. rewrite Hp in Hin.
      unfold below in Hin. apply list_elem_of_fmap in Hin as [z [[= <-] Hz]].
      apply elem_of_seqZ in Hz. lia.
    + apply NoDup_app in Hnd as (_ & Hdis & _). intros Hin.
      apply (Hdis i Hin). by left.
  - rewrite <- length_app, Hp. unfold below.
    rewrite length_fmap, length_seqZ. lia.
Qed.

Lemma pool_never_hands_out_held_witness :
  let ops := [Next; Next; Next; Free (Num 1); Free (Num 0); Next] in
  let p := fst (run IntegerPool.new [] ops) in
  let held := snd (run IntegerPool.new [] ops) in
  held ++ pool p ≡ₚ below (next_int p) /\
  (fst (next p) ∉ held) /\
  next_int p = Z.of_nat (length held + length (pool p)).
Proof.
  apply (pool_never_hands_out_held
           [Next; Next; Next; Free (Num 1); Free (Num 0); Next]).
  apply (bool_decide_unpack
           (disciplined IntegerPool.new []
              [Next; Next; Next; Free (Num 1); Free (Num 0); Next] = true)).
  vm_compute. exact I.
Defined.

End Pool.

(** ** ArrayBufferWriter: what the blobs carry *)
Section BlobCover.

Import ArrayBufferWriter.

Lemma subarray_length {A : Type} (bytes : list A) (offset : Z) :
  (length (subarray bytes offset (offset + 8094)) <= Z.to_nat 8094)%nat.
Proof.
  unfold subarray. rewrite length_take.
  replace (offset + 8094 - offset) with 8094 by lia. lia.
Qed.

Lemma send_loop_cover {A : Type} (bytes : list A) (fuel : nat) :
  forall offset : Z,
    0 <= offset -> Z.of_nat (length bytes) <= offset + Z.of_nat fuel ->
    concat (map (take (Z.to_nat 8064)) (send_loop fuel bytes offset))
    = drop (Z.to_nat offset) bytes /\
    Forall (fun blob => (length blob <= Z.to_nat 8094)%nat)
      (send_loop fuel bytes offset).
Proof.
  induction fuel as [|fuel IH]; intros offset H0 H; cbn [send_loop].
  - split; [|constructor]. cbn. rewrite drop_ge; [done | lia].
  - destruct (Z.ltb_spec offset (Z.of_nat (length bytes))) as [Hlt|Hge].
    + destruct (IH (offset + 8064)) as [IHc IHl]; [lia|lia|].
      split; [|constructor; [apply subarray_length | exact IHl]].
      cbn [map concat]. rewrite IHc. unfold subarray.
      replace (offset + 8094 - offset) with 8094 by lia.
      rewrite take_take.
      replace (Z.to_nat 8064 `min` Z.to_nat 8094)%nat with (Z.to_nat 8064)
        by lia.
      replace (Z.to_nat (offset + 8064))
        with (Z.to_nat offset + Z.to_nat 8064)%nat by lia.
      rewrite <- drop_drop. apply take_drop.
    + split; [|constructor]. cbn. rewrite drop_ge; [done | lia].
Qed.

Lemma concat_take_length {A : Type} (n : nat) (l : list (list A)) :
  (length (concat (map (take n) l)) <= length (concat l))%nat.
Proof.
  induction l as [|a l IH]; [done|]. cbn [map concat].
  rewrite !length_app, length_take. lia.
Qed.

Lemma sendData_blobs_prefixes {A : Type} (bytes : list A) :
  concat (map (take (Z.to_nat 8064)) (sendData_blobs bytes)) = bytes /\
  Forall (fun blob => (length blob <= Z.to_nat 8094)%nat)
    (sendData_blobs bytes).
Proof.
  unfold sendData_blobs.
  destruct (Z.leb_spec (Z.of_nat (length bytes)) 8064) as [Hle|Hgt].
  - split.
    + cbn [map concat]. rewrite app_nil_r. apply take_ge. lia.
    + constructor; [lia | constructor].
  - destruct (send_loop_cover bytes (length bytes) 0) as [Hc Hl]; [lia|lia|].
    split; [exact Hc | exact Hl].
Qed.

(** X8: Whatever the data, no byte is dropped and no blob is
    longer than 8094 bytes: the first 8064 bytes of the blobs, one after
    the other, are the data; empty data is sent as one empty blob. *)
Theorem sendData_blobs_cover {A : Type} (bytes : list A) :
  concat (map (take (Z.to_nat 8064)) (sendData_blobs bytes)) = bytes /\
  Forall (fun blob => (length blob <= Z.to_nat 8094)%nat)
    (sendData_blobs bytes) /\
  sendData_blobs (@nil A) = [[]].
Proof.
  destruct (sendData_blobs_prefixes bytes) as [Hc Hl].
  split; [exact Hc|]. split; [exact Hl | reflexivity].
Qed.

(** X9: The blobs, one after the other, are the data
    exactly when the data has at most 8064 bytes; for any longer data
    the blobs together hold more bytes than the data: the receiver gets
    more bytes than were sent. *)
Theorem sendData_blobs_intact_iff {A : Type} (bytes : list A) :
  (concat (sendData_blobs bytes) = bytes <->
   Z.of_nat (length bytes) <= 8064) /\
  (Z.of_nat (length bytes)
     < Z.of_nat (length (concat (sendData_blobs bytes))) <->
   8064 < Z.of_nat (length bytes)).
Proof.
  assert (8064 < Z.of_nat (length bytes) ->
          Z.of_nat (length bytes)
          < Z.of_nat (length (concat (sendData_blobs bytes)))) as Hlong.
  { intros Hgt. destruct (sendData_blobs_first bytes) as [rest Er]; [lia|].
    pose proof (proj1 (sendData_blobs_prefixes bytes)) as Hc.
    rewrite Er in Hc |- *. cbn [map concat] in Hc |- *.
    apply (f_equal length) in Hc. rewrite length_app in Hc |- *.
    rewrite !length_take in *.
    pose proof (concat_take_length (Z.to_nat 8064) rest). lia. }
  assert (Z.of_nat (length bytes) <= 8064 ->
          concat (sendData_blobs bytes) = bytes) as Hshort.
  { intros Hle. rewrite sendData_blobs_small by exact Hle.
    cbn. apply app_nil_r. }
  split; split.
  - intros E. destruct (Z.le_gt_cases (Z.of_nat (length bytes)) 8064)
      as [Hle|Hgt]; [exact Hle | exfalso].
    specialize (Hlong Hgt). rewrite E in Hlong. lia.
  - exact Hshort.
  - intros Hlt. destruct (Z.le_gt_cases (Z.of_nat (length bytes)) 8064)
      as [Hle|Hgt]; [exfalso | exact Hgt].
    rewrite (Hshort Hle) in Hlt. lia.
  - exact Hlong.
Qed.

End BlobCover.

(** ** StringWriter to StringReader *)
Section TextRoundTrip.

Import StringReader.

Lemma decode_encode_text (text : jsstring) :
  Forall (fun c => 0 <= c <= 0xFFFF) text ->
  forall st, bytes_remaining st = 0 ->
    snd (decode_utf8 st (flat_map StringWriter.append_utf8 text)) = text /\
    bytes_remaining
      (fst (decode_utf8 st (flat_map StringWriter.append_utf8 text))) = 0.
Proof.
  induction 1 as [|c text Hc Ht IH]; intros st Hst; [by split|].
  cbn [flat_map]. rewrite decode_utf8_app. cbn [fst snd].
  assert (alike st StringReader.new) as Ha
    by (split; [exact Hst | intros; lia]).
  destruct (decode_utf8_alike (StringWriter.append_utf8 c) _ _ Ha)
    as [Et [Er _]].
  destruct (decode_encode_new c Hc) as [Et' Er'].
  destruct (IH (fst (decode_utf8 st (StringWriter.append_utf8 c))))
    as [IHt IHr]; [by rewrite Er|].
  split; [by rewrite Et, Et', IHt | exact IHr].
Qed.

(** X10: A text (its code units are at most 0xFFFF)
    encoded by the StringWriter and decoded by a new StringReader comes
    back, however the bytes are cut into blobs on the way, and the reader
    is left expecting no byte; this holds for the blobs of [sendText]
    when the encoded text has at most 8064 bytes. *)
Theorem text_round_trip (text : jsstring) (chunks : list (list Z)) :
  Forall (fun c => 0 <= c <= 0xFFFF) text ->
  concat chunks = flat_map StringWriter.append_utf8 text ->
  concat (snd (decode_chunks StringReader.new chunks)) = text /\
  bytes_remaining (fst (decode_chunks StringReader.new chunks)) = 0 /\
  (StringWriter.utf8_length text <= 8064 ->
   concat (snd (decode_chunks StringReader.new
                  (TextStream.sendText_blobs text))) = text).
Proof.
  intros Ht Hc.
  assert (forall chunks,
            concat chunks = flat_map StringWriter.append_utf8 text ->
            concat (snd (decode_chunks StringReader.new chunks)) = text /\
            bytes_remaining (fst (decode_chunks StringReader.new chunks))
            = 0) as H.
  { clear chunks Hc. intros chunks Hc.
    destruct (decode_encode_text text Ht StringReader.new eq_refl)
      as [Et Er].
    rewrite <- Hc, decode_chunks_concat in Et, Er. by cbn [fst snd] in *. }
  destruct (H chunks Hc) as [H1 H2]. split; [exact H1|].
  split; [exact H2|]. intros Hl. apply H.
  unfold TextStream.sendText_blobs, StringWriter.encode_utf8.
  unfold StringWriter.utf8_length, strlen in Hl.
  destruct (flat_map StringWriter.append_utf8 text) as [|b bytes] eqn:E.
  - reflexivity.
  - rewrite sendData_blobs_small by exact Hl.
    cbn. by rewrite app_nil_r.
Qed.

Lemma text_round_trip_witness :
  concat (snd (decode_chunks StringReader.new
                 [[0x41; 0xC3]; [0xA9; 0xE4; 0xB8]; []; [0x96]]))
  = [0x41; 0xE9; 0x4E16] /\
  bytes_remaining
    (fst (decode_chunks StringReader.new
            [[0x41; 0xC3]; [0xA9; 0xE4; 0xB8]; []; [0x96]])) = 0 /\
  (StringWriter.utf8_length [0x41; 0xE9; 0x4E16] <= 8064 ->
   concat (snd (decode_chunks StringReader.new
                  (TextStream.sendText_blobs [0x41; 0xE9; 0x4E16])))
   = [0x41; 0xE9; 0x4E16]).
Proof.
  apply (text_round_trip [0x41; 0xE9; 0x4E16]
           [[0x41; 0xC3]; [0xA9; 0xE4; 0xB8]; []; [0x96]]).
  - repeat (apply Forall_cons_2; [lia|]). apply Forall_nil_2.
  - reflexivity.
Defined.

End TextRoundTrip.

(** ** StringWriter: the buffer holds the encoded text *)
Section WriterBuffer.

Import StringWriterBuffer.

Lemma trailing_byte_fits (codepoint : Z) :
  Z.lor 0x80 (Z.land codepoint 0x3F) mod 256
  = Z.lor 0x80 (Z.land codepoint 0x3F).
Proof.
  change 0x3F with (Z.ones 6). rewrite Z.land_ones by lia.
  pose proof (Z.mod_pos_bound codepoint (2 ^ 6) eq_refl) as Hx.
  apply Z.eqb_eq.
  apply (forall_range_spec
           (fun x => Z.lor 0x80 x mod 256 =? Z.lor 0x80 x) 64 0);
    [vm_compute; reflexivity | lia].
Qed.

Lemma trailing_bytes_length (n : nat) :
  forall codepoint acc,
    List.length (snd (StringWriter.trailing_bytes n codepoint acc))
    = (n + List.length acc)%nat.
Proof.
  induction n as [|n IH]; intros codepoint acc; [done|].
  cbn [StringWriter.trailing_bytes]. rewrite IH. cbn. lia.
Qed.

Lemma store_middle (P S : list Z) (x value : Z) :
  store (P ++ x :: S) (strlen P) value = P ++ value mod 256 :: S.
Proof.
  unfold store, strlen. rewrite (proj2 (Z.leb_le _ _)) by lia.
  rewrite Nat2Z.id.
  replace (List.length P) with (List.length P + 0)%nat at 1 by lia.
  by rewrite insert_app_r.
Qed.

(** The loop fills the slots below [offset] down to the one after [P],
    with the bytes of the list model. *)
Lemma write_trailing_spec (n : nat) :
  forall (P X acc S : list Z) (x0 codepoint : Z),
    List.length X = n ->
    write_trailing n (P ++ x0 :: X ++ acc ++ S)
      (strlen P + Z.of_nat n) codepoint
    = (P ++ x0 :: snd (StringWriter.trailing_bytes n codepoint acc) ++ S,
       strlen P,
       fst (StringWriter.trailing_bytes n codepoint acc)).
Proof.
  induction n as [|n IH]; intros P X acc S x0 codepoint HX.
  - destruct X; [|done]. cbn. by rewrite Z.add_0_r.
  - destruct X as [|xl X _] using rev_ind; [done|].
    rewrite length_app in HX. cbn in HX.
    cbn [write_trailing StringWriter.trailing_bytes].
    replace (P ++ x0 :: (X ++ [xl]) ++ acc ++ S)
      with ((P ++ x0 :: X) ++ xl :: acc ++ S)
      by (by rewrite <- !app_assoc).
    replace (strlen P + Z.of_nat (Datatypes.S n))
      with (strlen (P ++ x0 :: X))
      by (unfold strlen; rewrite length_app; cbn; lia).
    rewrite store_middle, trailing_byte_fits.
    replace (strlen (P ++ x0 :: X) - 1) with (strlen P + Z.of_nat n)
      by (unfold strlen; rewrite length_app; cbn; lia).
    replace ((P ++ x0 :: X) ++
             Z.lor 0x80 (Z.land codepoint 0x3F) :: acc ++ S)
      with (P ++ x0 :: X ++
            (Z.lor 0x80 (Z.land codepoint 0x3F) :: acc) ++ S)
      by (by rewrite <- !app_assoc).
    apply IH. lia.
Qed.

Lemma expand_spec (w : StringWriterBuffer.t) (bytes : Z) :
  0 <= length w <= strlen (buffer w) -> 0 <= bytes ->
  exists w1,
    expand w bytes = Some w1 /\ length w1 = length w + bytes /\
    length w1 <= strlen (buffer w1) /\
    take (Z.to_nat (length w)) (buffer w1) = written w.
Proof.
  intros Hw Hb. unfold expand, set, written.
  destruct (Z.geb_spec (length w + bytes) (strlen (buffer w))) as [Hge|Hlt].
  - assert (strlen (replicate (Z.to_nat ((length w + bytes) * 2)) 0)
            = (length w + bytes) * 2) as Hr
      by (unfold strlen; rewrite length_replicate; lia).
    rewrite Hr, (proj2 (Z.leb_le _ _)) by lia.
    eexists. split; [reflexivity|]. cbn [length buffer].
    split; [done|]. split.
    + unfold strlen in *. rewrite length_app, length_drop, length_replicate.
      lia.
    + rewrite take_app_le by (unfold strlen in *; lia). done.
  - eexists. split; [reflexivity|]. cbn [length buffer].
    split; [done|]. split; [lia | done].
Qed.

Lemma write_utf8_spec (w : StringWriterBuffer.t) (mask bytes codepoint : Z) :
  0 <= length w <= strlen (buffer w) -> 1 <= bytes ->
  exists w1,
    write_utf8 w mask bytes codepoint = Some w1 /\
    0 <= length w1 <= strlen (buffer w1) /\
    written w1
    = written w ++ StringWriter.write_utf8 mask (Z.to_nat bytes) codepoint.
Proof.
  intros Hw Hb.
  destruct (expand_spec w bytes Hw) as (w1 & E & Hl & Hs & Ht); [lia|].
  unfold write_utf8, written in *. rewrite E.
  set (n := Z.to_nat (bytes - 1)).
  set (P := take (Z.to_nat (length w)) (buffer w1)).
  set (D := drop (Z.to_nat (length w)) (buffer w1)).
  assert (buffer w1 = P ++ D) as EB by (symmetry; apply take_drop).
  assert (strlen P = length w) as HP
    by (unfold P, strlen in *; rewrite length_take; lia).
  assert (List.length D = (Datatypes.S n + (List.length D - Datatypes.S n))%nat)
    as HD.
  { unfold D, strlen in *. rewrite length_drop. lia. }
  assert (D = take (Datatypes.S n) D ++ drop (Datatypes.S n) D) as ED
    by (symmetry; apply take_drop).
  assert (List.length (take (Datatypes.S n) D) = Datatypes.S n) as HT
    by (rewrite length_take; lia).
  destruct (take (Datatypes.S n) D) as [|x0 X] eqn:ET; [done|].
  set (S := drop (Datatypes.S n) D) in *.
  assert (buffer w1 = P ++ x0 :: X ++ [] ++ S) as EB'
    by (rewrite EB, ED; reflexivity).
  rewrite EB'.
  replace (length w1 - 1) with (strlen P + Z.of_nat n) by lia.
  rewrite write_trailing_spec by (cbn in HT; lia).
  rewrite store_middle.
  eexists. split; [reflexivity|]. cbn [length buffer].
  pose proof (trailing_bytes_length n codepoint []) as Hn. cbn in Hn.
  split.
  - unfold strlen in *. rewrite length_app. cbn [List.length].
    rewrite length_app, Hn. lia.
  - rewrite <- Ht. fold P.
    set (bs := Z.lor mask (fst (StringWriter.trailing_bytes n codepoint []))
               mod 256
               :: snd (StringWriter.trailing_bytes n codepoint [])).
    replace (Z.to_nat (length w1)) with (List.length P + List.length bs)%nat
      by (unfold strlen, bs in *; cbn [List.length]; lia).
    rewrite take_app_add' by reflexivity.
    change (take (List.length bs) _) with (take (List.length bs) (bs ++ S)).
    rewrite take_app_length.
    unfold bs, StringWriter.write_utf8.
    replace (Z.to_nat bytes - 1)%nat with n by lia.
    by destruct (StringWriter.trailing_bytes n codepoint []).
Qed.

Lemma append_utf8_spec (w : StringWriterBuffer.t) (codepoint : Z) :
  0 <= length w <= strlen (buffer w) ->
  exists w1,
    append_utf8 w codepoint = Some w1 /\
    0 <= length w1 <= strlen (buffer w1) /\
    written w1 = written w ++ StringWriter.append_utf8 codepoint.
Proof.
  intros Hw. unfold append_utf8, StringWriter.append_utf8.
  repeat match goal with
         | |- context [if ?b then _ else _] => destruct b
         end; by apply write_utf8_spec.
Qed.

Lemma fill_spec (text : jsstring) :
  forall w : StringWriterBuffer.t,
    0 <= length w <= strlen (buffer w) ->
    exists w1,
      fill w text = Some w1 /\
      0 <= length w1 <= strlen (buffer w1) /\
      written w1 = written w ++ flat_map StringWriter.append_utf8 text.
Proof.
  induction text as [|codepoint rest IH]; intros w Hw.
  - exists w. cbn [flat_map]. by rewrite app_nil_r.
  - destruct (append_utf8_spec w codepoint Hw) as (w1 & E & Hw1 & Ht).
    destruct (IH w1 Hw1) as (w2 & E2 & Hw2 & Ht2).
    exists w2. cbn [fill flat_map]. rewrite E.
    split; [exact E2|]. split; [exact Hw2|].
    by rewrite Ht2, Ht, app_assoc.
Qed.

Lemma encode_utf8_spec (w : StringWriterBuffer.t) (text : jsstring) :
  length w = 0 ->
  exists w1,
    encode_utf8 w text = Some (w1, StringWriter.encode_utf8 text) /\
    length w1 = 0.
Proof.
  intros Hw.
  destruct (fill_spec text w) as (w1 & E & Hw1 & Ht);
    [unfold strlen; lia|].
  unfold written in Ht. rewrite Hw in Ht.
  change (Z.to_nat 0) with 0%nat in Ht. rewrite take_0 in Ht.
  cbn [app] in Ht.
  unfold encode_utf8, StringWriter.encode_utf8. rewrite E, <- Ht.
  destruct (Z.gtb_spec (length w1) 0) as [Hgt|Hle].
  - exists {| buffer := buffer w1; length := 0 |}. split; [|reflexivity].
    unfold ArrayBufferWriter.subarray. rewrite Z.sub_0_r.
    change (Z.to_nat 0) with 0%nat. rewrite drop_0.
    destruct (take (Z.to_nat (length w1)) (buffer w1)) eqn:Ek; [|done].
    apply (f_equal List.length) in Ek. rewrite length_take in Ek.
    unfold strlen in *. cbn in Ek. lia.
  - exists w1. replace (length w1) with 0 by lia.
    change (Z.to_nat 0) with 0%nat. by rewrite take_0.
Qed.

(** The buffer of the writer and the bytes [__append_utf8] is to
    write agree, whatever texts are sent. *)
Lemma encode_all_spec (texts : list jsstring) :
  encode_all StringWriterBuffer.new texts
  = Some (map StringWriter.encode_utf8 texts).
Proof.
  assert (forall w, length w = 0 ->
            encode_all w texts = Some (map StringWriter.encode_utf8 texts))
    as H; [|by apply H].
  induction texts as [|text rest IH]; intros w Hw; [done|].
  destruct (encode_utf8_spec w text Hw) as (w1 & E & Hw1).
  cbn [encode_all map]. by rewrite E, (IH w1 Hw1).
Qed.

(** For a code unit the masks and shifts of [__append_utf8] give the
    bytes of the standard's table: checked for each of the 65536. *)
Lemma append_utf8_code_unit (c : Z) :
  is_code_unit c -> StringWriter.append_utf8 c = utf8_bytes c.
Proof.
  intros Hc. unfold is_code_unit in Hc.
  pose (P := fun z =>
               bool_decide (StringWriter.append_utf8 z = utf8_bytes z)).
  assert (forall_range P 0 (Z.to_nat 65536) = true) as H
    by (vm_compute; reflexivity).
  pose proof (forall_range_spec P _ 0 H c ltac:(lia)) as Hp.
  unfold P in Hp. by apply bool_decide_eq_true in Hp.
Qed.

(** X11: Whatever texts are sent one after the other
    through a new StringWriter, its buffer never overflows and copying it
    never fails: each [sendText] hands to [sendData], for the code units
    of its text one after the other, the one, two or three bytes that
    UTF-8 gives the code point of that value, and nothing for the empty
    text.  A surrogate is encoded on its own, in three bytes. *)
Theorem buffer_holds_encoded_text (texts : list jsstring) :
  Forall (Forall is_code_unit) texts ->
  encode_all StringWriterBuffer.new texts
  = Some (map utf8_of_code_units texts).
Proof.
  intros Hall. rewrite encode_all_spec. f_equal.
  induction Hall as [|text rest Ht _ IH]; [done|].
  cbn [map]. rewrite IH. f_equal.
  unfold StringWriter.encode_utf8, utf8_of_code_units.
  replace (flat_map StringWriter.append_utf8 text)
    with (flat_map utf8_bytes text); [done|].
  induction Ht as [|c text Hc _ IHt]; [done|].
  cbn [flat_map]. by rewrite IHt, (append_utf8_code_unit c Hc).
Qed.

(** The letter A followed by U+1F600, which a string holds as the
    surrogates D83D and DE00, and then the empty text. *)
Lemma buffer_holds_encoded_text_witness :
  encode_all StringWriterBuffer.new [[0x41; 0xD83D; 0xDE00]; []]
  = Some [Some [0x41; 0xED; 0xA0; 0xBD; 0xED; 0xB8; 0x80]; None].
Proof.
  apply (buffer_holds_encoded_text [[0x41; 0xD83D; 0xDE00]; []]).
  apply Forall_cons_2.
  - repeat (apply Forall_cons_2; [unfold is_code_unit; lia|]).
    apply Forall_nil_2.
  - apply Forall_cons_2; apply Forall_nil_2.
Defined.

End WriterBuffer.

(** ** Client.DefaultTransferFunction *)
Section TransferTable.

Import Pixel TransferFunction.

Lemma is_byte_land (v : Z) : is_byte v <-> Z.land v 0xFF = v.
Proof.
  unfold is_byte. change 0xFF with (Z.ones 8). rewrite Z.land_ones by lia.
  split; [intros H; apply Z.mod_small; exact H|].
  intros <-. apply Z.mod_pos_bound. lia.
Qed.

Lemma is_byte_mask (v : Z) : is_byte (Z.land 0xFF v).
Proof.
  apply is_byte_land.
  by rewrite <- Z.land_assoc, (Z.land_comm v), Z.land_assoc, Z.land_diag.
Qed.

Lemma is_byte_and (a b : Z) : is_byte a -> is_byte b -> is_byte (Z.land a b).
Proof.
  rewrite !is_byte_land. intros Ha Hb. by rewrite <- Z.land_assoc, Hb.
Qed.

Lemma is_byte_or (a b : Z) : is_byte a -> is_byte b -> is_byte (Z.lor a b).
Proof.
  rewrite !is_byte_land. intros Ha Hb.
  by rewrite Z.land_lor_distr_l, Ha, Hb.
Qed.

Lemma is_byte_xor (a b : Z) : is_byte a -> is_byte b -> is_byte (Z.lxor a b).
Proof.
  rewrite !is_byte_land. intros Ha Hb. rewrite <- Ha, <- Hb.
  apply Z.bits_inj'. intros n Hn.
  rewrite !Z.land_spec, !Z.lxor_spec, !Z.land_spec.
  by destruct (Z.testbit a n), (Z.testbit b n), (Z.testbit 0xFF n).
Qed.

Lemma testbit_mask (i : Z) : 0 <= i < 8 -> Z.testbit 0xFF i = true.
Proof. intros H. change 0xFF with (Z.ones 8). apply Z.ones_spec_low. lia. Qed.

Local Ltac byte :=
  first [ apply is_byte_mask
        | apply is_byte_and; assumption
        | apply is_byte_or; assumption
        | apply is_byte_xor; assumption
        | assumption
        | unfold is_byte; lia ].

Local Ltac table s d :=
  split; [byte|];
  let i := fresh "i" in
  let Hi := fresh "Hi" in
  intros i Hi; unfold table_bit;
  rewrite ?Z.land_spec, ?Z.lor_spec, ?Z.lxor_spec, ?Z.lnot_spec,
    ?Z.land_spec, ?Z.lor_spec, ?Z.lxor_spec, ?testbit_mask, ?Z.bits_0
    by lia;
  destruct (Z.testbit s i), (Z.testbit d i); reflexivity.

(** X12: The sixteen transfer functions are the sixteen
    binary raster operations, numbered by their truth table: on pixels
    of bytes, every bit of the red, green and blue of the result is the
    bit of the function index selected by the source bit and the
    destination bit, and the result is a byte again.  The alpha of the
    destination is kept, except by SRC (3) and Invert SRC (12), which
    take the alpha of the source. *)
Theorem transfer_function_truth_table (function_index : Z)
  (f : Pixel.t -> Pixel.t -> Pixel.t) (src dst : Pixel.t) :
  DefaultTransferFunction function_index = Some f ->
  is_byte (red src) -> is_byte (green src) -> is_byte (blue src) ->
  is_byte (red dst) -> is_byte (green dst) -> is_byte (blue dst) ->
  follows_table function_index (red (f src dst)) (red src) (red dst) /\
  follows_table function_index (green (f src dst)) (green src) (green dst) /\
  follows_table function_index (blue (f src dst)) (blue src) (blue dst) /\
  alpha (f src dst)
  = if (function_index =? 0x3) || (function_index =? 0xC)
    then alpha src else alpha dst.
Proof.
  intros Hf Hsr Hsg Hsb Hdr Hdg Hdb.
  destruct src as [sr sg sb sa], dst as [dr dg db da].
  cbn [red green blue alpha] in *.
  unfold DefaultTransferFunction in Hf.
  destruct function_index as [|p|p]; [| |done];
    repeat (try destruct p as [p|p|]; try discriminate Hf);
    injection Hf as <-; cbn [red green blue alpha];
    (split; [table sr dr|]); (split; [table sg dg|]);
    (split; [table sb db|]); reflexivity.
Qed.

Lemma transfer_function_truth_table_witness :
  let f := fun src dst : Pixel.t =>
    {| red := Z.lxor (red src) (red dst);
       green := Z.lxor (green src) (green dst);
       blue := Z.lxor (blue src) (blue dst);
       alpha := alpha dst |} in
  let src := Pixel.mk 0xF0 0x0F 0xAA 0xFF in
  let dst := Pixel.mk 0x3C 0xFF 0x55 0x80 in
  follows_table 0x6 (red (f src dst)) (red src) (red dst) /\
  follows_table 0x6 (green (f src dst)) (green src) (green dst) /\
  follows_table 0x6 (blue (f src dst)) (blue src) (blue dst) /\
  alpha (f src dst) = alpha dst.
Proof.
  apply (transfer_function_truth_table 0x6 _
           (Pixel.mk 0xF0 0x0F 0xAA 0xFF) (Pixel.mk 0x3C 0xFF 0x55 0x80)
           eq_refl); unfold is_byte; cbn; lia.
Defined.

End TransferTable.
(** ** HTTPTunnel: the messages are posted in order, one request at a
    time *)
Section HTTPSending.

Import HTTPSend.

Lemma posted_app (a b : list Effect) : posted (a ++ b) = posted a ++ posted b.
Proof.
  induction a as [|[body|event] a IH]; cbn [app posted]; [done| |done].
  by rewrite IH, app_assoc.
Qed.

Lemma sendMessage_not_empty (arguments : list jsstring) (message : jsstring) :
  Codec.sendMessage Tunnel.OPEN arguments = Some message ->
  (strlen message >? 0) = true.
Proof.
  unfold Codec.sendMessage. cbn [bool_decide]. intros H.
  destruct arguments as [|first rest]; [by destruct (bool_decide _)|].
  destruct (bool_decide _); [done|]. injection H as <-.
  unfold strlen. rewrite length_app. cbn. apply Z.gtb_lt. lia.
Qed.

Lemma messages_cons (i : Input) (rest : list Input) :
  messages (i :: rest) = messages [i] ++ messages rest.
Proof.
  destruct i as [arguments| | |]; cbn [messages]; try done.
  destruct (Codec.sendMessage Tunnel.OPEN arguments); [|done].
  by rewrite app_nil_r.
Qed.

(** Once the send loop has stopped, an input posts nothing: a message
    sent is added to the buffer and stays there. *)
Lemma step_stalled (h : HTTPSend.t) (i : Input) :
  HTTPTunnel.state (tunnel h) = Tunnel.OPEN -> stalled h ->
  HTTPTunnel.state (tunnel (fst (step h i))) = Tunnel.OPEN /\
  stalled (fst (step h i)) /\
  posted (snd (step h i)) = [] /\
  outputMessageBuffer (fst (step h i))
  = outputMessageBuffer h ++ messages [i].
Proof.
  intros Ho [Hs Ha]. destruct h as [tn buf n].
  cbn [tunnel outputMessageBuffer awaiting] in *. subst n.
  destruct i as [arguments| |code message|]; cbn [step messages awaiting];
    rewrite ?app_nil_r; try done.
  unfold sendMessage. cbn [tunnel outputMessageBuffer awaiting]. rewrite Ho.
  destruct (Codec.sendMessage Tunnel.OPEN arguments) as [message|];
    [|by rewrite app_nil_r].
  rewrite Hs. cbn [negb fst snd tunnel outputMessageBuffer awaiting posted].
  by rewrite app_nil_r.
Qed.

Lemma run_stalled (inputs : list Input) :
  forall h : HTTPSend.t,
    HTTPTunnel.state (tunnel h) = Tunnel.OPEN -> stalled h ->
    HTTPTunnel.state (tunnel (fst (run h inputs))) = Tunnel.OPEN /\
    stalled (fst (run h inputs)) /\
    posted (snd (run h inputs)) = [] /\
    outputMessageBuffer (fst (run h inputs))
    = outputMessageBuffer h ++ messages inputs.
Proof.
  induction inputs as [|i rest IH]; intros h Ho Hst.
  { cbn. by rewrite app_nil_r. }
  cbn [run]. destruct (step_stalled h i Ho Hst) as (Ho1 & Hst1 & Hp1 & Hb1).
  destruct (step h i) as [h1 effects1]. cbn [fst snd] in *.
  destruct (IH h1 Ho1 Hst1) as (Ho2 & Hst2 & Hp2 & Hb2).
  destruct (run h1 rest) as [h2 effects2]. cbn [fst snd] in *.
  rewrite posted_app, Hp1, Hp2, Hb2, Hb1, (messages_cons i rest).
  by rewrite app_assoc.
Qed.

(** One input keeps the invariant; the send loop goes on as meant unless
    the input is a failed request. *)
Lemma step_invariant (h : HTTPSend.t) (i : Input) (sent accepted : jsstring) :
  sending_invariant h sent accepted ->
  sending_invariant (fst (step h i)) (sent ++ posted (snd (step h i)))
    (accepted ++ messages [i]) /\
  (sending h -> is_failed i = false -> sending (fst (step h i))).
Proof.
  intros (Ho & Ha & He & Hmode).
  destruct Hmode as [Hsend|Hst].
  2:{ destruct (step_stalled h i Ho Hst) as (Ho1 & Hst1 & Hp1 & Hb1).
      split.
      - split; [exact Ho1|]. split; [destruct Hst1 as [_ ->]; lia|].
        split; [|by right]. by rewrite Hp1, app_nil_r, Hb1, app_assoc, He.
      - intros [Hs1 _] _. destruct Hst as [Hs Hz].
        apply Hs1 in Hs. lia. }
  destruct Hsend as [Hs Hb]. destruct h as [tn buf n].
  cbn [tunnel outputMessageBuffer awaiting] in *.
  destruct i as [arguments| |code message|]; cbn [step messages awaiting].
  - (* sendMessage *)
    unfold sendMessage. cbn [tunnel outputMessageBuffer awaiting]. rewrite Ho.
    destruct (Codec.sendMessage Tunnel.OPEN arguments) as [message|] eqn:Em.
    + pose proof (sendMessage_not_empty _ _ Em) as Hlen.
      destruct (HTTPTunnel.sendingMessages tn) eqn:Esend; cbn [negb].
      * assert (n = 1%nat) as -> by (by apply Hs).
        cbn [fst snd posted tunnel outputMessageBuffer awaiting].
        rewrite !app_nil_r.
        assert (sending (mk tn (buf ++ message) 1)) as Hsend'.
        { split; cbn [tunnel outputMessageBuffer awaiting]; [done | lia]. }
        split; [|done]. split; [exact Ho|]. split; [cbn; lia|].
        split; [cbn; by rewrite app_assoc, He | by left].
      * assert (n = 0%nat) as ->.
        { destruct n as [|[|n]]; [done| |lia].
          destruct Hs as [_ Hs]. by specialize (Hs eq_refl). }
        rewrite (Hb eq_refl) in *. rewrite app_nil_r in He. subst accepted.
        unfold sendPendingMessages.
        cbn [tunnel outputMessageBuffer awaiting app].
        rewrite Ho, bool_decide_eq_false_2 by (by intros []).
        rewrite Hlen. cbn [fst snd posted]. rewrite !app_nil_r.
        assert (sending (mk (set_sendingMessages tn true) [] 1)) as Hsend'.
        { split; cbn [tunnel outputMessageBuffer awaiting]; [done | lia]. }
        split; [|done]. split; [exact Ho|]. split; [cbn; lia|].
        split; [by rewrite app_nil_r | by left].
    + cbn [fst snd posted]. rewrite !app_nil_r.
      split; [|done]. split; [exact Ho|]. split; [exact Ha|].
      split; [exact He | by left].
  - (* a write request answered with 200 *)
    rewrite app_nil_r. destruct n as [|n].
    { cbn [fst snd posted]. rewrite app_nil_r. split; [|done].
      split; [exact Ho|]. split; [exact Ha|]. split; [exact He | by left]. }
    assert (n = 0%nat) as -> by lia.
    unfold sendPendingMessages. cbn [tunnel outputMessageBuffer awaiting].
    rewrite Ho, bool_decide_eq_false_2 by (by intros []).
    destruct (strlen buf >? 0) eqn:Elen; cbn [fst snd posted].
    + rewrite !app_nil_r.
      assert (sending (mk (set_sendingMessages tn true) [] 1)) as Hsend'.
      { split; cbn [tunnel outputMessageBuffer awaiting]; [done | lia]. }
      split; [|done]. split; [exact Ho|]. split; [cbn; lia|].
      split; [by rewrite app_nil_r | by left].
    + rewrite app_nil_r.
      assert (buf = []) as ->.
      { destruct buf; [done|]. exfalso. rewrite Z.gtb_ltb in Elen.
        apply Z.ltb_ge in Elen. unfold strlen in Elen.
        cbn [Datatypes.length] in Elen. lia. }
      assert (sending (mk (set_sendingMessages tn false) [] 0)) as Hsend'.
      { split; cbn [tunnel outputMessageBuffer awaiting]; [|done].
        split; [done | lia]. }
      split; [|done]. split; [exact Ho|]. split; [cbn; lia|].
      split; [exact He | by left].
  - (* a write request answered with an error *)
    rewrite app_nil_r. split; [|done]. destruct n as [|n].
    { cbn [fst snd posted]. rewrite app_nil_r.
      split; [exact Ho|]. split; [exact Ha|]. split; [exact He | by left]. }
    assert (n = 0%nat) as -> by lia.
    cbn [handleHTTPTunnelError HTTPTunnel.handleHTTPTunnelError tunnel
           outputMessageBuffer awaiting fst snd map posted].
    rewrite app_nil_r. split; [exact Ho|]. split; [cbn; lia|].
    split; [exact He|]. right. split; [|done].
    cbn [tunnel]. by apply Hs.
  - (* disconnect() *)
    cbn [disconnect HTTPTunnel.disconnect tunnel outputMessageBuffer
           awaiting fst snd map posted].
    rewrite !app_nil_r. split; [|done].
    split; [exact Ho|]. split; [exact Ha|]. split; [exact He | by left].
Qed.

Lemma run_invariant (inputs : list Input) :
  forall (h : HTTPSend.t) (sent accepted : jsstring),
    sending_invariant h sent accepted ->
    sending_invariant (fst (run h inputs)) (sent ++ posted (snd (run h inputs)))
      (accepted ++ messages inputs) /\
    (most_awaiting h inputs <= 1)%nat /\
    (sending h -> forallb (fun i => negb (is_failed i)) inputs = true ->
     sending (fst (run h inputs))).
Proof.
  induction inputs as [|i rest IH]; intros h sent accepted Hinv.
  - cbn [run fst snd posted messages most_awaiting]. rewrite !app_nil_r.
    split; [exact Hinv|]. split; [apply Hinv | done].
  - destruct (step_invariant h i sent accepted Hinv) as [H1 Hs1].
    cbn [run most_awaiting forallb]. destruct (step h i) as [h1 effects1].
    cbn [fst snd] in *. destruct (IH h1 _ _ H1) as (H2 & Hm & Hs2).
    destruct (run h1 rest) as [h2 effects2]. cbn [fst snd] in *.
    rewrite posted_app, messages_cons, !app_assoc.
    split; [exact H2|]. split; [destruct Hinv as (_ & Ha & _); lia|].
    intros Hs [Hi Hall]%andb_true_iff. apply negb_true_iff in Hi.
    apply Hs2; [by apply Hs1 | exact Hall].
Qed.

(** X13: From an open tunnel, whatever is sent and however
    the write requests are answered: never more than one write request
    awaits its answer; what was posted, followed by what is buffered,
    is the messages in the order of the [sendMessage] calls; as long as
    no write request has failed, everything has been posted once no
    request awaits its answer; and the tunnel is still OPEN, a failed
    request and [disconnect()] included. *)
Theorem http_messages_posted_in_order (onerror onstatechange : bool)
  (inputs : list Input) :
  let h := fst (run (opened onerror onstatechange) inputs) in
  let sent := posted (snd (run (opened onerror onstatechange) inputs)) in
  (most_awaiting (opened onerror onstatechange) inputs <= 1)%nat /\
  sent ++ outputMessageBuffer h = messages inputs /\
  (forallb (fun i => negb (is_failed i)) inputs = true ->
   awaiting h = 0%nat -> sent = messages inputs) /\
  HTTPTunnel.state (tunnel h) = Tunnel.OPEN.
Proof.
  intros h sent.
  assert (sending (opened onerror onstatechange)) as Hs0.
  { split; [|done]. cbn. split; [done | lia]. }
  assert (sending_invariant (opened onerror onstatechange) [] []) as H0.
  { split; [done|]. split; [cbn; lia|]. split; [done | by left]. }
  destruct (run_invariant inputs _ _ _ H0) as ((Ho & Ha & He & _) & Hm & Hs).
  cbn [app] in *. fold h sent in Ho, Ha, He, Hs.
  split; [exact Hm|]. split; [exact He|]. split; [|exact Ho].
  intros Hall Hz. destruct (Hs Hs0 Hall) as [_ Hb].
  rewrite (Hb Hz), app_nil_r in He. exact He.
Qed.

Lemma http_messages_posted_in_order_witness :
  posted (snd (run (opened true true)
                 [Send [[97]]; Send [[98]]; Answered; Disconnect; Answered]))
  = messages [Send [[97]]; Send [[98]]; Answered; Disconnect; Answered].
Proof.
  apply (http_messages_posted_in_order true true
           [Send [[97]]; Send [[98]]; Answered; Disconnect; Answered]);
    reflexivity.
Defined.

(** X27: When a write request fails, whatever the
    headers of its answer, [handleHTTPTunnelError] throws a
    ReferenceError at [new Status]: no handler is called and the tunnel
    stays OPEN with [sendingMessages] true.  From then on nothing is
    posted: every message sent later is added to the buffer and stays
    there. *)
Theorem failed_write_stalls (onerror onstatechange : bool)
  (before after : list Input) (code message : option jsstring) :
  let h := fst (run (opened onerror onstatechange) before) in
  let h' := fst (step h (Failed code message)) in
  awaiting h = 1%nat ->
  snd (step h (Failed code message)) = [Handler HTTPTunnel.ReferenceError] /\
  HTTPTunnel.state (tunnel (fst (run h' after))) = Tunnel.OPEN /\
  HTTPTunnel.sendingMessages (tunnel (fst (run h' after))) = true /\
  posted (snd (run h' after)) = [] /\
  outputMessageBuffer (fst (run h' after))
  = outputMessageBuffer h ++ messages after.
Proof.
  intros h h' Ha.
  assert (sending_invariant (opened onerror onstatechange) [] []) as H0.
  { split; [done|]. split; [cbn; lia|]. split; [done|]. left.
    split; [|done]. cbn. split; [done | lia]. }
  destruct (run_invariant before _ _ _ H0) as ((Ho & _ & _ & Hmode) & _).
  fold h in Ho, Hmode.
  assert (HTTPTunnel.sendingMessages (tunnel h) = true) as Hs.
  { destruct Hmode as [[Hs _]|[_ Hz]]; [by apply Hs | lia]. }
  assert (step h (Failed code message)
          = ({| tunnel := tunnel h;
                outputMessageBuffer := outputMessageBuffer h;
                awaiting := 0 |}, [Handler HTTPTunnel.ReferenceError]))
    as Estep.
  { cbn [step]. by rewrite Ha. }
  unfold h'. rewrite Estep. cbn [fst snd]. split; [done|].
  match goal with
  | |- context [run ?x after] =>
      destruct (run_stalled after x Ho (conj Hs eq_refl))
        as (Ho' & [Hs' _] & Hp & Hb)
  end.
  done.
Qed.

Lemma failed_write_stalls_witness :
  snd (step (fst (run (opened true true) [Send [[97]]; Send [[98]]]))
         (Failed None None))
  = [Handler HTTPTunnel.ReferenceError] /\
  HTTPTunnel.state
    (tunnel (fst (run (fst (step (fst (run (opened true true)
                                         [Send [[97]]; Send [[98]]]))
                             (Failed None None)))
                    [Send [[99]]; Answered])))
  = Tunnel.OPEN /\
  HTTPTunnel.sendingMessages
    (tunnel (fst (run (fst (step (fst (run (opened true true)
                                         [Send [[97]]; Send [[98]]]))
                             (Failed None None)))
                    [Send [[99]]; Answered])))
  = true /\
  posted (snd (run (fst (step (fst (run (opened true true)
                                     [Send [[97]]; Send [[98]]]))
                         (Failed None None)))
                [Send [[99]]; Answered])) = [] /\
  outputMessageBuffer
    (fst (run (fst (step (fst (run (opened true true)
                                 [Send [[97]]; Send [[98]]]))
                     (Failed None None)))
            [Send [[99]]; Answered]))
  = outputMessageBuffer (fst (run (opened true true)
                                [Send [[97]]; Send [[98]]]))
      ++ messages [Send [[99]]; Answered].
Proof.
  apply (failed_write_stalls true true [Send [[97]]; Send [[98]]]
           [Send [[99]]; Answered] None None).
  reflexivity.
Defined.

End HTTPSending.

(** ** WebSocketTunnel: the messages received *)
Section WebSocketMessages.

Import Codec WebSocketTunnel.

Lemma find_char_none (c : Z) (s : jsstring) (i : Z) :
  Forall (fun x => x <> c) s -> find_char c s i = -1.
Proof.
  intros H. revert i. induction H as [|x s Hx _ IH]; intros i; [done|].
  cbn [find_char]. destruct (Z.eqb_spec x c); [done | apply IH].
Qed.

Lemma indexOf_none (c : Z) (pre post : jsstring) :
  Forall (fun x => x <> c) post ->
  indexOf (pre ++ post) c (strlen pre) = -1.
Proof.
  intros H. unfold indexOf.
  pose proof (strlen_nonneg pre). pose proof (strlen_nonneg post).
  rewrite clamp_id by (rewrite strlen_app; lia).
  replace (Z.to_nat (strlen pre)) with (length pre) by (unfold strlen; lia).
  rewrite drop_app_length. by apply find_char_none.
Qed.

Lemma getElement_length (value : jsstring) :
  strlen (getElement value)
  = strlen (number_toString (strlen value)) + 1 + strlen value.
Proof. unfold getElement. rewrite strlen_app, strlen_cons. lia. Qed.

(** One round of the loop at the start of a complete element. *)
Lemma body_element (pre value post : jsstring) (term : Z) (v : Vars) :
  startIndex v = Num (strlen pre) ->
  ToInteger (plus1 (elementEnd v)) = strlen pre ->
  oninstruction (tunnel v) = true ->
  body (pre ++ getElement value ++ term :: post) v
  = {| tunnel := tunnel v;
       startIndex := Num (strlen pre + strlen (getElement value) + 1);
       elementEnd := Some (Num (strlen pre + strlen (getElement value)));
       elements := if bool_decide ([term] = [SEMICOLON]) then []
                   else elements v ++ [value];
       events := if bool_decide ([term] = [SEMICOLON])
                 then events v
                        ++ [OnInstruction (hd [] (elements v ++ [value]))
                              (tl (elements v ++ [value]))]
                 else events v |}.
Proof.
  intros Hs He Hon. unfold body. rewrite Hs. cbn [ToInteger].
  set (digits := number_toString (strlen value)).
  assert (pre ++ getElement value ++ term :: post
          = pre ++ digits ++ DOT :: value ++ term :: post) as Em
    by (unfold getElement, digits; by rewrite <- !app_assoc).
  destruct (number_toString_spec (strlen value) (strlen_nonneg value))
    as (_ & Hdec & _). fold digits in Hdec.
  pose proof (strlen_nonneg pre). pose proof (strlen_nonneg digits).
  pose proof (strlen_nonneg value).
  rewrite Em. set (m := pre ++ digits ++ DOT :: value ++ term :: post).
  assert (indexOf m DOT (strlen pre) = strlen pre + strlen digits) as Ei
    by (apply indexOf_app; by apply decimal_not_dot).
  rewrite Ei. rewrite (proj2 (Z.eqb_neq _ _)) by lia. cbn [negb].
  assert (substring m (plus1 (elementEnd v))
            (Num (strlen pre + strlen digits)) = digits) as Ed.
  { unfold substring at 1. rewrite He.
    apply (substring_app_mid pre digits). }
  assert (parseInt digits = Num (strlen value)) as Ep
    by (apply parseInt_number_toString, strlen_nonneg).
  rewrite Ed, Ep.
  cbn [JS.add substring_to default plus1]. unfold id.
  assert (m = (pre ++ digits ++ [DOT]) ++ value ++ term :: post) as Em'
    by (unfold m; by rewrite <- !app_assoc).
  assert (strlen (pre ++ digits ++ [DOT]) = strlen pre + strlen digits + 1)
    as El by (rewrite !strlen_app; change (strlen [DOT]) with 1; lia).
  assert (substring m (Num (strlen pre + strlen digits + 1))
            (Num (strlen pre + strlen digits + 1 + strlen value)) = value)
    as Ev.
  { rewrite Em', <- El. apply (substring_app_mid _ value). }
  assert (substring m
            (Num (strlen pre + strlen digits + 1 + strlen value))
            (Num (strlen pre + strlen digits + 1 + strlen value + 1))
          = [term]) as Et.
  { rewrite Em', <- El. apply substring_terminator. }
  rewrite Ev, Et. rewrite Hon, getElement_length. fold digits.
  replace (strlen pre + (strlen digits + 1 + strlen value))
    with (strlen pre + strlen digits + 1 + strlen value) by lia.
  repeat case_bool_decide; done.
Qed.

(** The rounds of one instruction. *)
Lemma loop_instruction (rest : list jsstring) :
  forall (fuel : nat) (pre value post : jsstring) (eb : list jsstring)
         (tn : WebSocketTunnel.t) (evs : list Event) (ee : option jsnum),
    ToInteger (plus1 ee) = strlen pre -> oninstruction tn = true ->
    loop (S (length rest) + fuel)
      (pre ++ getElement value ++ wire_tail rest ++ post)
      {| tunnel := tn; startIndex := Num (strlen pre); elementEnd := ee;
         elements := eb; events := evs |}
    = let v' :=
        {| tunnel := tn;
           startIndex :=
             Num (strlen (pre ++ getElement value ++ wire_tail rest));
           elementEnd :=
             Some (Num (strlen (pre ++ getElement value ++ wire_tail rest)
                        - 1));
           elements := [];
           events := evs ++ [OnInstruction (hd [] (eb ++ value :: rest))
                               (tl (eb ++ value :: rest))] |} in
      if decide (post = []) then Some v'
      else loop fuel (pre ++ getElement value ++ wire_tail rest ++ post) v'.
Proof.
  induction rest as [|e rest IH]; intros fuel pre value post eb tn evs ee
    Hee Hon; pose proof (strlen_nonneg pre);
    pose proof (strlen_nonneg (getElement value));
    pose proof (strlen_nonneg post); cbn [wire_tail].
  - cbn [length Nat.add loop app]. rewrite body_element by done.
    rewrite bool_decide_eq_true_2 by done.
    cbn [startIndex JS.lt tunnel elements events].
    assert (strlen (pre ++ getElement value ++ SEMICOLON :: post)
            = strlen pre + strlen (getElement value) + 1 + strlen post)
      as El by (rewrite !strlen_app, strlen_cons; lia).
    assert (strlen (pre ++ getElement value ++ [SEMICOLON])
            = strlen pre + strlen (getElement value) + 1)
      as El' by (rewrite !strlen_app; change (strlen [SEMICOLON]) with 1; lia).
    rewrite El, El'.
    replace (strlen pre + strlen (getElement value) + 1 - 1)
      with (strlen pre + strlen (getElement value)) by lia.
    destruct post as [|c post].
    + change (strlen []) with 0.
      rewrite (proj2 (Z.ltb_ge _ _)) by lia.
      by rewrite decide_True by done.
    + rewrite strlen_cons. pose proof (strlen_nonneg post).
      rewrite (proj2 (Z.ltb_lt _ _)) by lia.
      by rewrite decide_False by done.
  - change (S (length (e :: rest)) + fuel)%nat
      with (S (S (length rest) + fuel)).
    set (f := (S (length rest) + fuel)%nat).
    cbn [loop app]. rewrite <- ?app_assoc.
    rewrite (body_element pre value
               (getElement e ++ wire_tail rest ++ post) COMMA) by done.
    rewrite bool_decide_eq_false_2 by (by intros [=]).
    cbn [startIndex JS.lt tunnel elements events].
    pose proof (strlen_nonneg (getElement e)).
    rewrite (proj2 (Z.ltb_lt _ _)).
    2:{ rewrite (strlen_app pre), (strlen_app (getElement value)),
          strlen_cons, (strlen_app (getElement e)), (getElement_length e).
        pose proof (strlen_nonneg (wire_tail rest ++ post)).
        pose proof (strlen_nonneg (number_toString (strlen e))).
        pose proof (strlen_nonneg e). lia. }
    specialize (IH fuel (pre ++ getElement value ++ [COMMA]) e post
                  (eb ++ [value]) tn evs
                  (Some (Num (strlen pre + strlen (getElement value))))).
    assert (strlen (pre ++ getElement value ++ [COMMA])
            = strlen pre + strlen (getElement value) + 1) as El
      by (rewrite !strlen_app; change (strlen [COMMA]) with 1; lia).
    rewrite El in IH.
    assert (forall tail : jsstring,
              (pre ++ getElement value ++ [COMMA]) ++ getElement e ++ tail
              = pre ++ getElement value ++ COMMA :: getElement e ++ tail)
      as Em by (intros tail; by rewrite <- !app_assoc).
    rewrite !Em in IH. rewrite <- (app_assoc eb [value]) in IH.
    cbn [app] in IH. subst f.
    apply IH; [cbn; lia | exact Hon].
Qed.

Lemma wire_cons (opcode : jsstring) (parameters : list jsstring)
  (rest : list (jsstring * list jsstring)) :
  wire ((opcode, parameters) :: rest)
  = (getElement opcode ++ wire_tail parameters) ++ wire rest.
Proof. cbn [wire]. by rewrite sendMessage_wire. Qed.

Lemma wire_not_empty (instructions : list (jsstring * list jsstring)) :
  instructions <> [] -> wire instructions <> [].
Proof.
  destruct instructions as [|[opcode parameters] rest]; [done|].
  intros _. rewrite wire_cons. unfold getElement.
  destruct (number_toString_spec (strlen opcode) (strlen_nonneg opcode))
    as (Hne & _).
  by destruct (number_toString (strlen opcode)).
Qed.

(** The rounds of a sequence of instructions. *)
Lemma loop_wire (instructions : list (jsstring * list jsstring)) :
  forall (fuel : nat) (pre post : jsstring) (tn : WebSocketTunnel.t)
         (evs : list Event) (ee : option jsnum),
    instructions <> [] ->
    ToInteger (plus1 ee) = strlen pre -> oninstruction tn = true ->
    loop (element_count instructions + fuel)
      (pre ++ wire instructions ++ post)
      {| tunnel := tn; startIndex := Num (strlen pre); elementEnd := ee;
         elements := []; events := evs |}
    = let v' :=
        {| tunnel := tn;
           startIndex := Num (strlen (pre ++ wire instructions));
           elementEnd := Some (Num (strlen (pre ++ wire instructions) - 1));
           elements := [];
           events := evs ++ map (fun i => OnInstruction (fst i) (snd i))
                              instructions |} in
      if decide (post = []) then Some v'
      else loop fuel (pre ++ wire instructions ++ post) v'.
Proof.
  induction instructions as [|[opcode parameters] more IH];
    intros fuel pre post tn evs ee Hne Hee Hon; [done|].
  rewrite wire_cons. cbn [element_count map fst snd].
  rewrite <- !app_assoc.
  replace (S (length parameters) + element_count more + fuel)%nat
    with (S (length parameters) + (element_count more + fuel))%nat by lia.
  rewrite (loop_instruction parameters _ pre opcode (wire more ++ post) []
             tn evs ee Hee Hon).
  cbn [app hd tl].
  destruct more as [|i more'].
  - cbn [wire element_count map app Nat.add]. rewrite !app_nil_r.
    cbn [app]. reflexivity.
  - set (more := i :: more') in *.
    assert (more <> []) as Hmore by done.
    pose proof (wire_not_empty more Hmore) as Hw.
    rewrite decide_False by (by destruct (wire more)).
    specialize (IH fuel (pre ++ getElement opcode ++ wire_tail parameters)
                  post tn
                  (evs ++ [OnInstruction opcode parameters])
                  (Some (Num (strlen (pre ++ getElement opcode
                                        ++ wire_tail parameters) - 1)))
                  Hmore).
    rewrite <- !app_assoc in IH. rewrite IH; [|cbn; lia|exact Hon].
    reflexivity.
Qed.

(** X14: A WebSocket message holding one or more
    instructions as [sendMessage] writes them is taken apart again: the
    handler returns, [oninstruction] is called once for each
    instruction, in order, with its opcode and parameters, and the tunnel
    is left as it was. *)
Theorem onmessage_round_trip (tn : WebSocketTunnel.t)
  (instructions : list (jsstring * list jsstring)) (fuel : nat) :
  instructions <> [] -> oninstruction tn = true ->
  (element_count instructions <= fuel)%nat ->
  onmessage fuel tn (wire instructions)
  = Some (tn, map (fun i => OnInstruction (fst i) (snd i)) instructions).
Proof.
  intros Hne Hon Hfuel. unfold onmessage.
  replace fuel
    with (element_count instructions
          + (fuel - element_count instructions))%nat by lia.
  pose proof (loop_wire instructions (fuel - element_count instructions)
                [] [] tn [] None Hne eq_refl Hon) as H.
  cbn [app] in H. rewrite app_nil_r in H.
  change (strlen []) with 0 in H. rewrite H.
  by rewrite decide_True by done.
Qed.

Lemma onmessage_round_trip_witness :
  onmessage 3 (WebSocketTunnel.mk Tunnel.OPEN true true true)
    (wire [([115; 121; 110; 99], [[49; 50]]); ([110; 111; 112], [])])
  = Some (WebSocketTunnel.mk Tunnel.OPEN true true true,
          [OnInstruction [115; 121; 110; 99] [[49; 50]];
           OnInstruction [110; 111; 112] []]).
Proof.
  apply (onmessage_round_trip (WebSocketTunnel.mk Tunnel.OPEN true true true)
           [([115; 121; 110; 99], [[49; 50]]); ([110; 111; 112], [])] 3);
    [done | reflexivity | cbn; lia].
Defined.

(** X15: A message without a period, the empty message
    among them, makes the handler close the tunnel with SERVER_ERROR
    "Incomplete instruction." and return after one round; no instruction
    is handed on. *)
Theorem onmessage_without_period (tn : WebSocketTunnel.t)
  (message : jsstring) (fuel : nat) :
  Forall (fun c => c <> DOT) message ->
  onmessage (S fuel) tn message
  = Some (close_tunnel tn
            (Status.mk (Num Status.SERVER_ERROR)
               (Some Incomplete_instruction))).
Proof.
  intros Hno. unfold onmessage. cbn [loop]. unfold body.
  cbn [startIndex elementEnd tunnel events elements ToInteger].
  pose proof (indexOf_none DOT [] message Hno) as Ei.
  change (strlen []) with 0 in Ei. cbn [app] in Ei.
  rewrite Ei, Z.eqb_refl. cbn [negb].
  destruct (close_tunnel tn _) as [tn' closing].
  cbn [plus1 default substring_to app].
  assert (substring message NaN NaN = []) as Et.
  { unfold substring. cbn [ToInteger]. unfold clamp.
    pose proof (strlen_nonneg message).
    replace (Z.min (Z.max 0 0) (strlen message)) with 0 by lia.
    reflexivity. }
  change (from_option id NaN None) with NaN. rewrite Et.
  rewrite bool_decide_eq_false_2 by done. reflexivity.
Qed.

Lemma onmessage_without_period_witness :
  onmessage 1 (WebSocketTunnel.mk Tunnel.OPEN true true true) []
  = Some (close_tunnel (WebSocketTunnel.mk Tunnel.OPEN true true true)
            (Status.mk (Num Status.SERVER_ERROR)
               (Some Incomplete_instruction))).
Proof.
  apply (onmessage_without_period
           (WebSocketTunnel.mk Tunnel.OPEN true true true) [] 0).
  apply Forall_nil_2.
Defined.

(** More fuel does not change what the loop returns. *)
Lemma loop_more_fuel (fuel : nat) :
  forall (extra : nat) (message : jsstring) (v r : Vars),
    loop fuel message v = Some r -> loop (fuel + extra) message v = Some r.
Proof.
  induction fuel as [|fuel IH]; intros extra message v r H; [done|].
  cbn [Nat.add loop] in *.
  destruct (JS.lt _ _); [by apply IH | exact H].
Qed.

(** After an element, with no period in what is left, no round changes
    [startIndex] or [elementEnd]: the loop does not end. *)
Lemma loop_stuck (pre rest : jsstring) (fuel : nat) :
  rest <> [] -> Forall (fun c => c <> DOT) rest ->
  forall v : Vars,
    startIndex v = Num (strlen pre) ->
    elementEnd v = Some (Num (strlen pre - 1)) ->
    loop fuel (pre ++ rest) v = None.
Proof.
  intros Hne Hno. induction fuel as [|fuel IH]; intros v Hs He; [done|].
  cbn [loop].
  assert (startIndex (body (pre ++ rest) v) = Num (strlen pre) /\
          elementEnd (body (pre ++ rest) v) = Some (Num (strlen pre - 1)))
    as [Hs' He'].
  { unfold body. rewrite Hs, He. cbn [ToInteger].
    rewrite (indexOf_none DOT pre rest Hno), Z.eqb_refl. cbn [negb].
    destruct (close_tunnel (tunnel v) _) as [tn' closing].
    destruct (bool_decide _); cbn [startIndex elementEnd plus1 JS.add];
      (split; [f_equal; lia | reflexivity]). }
  rewrite Hs'. cbn [JS.lt]. rewrite strlen_app.
  destruct rest as [|c rest]; [done|]. rewrite strlen_cons.
  pose proof (strlen_nonneg rest).
  rewrite (proj2 (Z.ltb_lt _ _)) by lia. by apply IH.
Qed.

(** X16: When complete instructions are followed in the same
    message by characters without a period, the handler never returns:
    whatever the number of rounds, its loop is still running. *)
Theorem onmessage_trailing_data_hangs (tn : WebSocketTunnel.t)
  (instructions : list (jsstring * list jsstring)) (rest : jsstring)
  (fuel : nat) :
  instructions <> [] -> oninstruction tn = true ->
  rest <> [] -> Forall (fun c => c <> DOT) rest ->
  onmessage fuel tn (wire instructions ++ rest) = None.
Proof.
  intros Hne Hon Hrest Hno. unfold onmessage.
  set (v0 := {| tunnel := tn; startIndex := Num 0; elementEnd := None;
                elements := []; events := [] |}).
  assert (forall extra,
            loop (element_count instructions + extra)
              (wire instructions ++ rest) v0 = None) as Hrun.
  { intros extra.
    pose proof (loop_wire instructions extra [] rest tn [] None Hne
                  eq_refl Hon) as H.
    cbn [app] in H. change (strlen []) with 0 in H. fold v0 in H.
    rewrite H. rewrite decide_False by done.
    by apply loop_stuck. }
  destruct (loop fuel (wire instructions ++ rest) v0) as [r|] eqn:E; [|done].
  apply (loop_more_fuel _ (element_count instructions)) in E.
  rewrite Nat.add_comm, Hrun in E. done.
Qed.

Lemma onmessage_trailing_data_hangs_witness :
  onmessage 1000 (WebSocketTunnel.mk Tunnel.OPEN true true true)
    (wire [([110; 111; 112], [])] ++ [10]) = None.
Proof.
  apply (onmessage_trailing_data_hangs
           (WebSocketTunnel.mk Tunnel.OPEN true true true)
           [([110; 111; 112], [])] [10] 1000); [done|done|done|].
  apply Forall_cons_2; [done | apply Forall_nil_2].
Defined.

End WebSocketMessages.

(** ** The Parser fed a stream in packets *)
Section ParserPackets.

Import Codec Parser ParserStream.

Lemma app_split_le {A : Type} (a b c d : list A) :
  a ++ b = c ++ d -> (length a <= length c)%nat ->
  exists m, c = a ++ m /\ b = m ++ d.
Proof.
  intros E Hl. exists (drop (length a) c). split.
  - rewrite <- (take_drop (length a) c) at 1. f_equal.
    apply (f_equal (take (length a))) in E.
    rewrite take_app_length, take_app_le in E by lia. by symmetry.
  - apply (f_equal (drop (length a))) in E.
    rewrite drop_app_length, drop_app_le in E by lia. exact E.
Qed.

Lemma app_split_gt {A : Type} (a b c d : list A) (x : A) :
  a ++ b = c ++ x :: d -> (length c < length a)%nat ->
  exists a', a = c ++ x :: a' /\ a' ++ b = d.
Proof.
  intros E Hl. symmetry in E.
  destruct (app_split_le c (x :: d) a b E) as (m & Ea & Em); [lia|].
  destruct m as [|y m].
  - rewrite app_nil_r in Ea. subst. lia.
  - injection Em as <- ->. by exists m.
Qed.

Lemma stream_cons (value : jsstring) (t : Z) (todo : list (jsstring * Z)) :
  stream ((value, t) :: todo)
  = number_toString (strlen value) ++ DOT :: value ++ t :: stream todo.
Proof. cbn [stream]. unfold getElement. by rewrite <- app_assoc. Qed.

Lemma digits_no_dot (value d1 d2 : jsstring) :
  number_toString (strlen value) = d1 ++ d2 ->
  Forall (fun c => c <> DOT) d1 /\ Forall (fun c => c <> DOT) d2.
Proof.
  intros E.
  destruct (number_toString_spec (strlen value) (strlen_nonneg value))
    as (_ & Hdec & _).
  apply decimal_not_dot in Hdec. rewrite E in Hdec.
  by apply Forall_app in Hdec.
Qed.

(** The search for the period when the digits of the length and the
    period are in the buffer. *)
Lemma read_length_digits (p : Parser.t) (pre d1 d2 value post : jsstring) :
  buffer p = pre ++ d1 ++ d2 ++ DOT :: post ->
  number_toString (strlen value) = d1 ++ d2 ->
  start_index p = strlen pre + strlen d1 ->
  element_end p = Num (strlen pre - 1) ->
  read_length p
  = inl {| buffer := buffer p; element_buffer := element_buffer p;
           element_end :=
             Num (strlen (pre ++ d1 ++ d2 ++ [DOT]) + strlen value);
           start_index := strlen (pre ++ d1 ++ d2 ++ [DOT]);
           oninstruction := oninstruction p |}.
Proof.
  intros Hb Hd Hs He. unfold read_length. rewrite Hs, He, Hb.
  destruct (digits_no_dot value d1 d2 Hd) as [_ Hno].
  pose proof (strlen_nonneg pre). pose proof (strlen_nonneg d1).
  pose proof (strlen_nonneg d2).
  assert (indexOf (pre ++ d1 ++ d2 ++ DOT :: post) DOT
            (strlen pre + strlen d1)
          = strlen pre + strlen d1 + strlen d2) as Ei.
  { rewrite (app_assoc pre d1), <- (strlen_app pre d1).
    by apply indexOf_app. }
  rewrite Ei. rewrite (proj2 (Z.eqb_neq _ _)) by lia. cbn [negb JS.add].
  replace (strlen pre - 1 + 1) with (strlen pre) by lia.
  assert (substring (pre ++ d1 ++ d2 ++ DOT :: post) (Num (strlen pre))
            (Num (strlen pre + strlen d1 + strlen d2)) = d1 ++ d2) as Ed.
  { rewrite (app_assoc d1 d2), <- Z.add_assoc, <- (strlen_app d1 d2).
    apply substring_app_mid. }
  rewrite Ed, <- Hd. rewrite parseInt_number_toString by apply strlen_nonneg.
  cbn [JS.eq JS.add]. rewrite !strlen_app. change (strlen [DOT]) with 1.
  f_equal. f_equal; [f_equal; lia | lia].
Qed.

(** The search for the period when the buffer ends before it. *)
Lemma read_length_no_dot (p : Parser.t) (pre d1 d2 : jsstring) :
  buffer p = pre ++ d1 ++ d2 -> Forall (fun c => c <> DOT) d2 ->
  start_index p = strlen pre + strlen d1 ->
  read_length p
  = inr ({| buffer := buffer p; element_buffer := element_buffer p;
            element_end := element_end p;
            start_index := strlen (buffer p);
            oninstruction := oninstruction p |}, Returned).
Proof.
  intros Hb Hno Hs. unfold read_length. rewrite Hs.
  assert (indexOf (buffer p) DOT (strlen pre + strlen d1) = -1) as Ei.
  { rewrite Hb, (app_assoc pre d1), <- (strlen_app pre d1).
    by apply indexOf_none. }
  by rewrite Ei.
Qed.

(** A complete element and its terminator are taken from the buffer. *)
Lemma take_element_token (p : Parser.t) (out : list Instruction)
  (pre value post : jsstring) (t : Z) :
  t = COMMA \/ t = SEMICOLON ->
  buffer p = pre ++ value ++ t :: post ->
  start_index p = strlen pre ->
  element_end p = Num (strlen pre + strlen value) ->
  oninstruction p = true ->
  take_element p out
  = inl ({| buffer := buffer p;
            element_buffer := fst (emit (element_buffer p) [(value, t)]);
            element_end := element_end p;
            start_index := strlen pre + strlen value + 1;
            oninstruction := true |},
         out ++ snd (emit (element_buffer p) [(value, t)])).
Proof.
  intros [->| ->] Hb Hs He Ho; cbn [emit].
  - rewrite bool_decide_eq_false_2 by done. cbn [fst snd].
    rewrite app_nil_r, <- Ho.
    by apply (take_element_comma p out pre value post).
  - rewrite bool_decide_eq_true_2 by done. cbn [fst snd].
    by apply (take_element_semicolon p out pre value post).
Qed.

Lemma emit_cons (eb : list jsstring) (tok : jsstring * Z) (toks : list (jsstring * Z)) :
  emit eb (tok :: toks)
  = (fst (emit (fst (emit eb [tok])) toks),
     snd (emit eb [tok]) ++ snd (emit (fst (emit eb [tok])) toks)).
Proof.
  destruct tok as [value t]. cbn [emit].
  case_bool_decide; cbn [fst snd app].
  - by destruct (emit [] toks).
  - by destruct (emit (eb ++ [value]) toks).
Qed.

Lemma emit_app (a b : list (jsstring * Z)) :
  forall eb,
    emit eb (a ++ b)
    = (fst (emit (fst (emit eb a)) b),
       snd (emit eb a) ++ snd (emit (fst (emit eb a)) b)).
Proof.
  induction a as [|tok a IH]; intros eb.
  - cbn [app emit fst snd]. by destruct (emit eb b).
  - cbn [app]. rewrite (emit_cons eb tok (a ++ b)), IH.
    rewrite (emit_cons eb tok a). cbn [fst snd]. by rewrite app_assoc.
Qed.

(** The loop entered while the element or its terminator is not yet
    complete: nothing is done. *)
Lemma parse_loop_incomplete (fuel : nat) (p : Parser.t) (value : jsstring)
  (t : Z) (todo : list (jsstring * Z)) (pre av beyond : jsstring)
  (out : list Instruction) :
  buffer p = pre ++ av -> start_index p = strlen pre ->
  element_end p = Num (strlen pre + strlen value) ->
  oninstruction p = true ->
  av ++ beyond = value ++ t :: stream todo ->
  (length av <= length value)%nat ->
  exists completed toks' p',
    parse_loop (S fuel) p out
    = Some {| parser := p';
              emitted := out ++ snd (emit (element_buffer p) completed);
              completion := Returned |} /\
    (value, t) :: todo = completed ++ toks' /\
    waiting p' (fst (emit (element_buffer p) completed)) toks' beyond.
Proof.
  intros Hb Hs He Hon Hav Hle.
  cbn [parse_loop]. rewrite He, Hb. cbn [JS.lt]. rewrite strlen_app.
  rewrite (proj2 (Z.ltb_ge _ _)) by (unfold strlen; lia).
  destruct (app_split_le av beyond value (t :: stream todo) Hav Hle)
    as (b2 & Ev & Ebeyond).
  exists [], ((value, t) :: todo), p. cbn [emit fst snd app].
  rewrite app_nil_r.
  split; [reflexivity|]. split; [reflexivity|].
  split; [reflexivity|]. split; [exact Hon|].
  left. exists pre, av, b2. cbn [fst snd]. by repeat split.
Qed.

(** The loop entered while the parser waits for the body of an element
    or its terminator, [av] being what the buffer holds from the start of
    the element on. *)
Lemma parse_loop_stream (todo : list (jsstring * Z)) :
  forall (fuel : nat) (p : Parser.t) (value : jsstring) (t : Z)
         (pre av beyond : jsstring) (out : list Instruction),
    Forall is_terminator ((value, t) :: todo) ->
    buffer p = pre ++ av -> start_index p = strlen pre ->
    element_end p = Num (strlen pre + strlen value) ->
    oninstruction p = true ->
    av ++ beyond = value ++ t :: stream todo ->
    (length av < fuel)%nat ->
    exists completed toks' p',
      parse_loop fuel p out
      = Some {| parser := p';
                emitted := out ++ snd (emit (element_buffer p) completed);
                completion := Returned |} /\
      (value, t) :: todo = completed ++ toks' /\
      waiting p' (fst (emit (element_buffer p) completed)) toks' beyond.
Proof.
  induction todo as [|[v' t'] todo IH];
    intros fuel p value t pre av beyond out Hterm Hb Hs He Hon Hav Hfuel;
    (destruct fuel as [|fuel]; [lia|]);
    pose proof (strlen_nonneg pre) as Hpre;
    (destruct (le_lt_dec (length av) (length value)) as [Hle|Hgt];
     [by apply (parse_loop_incomplete fuel p value t _ pre av beyond out)|]);
    cbn [parse_loop]; rewrite He, Hb; cbn [JS.lt];
    rewrite strlen_app;
    rewrite (proj2 (Z.ltb_lt _ _)) by (unfold strlen; lia);
    destruct (app_split_gt av beyond value (stream _) t Hav Hgt)
      as (av' & Eav & Hav');
    pose proof (Forall_inv Hterm) as Ht; cbn [is_terminator snd] in Ht;
    assert (buffer p = pre ++ value ++ t :: av') as Hb' by (by rewrite Hb, Eav);
    rewrite (take_element_token p out pre value av' t Ht Hb' Hs He Hon);
    set (eb1 := fst (emit (element_buffer p) [(value, t)]));
    set (out1 := out ++ snd (emit (element_buffer p) [(value, t)]));
    set (p1 := {| buffer := buffer p; element_buffer := eb1;
                  element_end := element_end p;
                  start_index := strlen pre + strlen value + 1;
                  oninstruction := true |});
    assert (strlen (pre ++ value ++ [t]) = strlen pre + strlen value + 1)
      as Hpre' by (rewrite !strlen_app; change (strlen [t]) with 1; lia);
    assert (buffer p1 = (pre ++ value ++ [t]) ++ [] ++ av') as Hb1
      by (cbn [buffer p1 app]; rewrite Hb'; by rewrite <- !app_assoc);
    assert (start_index p1 = strlen (pre ++ value ++ [t]) + strlen [])
      as Hs1 by (cbn [start_index p1]; change (strlen []) with 0; lia);
    assert (element_end p1 = Num (strlen (pre ++ value ++ [t]) - 1))
      as He1 by (cbn [element_end p1]; rewrite He; f_equal; lia).
  - (* the last token of the stream *)
    cbn [stream] in Hav'. apply app_eq_nil in Hav' as [-> ->].
    rewrite (read_length_no_dot p1 _ [] [] Hb1 (Forall_nil_2 _) Hs1).
    exists [(value, t)], [], {| buffer := buffer p1;
                                element_buffer := element_buffer p1;
                                element_end := element_end p1;
                                start_index := strlen (buffer p1);
                                oninstruction := oninstruction p1 |}.
    split; [reflexivity|]. split; [reflexivity|].
    split; [reflexivity|]. split; [reflexivity|].
    split; [reflexivity|]. split; [reflexivity|].
    cbn [element_end buffer p1]. rewrite He, Hb', strlen_app, strlen_app.
    change (strlen [t]) with 1. f_equal. lia.
  - (* another token follows *)
    rewrite stream_cons in Hav'.
    set (digits := number_toString (strlen v')) in *.
    destruct (le_lt_dec (length av') (length digits)) as [Hle'|Hgt'].
    + (* its length is not complete *)
      destruct (app_split_le av' beyond digits _ Hav' Hle')
        as (d2 & Ed & Ebeyond).
      destruct (digits_no_dot v' av' d2 Ed) as [Hno _].
      assert (buffer p1 = (pre ++ value ++ [t]) ++ [] ++ av') as Hb1'
        by exact Hb1.
      rewrite (read_length_no_dot p1 _ [] av' Hb1 Hno Hs1).
      exists [(value, t)], ((v', t') :: todo),
        {| buffer := buffer p1; element_buffer := element_buffer p1;
           element_end := element_end p1;
           start_index := strlen (buffer p1);
           oninstruction := oninstruction p1 |}.
      split; [reflexivity|]. split; [reflexivity|].
      split; [reflexivity|]. split; [reflexivity|].
      right. exists (pre ++ value ++ [t]), av', d2. cbn [fst snd].
      split; [exact Hb1|]. split; [exact Ed|]. split; [exact Ebeyond|].
      split; [reflexivity | exact He1].
    + (* its length is read, and the loop goes on *)
      destruct (app_split_gt av' beyond digits _ DOT Hav' Hgt')
        as (av'' & Eav' & Hav'').
      assert (buffer p1
              = (pre ++ value ++ [t]) ++ [] ++ digits ++ DOT :: av'')
        as Hb1' by (rewrite Hb1, Eav'; reflexivity).
      rewrite (read_length_digits p1 _ [] digits v' av'' Hb1' eq_refl
                 Hs1 He1).
      set (pre2 := (pre ++ value ++ [t]) ++ [] ++ digits ++ [DOT]).
      set (p2 := {| buffer := buffer p1; element_buffer := element_buffer p1;
                    element_end := Num (strlen pre2 + strlen v');
                    start_index := strlen pre2;
                    oninstruction := oninstruction p1 |}).
      destruct (IH fuel p2 v' t' pre2 av'' beyond out1)
        as (completed & toks' & p' & Eloop & Etoks & Hwait).
      * by apply Forall_inv_tail in Hterm.
      * cbn [buffer p2]. rewrite Hb1'. unfold pre2.
        by rewrite <- !app_assoc.
      * reflexivity.
      * reflexivity.
      * reflexivity.
      * exact Hav''.
      * rewrite Eav, Eav' in Hfuel. rewrite !length_app in Hfuel.
        cbn [length] in Hfuel. rewrite length_app in Hfuel.
        cbn [length] in Hfuel. lia.
      * exists ((value, t) :: completed), toks', p'.
        rewrite (emit_cons (element_buffer p) (value, t) completed).
        cbn [fst snd]. fold eb1.
        split; [|split; [by rewrite Etoks | exact Hwait]].
        rewrite Eloop. unfold out1. cbn [element_buffer p2 p1].
        by rewrite app_assoc.
Qed.

(** The truncation keeps a parser that waits for the body of an element
    waiting for it; the buffer may start later. *)
Lemma truncate_at_body (p : Parser.t) (pre b1 value : jsstring) :
  buffer p = pre ++ b1 -> start_index p = strlen pre ->
  element_end p = Num (strlen pre + strlen value) ->
  exists pre',
    buffer (truncate p) = pre' ++ b1 /\
    start_index (truncate p) = strlen pre' /\
    element_end (truncate p) = Num (strlen pre' + strlen value) /\
    element_buffer (truncate p) = element_buffer p /\
    oninstruction (truncate p) = oninstruction p.
Proof.
  intros Hb Hs He. unfold truncate.
  destruct (_ && _); [|by exists pre].
  exists []. cbn [buffer start_index element_end element_buffer
                   oninstruction app].
  rewrite Hb, Hs, He. cbn [JS.sub]. change (strlen []) with 0.
  split; [|split; [done|split; [f_equal; lia | done]]].
  unfold substring_from. rewrite strlen_app.
  pose proof (substring_app_mid pre b1 []) as H.
  by rewrite app_nil_r in H.
Qed.

Lemma truncate_at_length (p : Parser.t) (pre : jsstring) :
  start_index p = strlen (buffer p) -> element_end p = Num (strlen pre - 1) ->
  (length pre <= length (buffer p))%nat ->
  truncate p = p.
Proof.
  intros Hs He Hl. unfold truncate. rewrite Hs, He. cbn [JS.ge].
  rewrite (proj2 (Z.leb_gt _ _)) by (unfold strlen; lia).
  by rewrite andb_false_r.
Qed.

(** One call of [receive] on a parser that waits in a stream. *)
Lemma receive_waiting (p : Parser.t) (eb : list jsstring)
  (toks : list (jsstring * Z)) (packet rest : jsstring) :
  Forall is_terminator toks ->
  waiting p eb toks (packet ++ rest) ->
  exists completed toks' p',
    receive p packet
    = Some {| parser := p'; emitted := snd (emit eb completed);
              completion := Returned |} /\
    toks = completed ++ toks' /\
    waiting p' (fst (emit eb completed)) toks' rest.
Proof.
  intros Hterm (Heb & Hon & Hpos). unfold receive.
  destruct toks as [|[value t] todo].
  - (* the stream has ended *)
    destruct Hpos as (Hrest & Hs & He).
    apply app_eq_nil in Hrest as [-> ->].
    rewrite (truncate_at_length p (buffer p) Hs He) by lia.
    set (p1 := append p []).
    assert (buffer p1 = buffer p ++ [] ++ []) as Hb1 by reflexivity.
    replace (length (buffer p1) + 2)%nat with (S (length (buffer p1) + 1))
      by lia.
    assert (strlen (buffer p1) = strlen (buffer p)) as Hl1
      by (by rewrite Hb1, !app_nil_r).
    cbn [parse_loop]. cbn [element_end p1 append]. rewrite He.
    cbn [JS.lt]. rewrite Hl1.
    rewrite (proj2 (Z.ltb_lt _ _)) by lia.
    assert (take_element p1 [] = inl (p1, [])) as Et.
    { unfold take_element. cbn [element_end start_index p1 append].
      rewrite He, Hs. cbn [JS.ge].
      by rewrite (proj2 (Z.leb_gt _ _)) by lia. }
    rewrite Et.
    rewrite (read_length_no_dot p1 (buffer p) [] [] Hb1 (Forall_nil_2 _))
      by (cbn [start_index p1 append]; rewrite Hs;
          change (strlen []) with 0; lia).
    exists [], [], {| buffer := buffer p1;
                      element_buffer := element_buffer p1;
                      element_end := element_end p1;
                      start_index := strlen (buffer p1);
                      oninstruction := oninstruction p1 |}.
    cbn [emit fst snd].
    split; [reflexivity|]. split; [reflexivity|].
    split; [exact Heb|]. split; [exact Hon|].
    split; [reflexivity|]. split; [reflexivity|].
    cbn [element_end buffer p1 append]. rewrite He. by rewrite app_nil_r.
  - destruct Hpos as [(pre & b1 & b2 & Hb & Ev & Hrest & Hs & He)
                     |(pre & d1 & d2 & Hb & Ed & Hrest & Hs & He)];
      cbn [fst snd] in *.
    + (* waiting for the body *)
      destruct (truncate_at_body p pre b1 value Hb Hs He)
        as (pre' & Hb' & Hs' & He' & Heb' & Hon').
      set (p1 := append (truncate p) packet).
      destruct (parse_loop_stream todo (length (buffer p1) + 2) p1 value t
                  pre' (b1 ++ packet) rest [])
        as (completed & toks' & p' & Eloop & Etoks & Hwait).
      * exact Hterm.
      * cbn [buffer p1 append]. by rewrite Hb', <- app_assoc.
      * exact Hs'.
      * exact He'.
      * cbn [oninstruction p1 append]. by rewrite Hon'.
      * by rewrite <- app_assoc, Hrest, app_assoc, <- Ev.
      * cbn [buffer p1 append]. rewrite Hb', !length_app. lia.
      * exists completed, toks', p'.
        cbn [element_buffer p1 append] in Eloop, Hwait.
        rewrite Heb', Heb in Eloop, Hwait. by cbn [app] in Eloop.
    + (* waiting for the length *)
      assert (length pre <= length (buffer p))%nat as Hl
        by (rewrite Hb, length_app; lia).
      rewrite (truncate_at_length p pre Hs He Hl).
      set (p1 := append p packet).
      pose proof (strlen_nonneg pre) as Hpre.
      replace (length (buffer p1) + 2)%nat with (S (length (buffer p1) + 1))
      by lia.
      assert (strlen (buffer p1) = strlen pre + strlen d1 + strlen packet)
        as Hl1 by (cbn [buffer p1 append]; by rewrite Hb, !strlen_app).
      cbn [parse_loop]. cbn [element_end p1 append]. rewrite He.
      cbn [JS.lt]. rewrite Hl1.
      pose proof (strlen_nonneg d1). pose proof (strlen_nonneg packet).
      rewrite (proj2 (Z.ltb_lt _ _)) by lia.
      assert (take_element p1 [] = inl (p1, [])) as Et.
      { unfold take_element. cbn [element_end start_index p1 append].
        rewrite He, Hs, Hb, strlen_app. cbn [JS.ge].
        by rewrite (proj2 (Z.leb_gt _ _)) by lia. }
      rewrite Et.
      assert (start_index p1 = strlen pre + strlen d1) as Hs1
        by (cbn [start_index p1 append]; by rewrite Hs, Hb, strlen_app).
      destruct (le_lt_dec (length packet) (length d2)) as [Hle|Hgt].
      * (* the period has not arrived *)
        destruct (app_split_le packet rest d2 _ Hrest Hle)
          as (d2' & Ed2 & Erest).
        destruct (digits_no_dot value d1 d2 Ed) as [_ Hno].
        rewrite Ed2 in Hno. apply Forall_app in Hno as [Hno _].
        assert (buffer p1 = pre ++ d1 ++ packet) as Hb1
          by (cbn [buffer p1 append]; by rewrite Hb, <- app_assoc).
        rewrite (read_length_no_dot p1 pre d1 packet Hb1 Hno Hs1).
        exists [], ((value, t) :: todo),
          {| buffer := buffer p1; element_buffer := element_buffer p1;
             element_end := element_end p1;
             start_index := strlen (buffer p1);
             oninstruction := oninstruction p1 |}.
        cbn [emit fst snd].
        split; [reflexivity|]. split; [reflexivity|].
        split; [exact Heb|]. split; [exact Hon|].
        right. exists pre, (d1 ++ packet), d2'. cbn [fst snd].
        split; [exact Hb1|].
        split; [by rewrite Ed, Ed2, app_assoc|].
        split; [exact Erest|]. split; [reflexivity | exact He].
      * (* the length is read *)
        destruct (app_split_gt packet rest d2 _ DOT Hrest Hgt)
          as (av & Epacket & Hav).
        assert (buffer p1 = pre ++ d1 ++ d2 ++ DOT :: av) as Hb1
          by (cbn [buffer p1 append]; by rewrite Hb, Epacket, <- app_assoc).
        assert (element_end p1 = Num (strlen pre - 1)) as He1 by exact He.
        rewrite (read_length_digits p1 pre d1 d2 value av Hb1 Ed Hs1 He1).
        set (pre2 := pre ++ d1 ++ d2 ++ [DOT]).
        set (p2 := {| buffer := buffer p1;
                      element_buffer := element_buffer p1;
                      element_end := Num (strlen pre2 + strlen value);
                      start_index := strlen pre2;
                      oninstruction := oninstruction p1 |}).
        destruct (parse_loop_stream todo (length (buffer p1) + 1) p2 value t
                    pre2 av rest [])
          as (completed & toks' & p' & Eloop & Etoks & Hwait).
        -- exact Hterm.
        -- cbn [buffer p2]. rewrite Hb1. unfold pre2.
           by rewrite <- !app_assoc.
        -- reflexivity.
        -- reflexivity.
        -- exact Hon.
        -- exact Hav.
        -- rewrite Hb1, !length_app. cbn [length]. lia.
        -- exists completed, toks', p'.
           cbn [element_buffer p2 p1 append] in Eloop, Hwait.
           rewrite Heb in Eloop, Hwait. by cbn [app] in Eloop.
Qed.

Lemma waiting_ended (p : Parser.t) (eb : list jsstring)
  (toks : list (jsstring * Z)) :
  waiting p eb toks [] -> toks = [].
Proof.
  intros (_ & _ & Hpos). destruct toks as [|tok todo]; [done|].
  destruct Hpos as [(pre & b1 & b2 & _ & _ & Hrest & _)
                   |(pre & d1 & d2 & _ & _ & Hrest & _)];
    symmetry in Hrest; by apply app_eq_nil in Hrest as [_ Hrest].
Qed.

Lemma receive_all_waiting (packets : list jsstring) :
  forall (p : Parser.t) (eb : list jsstring) (toks : list (jsstring * Z)),
    Forall is_terminator toks ->
    waiting p eb toks (concat packets) ->
    exists p',
      receive_all p packets = Some (p', snd (emit eb toks)) /\
      waiting p' (fst (emit eb toks)) [] [].
Proof.
  induction packets as [|packet more IH]; intros p eb toks Hterm Hwait.
  - cbn [concat] in Hwait. pose proof (waiting_ended p eb toks Hwait) as ->.
    by exists p.
  - cbn [concat] in Hwait.
    destruct (receive_waiting p eb toks packet (concat more) Hterm Hwait)
      as (completed & toks' & p1 & Er & -> & Hwait1).
    apply Forall_app in Hterm as [_ Hterm'].
    destruct (IH p1 _ toks' Hterm' Hwait1) as (p' & Eall & Hend).
    exists p'. cbn [receive_all]. rewrite Er. cbn [completion parser emitted].
    rewrite Eall, emit_app. by cbn [fst snd].
Qed.

Lemma stream_app (a b : list (jsstring * Z)) :
  stream (a ++ b) = stream a ++ stream b.
Proof.
  induction a as [|[value t] a IH]; [done|].
  cbn [app stream]. rewrite IH. by rewrite <- app_assoc.
Qed.

Lemma stream_element_tokens (rest : list jsstring) :
  forall first,
    stream (element_tokens first rest) = getElement first ++ wire_tail rest.
Proof.
  induction rest as [|e rest IH]; intros first; cbn [element_tokens stream].
  - done.
  - by rewrite IH.
Qed.

Lemma stream_tokens (instructions : list Instruction) :
  stream (tokens instructions) = WebSocketTunnel.wire instructions.
Proof.
  induction instructions as [|[opcode parameters] rest IH]; [done|].
  cbn [tokens]. rewrite stream_app, stream_element_tokens, IH.
  by rewrite wire_cons.
Qed.

Lemma emit_element_tokens (rest : list jsstring) :
  forall (eb : list jsstring) (first : jsstring) (more : list (jsstring * Z)),
    emit eb (element_tokens first rest ++ more)
    = (fst (emit [] more),
       (hd [] (eb ++ first :: rest), tl (eb ++ first :: rest))
         :: snd (emit [] more)).
Proof.
  induction rest as [|e rest IH]; intros eb first more;
    cbn [element_tokens app emit].
  - rewrite bool_decide_eq_true_2 by done. by destruct (emit [] more).
  - rewrite bool_decide_eq_false_2 by done. rewrite IH.
    by rewrite <- app_assoc.
Qed.

Lemma emit_tokens (instructions : list Instruction) :
  emit [] (tokens instructions) = ([], instructions).
Proof.
  induction instructions as [|[opcode parameters] rest IH]; [done|].
  cbn [tokens]. rewrite emit_element_tokens, IH. reflexivity.
Qed.

Lemma tokens_terminated (instructions : list Instruction) :
  Forall is_terminator (tokens instructions).
Proof.
  induction instructions as [|[opcode parameters] rest IH]; [constructor|].
  cbn [tokens]. apply Forall_app. split; [|exact IH]. clear.
  revert opcode.
  induction parameters as [|e parameters IH]; intros first;
    cbn [element_tokens].
  - constructor; [by right | constructor].
  - constructor; [by left | apply IH].
Qed.

(** X17: Instructions written as [sendMessage] writes
    them and cut into packets at any places (in the middle of a length,
    of an element, before a terminator; empty packets too) are
    recovered by a new parser: no call of [receive] throws, and the
    instructions handed to [oninstruction], taken over all calls, are
    the instructions sent, in order. *)
Theorem receive_packets (instructions : list Instruction)
  (packets : list jsstring) :
  concat packets = WebSocketTunnel.wire instructions ->
  exists p',
    receive_all (set_oninstruction Parser.new) packets
    = Some (p', instructions) /\
    element_buffer p' = [] /\ start_index p' = strlen (buffer p').
Proof.
  intros Hc.
  destruct (receive_all_waiting packets (set_oninstruction Parser.new) []
              (tokens instructions) (tokens_terminated instructions))
    as (p' & Eall & Hend).
  - rewrite Hc, <- stream_tokens.
    split; [reflexivity|]. split; [reflexivity|].
    destruct (tokens instructions) as [|[value t] todo] eqn:Et.
    + by repeat split.
    + right. exists [], [], (number_toString (strlen value)).
      cbn [fst snd]. rewrite stream_cons. by repeat split.
  - rewrite emit_tokens in Eall, Hend. cbn [fst snd] in Eall, Hend.
    exists p'. split; [exact Eall|].
    destruct Hend as (Heb & _ & _ & Hs & _). by split.
Qed.

Lemma receive_packets_witness :
  exists p',
    receive_all (set_oninstruction Parser.new)
      [[52; 46; 115; 121]; []; [110; 99; 44; 50]; [46; 49; 50; 59; 51];
       [46; 110; 111; 112]; [59]]
    = Some (p', [([115; 121; 110; 99], [[49; 50]]); ([110; 111; 112], [])]) /\
    element_buffer p' = [] /\ start_index p' = strlen (buffer p').
Proof.
  apply (receive_packets
           [([115; 121; 110; 99], [[49; 50]]); ([110; 111; 112], [])]
           [[52; 46; 115; 121]; []; [110; 99; 44; 50]; [46; 49; 50; 59; 51];
            [46; 110; 111; 112]; [59]]).
  reflexivity.
Defined.

(** The loop never changes the buffer. *)
Lemma parse_loop_buffer (fuel : nat) :
  forall (p : Parser.t) (out : list Instruction) (r : Result),
    parse_loop fuel p out = Some r -> buffer (parser r) = buffer p.
Proof.
  induction fuel as [|fuel IH]; intros p out r H; [done|].
  cbn [parse_loop] in H.
  destruct (JS.lt _ _); [|by injection H as <-].
  destruct (take_element p out) as [[p1 out1]|[p1 out1]] eqn:Et.
  - destruct (take_element_start p p1 out out1 Et) as [Hb1 _].
    destruct (read_length p1) as [p2|[p2 c]] eqn:Er.
    + destruct (read_length_start p1 p2 Er) as [Hb2 _].
      rewrite (IH p2 out1 r H). by rewrite Hb2.
    + injection H as <-. cbn [parser]. rewrite <- Hb1.
      unfold read_length in Er.
      destruct (negb _); [|by injection Er as <- _].
      destruct (JS.eq _ _); [by injection Er as <- _ | done].
  - injection H as <-. cbn [parser].
    unfold take_element in Et.
    destruct (JS.ge _ _); [|done].
    repeat case_bool_decide; try discriminate; by injection Et as <- _.
Qed.

(** A parser that has taken everything it received. *)
Lemma receive_batch (p : Parser.t) (batch : list Instruction) :
  element_buffer p = [] -> oninstruction p = true ->
  start_index p = strlen (buffer p) ->
  element_end p = Num (strlen (buffer p) - 1) ->
  exists p',
    receive p (WebSocketTunnel.wire batch)
    = Some {| parser := p'; emitted := batch; completion := Returned |} /\
    buffer p' = buffer p ++ WebSocketTunnel.wire batch /\
    element_buffer p' = [] /\ oninstruction p' = true /\
    start_index p' = strlen (buffer p') /\
    element_end p' = Num (strlen (buffer p') - 1).
Proof.
  intros Heb Hon Hs He.
  destruct (receive_waiting p [] (tokens batch) (WebSocketTunnel.wire batch)
              [] (tokens_terminated batch))
    as (completed & toks' & p' & Er & Etoks & Hwait).
  - rewrite app_nil_r, <- stream_tokens.
    split; [exact Heb|]. split; [exact Hon|].
    destruct (tokens batch) as [|[value t] todo] eqn:Et.
    + by repeat split.
    + right. exists (buffer p), [], (number_toString (strlen value)).
      cbn [fst snd]. rewrite stream_cons, app_nil_r. by repeat split.
  - pose proof (waiting_ended _ _ _ Hwait) as ->.
    rewrite app_nil_r in Etoks. subst completed.
    rewrite emit_tokens in Er, Hwait. cbn [fst snd] in Er, Hwait.
    exists p'. split; [exact Er|].
    destruct Hwait as (Heb' & Hon' & _ & Hs' & He').
    split; [|by repeat split].
    unfold receive in Er. apply parse_loop_buffer in Er.
    cbn [parser] in Er. rewrite Er. cbn [buffer append].
    by rewrite (truncate_at_length p (buffer p) Hs He) by lia.
Qed.

(** X18: A new parser that is given whole instructions
    in every packet hands them all on, and never shortens its buffer:
    after any number of packets the buffer holds every character it ever
    received. *)
Theorem receive_whole_instructions (batches : list (list Instruction)) :
  exists p',
    receive_all (set_oninstruction Parser.new)
      (map WebSocketTunnel.wire batches)
    = Some (p', concat batches) /\
    buffer p' = concat (map WebSocketTunnel.wire batches).
Proof.
  assert (forall p,
            element_buffer p = [] -> oninstruction p = true ->
            start_index p = strlen (buffer p) ->
            element_end p = Num (strlen (buffer p) - 1) ->
            exists p',
              receive_all p (map WebSocketTunnel.wire batches)
              = Some (p', concat batches) /\
              buffer p'
              = buffer p ++ concat (map WebSocketTunnel.wire batches))
    as H; [|by apply (H (set_oninstruction Parser.new))].
  induction batches as [|batch more IH]; intros p Heb Hon Hs He.
  - exists p. cbn. by rewrite app_nil_r.
  - destruct (receive_batch p batch Heb Hon Hs He)
      as (p1 & Er & Hb1 & Heb1 & Hon1 & Hs1 & He1).
    destruct (IH p1 Heb1 Hon1 Hs1 He1) as (p' & Eall & Hb').
    exists p'. cbn [map receive_all concat]. rewrite Er.
    cbn [completion parser emitted]. rewrite Eall.
    split; [reflexivity|]. by rewrite Hb', Hb1, <- app_assoc.
Qed.

End ParserPackets.

(** ** HTTPTunnel: reading a response *)
Section HTTPReading.

Import Codec ParserStream HTTPResponse.

Lemma take_element_current (current pre value post : jsstring) (t : Z)
  (v : HTTPResponse.t) (out : list Parser.Instruction) :
  current = pre ++ value ++ t :: post ->
  startIndex v = strlen pre ->
  elementEnd v = Num (strlen pre + strlen value) ->
  take_element current v out
  = ({| elementEnd := elementEnd v;
        startIndex := strlen pre + strlen value + 1;
        elements := fst (emit (elements v) [(value, t)]) |},
     out ++ snd (emit (elements v) [(value, t)])).
Proof.
  intros -> Hs He. unfold take_element. rewrite Hs, He.
  cbn [JS.ge JS.add ToInteger]. pose proof (strlen_nonneg value).
  rewrite (proj2 (Z.leb_le _ _)) by lia.
  rewrite substring_app_mid, substring_terminator. cbn [emit].
  destruct (decide (t = SEMICOLON)) as [->|Hne].
  - by rewrite !bool_decide_eq_true_2 by done.
  - rewrite !bool_decide_eq_false_2 by (try done; by intros [=]).
    cbn [fst snd]. by rewrite app_nil_r.
Qed.

(** The length of an element is read: the response is finished when it
    is 0. *)
Lemma read_length_current (current pre value post : jsstring)
  (v : HTTPResponse.t) :
  current = pre ++ getElement value ++ post ->
  startIndex v = strlen pre ->
  elementEnd v = Num (strlen pre - 1) ->
  read_length current v
  = if decide (value = []) then inr (v, Finished)
    else inl {| elementEnd :=
                  Num (strlen (pre ++ number_toString (strlen value)
                                 ++ [DOT]) + strlen value);
                startIndex :=
                  strlen (pre ++ number_toString (strlen value) ++ [DOT]);
                elements := elements v |}.
Proof.
  intros -> Hs He. unfold read_length, getElement. rewrite Hs, He.
  set (digits := number_toString (strlen value)).
  rewrite <- !app_assoc. cbn [app].
  destruct (number_toString_spec (strlen value) (strlen_nonneg value))
    as (_ & Hdec & _). fold digits in Hdec.
  rewrite indexOf_app by (by apply decimal_not_dot).
  pose proof (strlen_nonneg pre). pose proof (strlen_nonneg digits).
  rewrite (proj2 (Z.eqb_neq _ _)) by lia. cbn [negb JS.add].
  replace (strlen pre - 1 + 1) with (strlen pre) by lia.
  rewrite substring_app_mid.
  assert (parseInt digits = Num (strlen value)) as Ep
    by (apply parseInt_number_toString, strlen_nonneg).
  rewrite Ep. cbn [JS.eq JS.add].
  destruct (decide (value = [])) as [->|Hne].
  - reflexivity.
  - assert (strlen value <> 0) as Hl.
    { destruct value as [|c value]; [done|].
      rewrite strlen_cons. pose proof (strlen_nonneg value). lia. }
    rewrite (proj2 (Z.eqb_neq _ _)) by exact Hl.
    rewrite !strlen_app. change (strlen [DOT]) with 1. subst digits.
    f_equal. f_equal; [f_equal; lia | lia].
Qed.

(** The loop entered when the length of an element was just read, an
    empty element following the tokens. *)
Lemma parse_loop_tokens (todo : list (jsstring * Z)) :
  forall (fuel : nat) (pre value tail : jsstring) (t : Z)
         (v : HTTPResponse.t) (out : list Parser.Instruction),
    Forall (fun tok => fst tok <> []) todo ->
    startIndex v = strlen pre ->
    elementEnd v = Num (strlen pre + strlen value) ->
    exists v',
      parse_loop (S (length todo) + fuel)
        (pre ++ value ++ t :: stream todo ++ getElement [] ++ tail) v out
      = Some (v', out ++ snd (emit (elements v) ((value, t) :: todo)),
              Finished).
Proof.
  induction todo as [|[value' t'] todo IH];
    intros fuel pre value tail t v out Hne Hs He;
    pose proof (strlen_nonneg pre); pose proof (strlen_nonneg value).
  - cbn [length Nat.add parse_loop stream app]. rewrite He. cbn [JS.lt].
    rewrite (proj2 (Z.ltb_lt _ _))
      by (rewrite !strlen_app, strlen_cons;
          pose proof (strlen_nonneg (getElement [] ++ tail)); lia).
    rewrite (take_element_current _ pre value (getElement [] ++ tail) t)
      by done.
    rewrite (read_length_current _ (pre ++ value ++ [t]) [] tail).
    + rewrite decide_True by done. by eexists.
    + by rewrite <- !app_assoc.
    + cbn [startIndex]. rewrite !strlen_app. change (strlen [t]) with 1. lia.
    + cbn [elementEnd]. rewrite He, !strlen_app. change (strlen [t]) with 1.
      f_equal. lia.
  - change (S (length ((value', t') :: todo)) + fuel)%nat
      with (S (S (length todo) + fuel)).
    set (f := (S (length todo) + fuel)%nat).
    cbn [parse_loop stream]. rewrite He. cbn [JS.lt].
    rewrite (proj2 (Z.ltb_lt _ _)).
    2:{ rewrite !strlen_app, strlen_cons.
        pose proof (strlen_nonneg
                      ((getElement value' ++ t' :: stream todo)
                         ++ getElement [] ++ tail)). lia. }
    rewrite (take_element_current _ pre value
               ((getElement value' ++ t' :: stream todo)
                  ++ getElement [] ++ tail) t) by done.
    apply Forall_cons in Hne as [Hne' Hne]. cbn [fst] in Hne'.
    rewrite (read_length_current _ (pre ++ value ++ [t]) value'
               (t' :: stream todo ++ getElement [] ++ tail)).
    + rewrite decide_False by done.
      set (pre2 := (pre ++ value ++ [t])
                     ++ number_toString (strlen value') ++ [DOT]).
      destruct (IH fuel pre2 value' tail t'
                  {| elementEnd := Num (strlen pre2 + strlen value');
                     startIndex := strlen pre2;
                     elements := fst (emit (elements v) [(value, t)]) |}
                  (out ++ snd (emit (elements v) [(value, t)])) Hne
                  eq_refl eq_refl) as [v' E].
      exists v'. subst f.
      replace (pre ++ value ++
               t :: (getElement value' ++ t' :: stream todo)
                      ++ getElement [] ++ tail)
        with (pre2 ++ value' ++ t' :: stream todo ++ getElement [] ++ tail)
        by (unfold pre2, getElement; rewrite <- ?app_assoc; cbn [app];
            rewrite <- ?app_assoc; reflexivity).
      cbn [elements]. cbn [elements] in E. rewrite E.
      rewrite (emit_cons (elements v) (value, t) ((value', t') :: todo)).
      cbn [fst snd]. by rewrite app_assoc.
    + rewrite <- ?app_assoc. cbn [app]. rewrite <- ?app_assoc. reflexivity.
    + cbn [startIndex]. rewrite !strlen_app. change (strlen [t]) with 1. lia.
    + cbn [elementEnd]. rewrite He, !strlen_app. change (strlen [t]) with 1.
      f_equal. lia.
Qed.

Lemma parse_loop_response (toks : list (jsstring * Z)) (tail : jsstring)
  (fuel : nat) :
  Forall (fun tok => fst tok <> []) toks ->
  exists v',
    parse_loop (S (length toks) + fuel)
      (stream toks ++ getElement [] ++ tail) HTTPResponse.new []
    = Some (v', snd (emit [] toks), Finished).
Proof.
  intros Hne. unfold HTTPResponse.new.
  destruct toks as [|[value t] todo].
  - cbn [length Nat.add parse_loop stream app HTTPResponse.new elementEnd
           JS.lt].
    rewrite (proj2 (Z.ltb_lt _ _))
      by (pose proof (strlen_nonneg (getElement [] ++ tail)); lia).
    unfold take_element. cbn [elementEnd startIndex JS.ge Z.leb Z.compare].
    rewrite (read_length_current _ [] [] tail) by done.
    rewrite decide_True by done. by eexists.
  - apply Forall_cons in Hne as [Hne' Hne]. cbn [fst] in Hne'.
    change (S (length ((value, t) :: todo)) + fuel)%nat
      with (S (S (length todo) + fuel)).
    set (f := (S (length todo) + fuel)%nat).
    cbn [parse_loop HTTPResponse.new elementEnd JS.lt].
    rewrite (proj2 (Z.ltb_lt _ _)).
    2:{ match goal with
        | |- _ < strlen ?s => pose proof (strlen_nonneg s)
        end. lia. }
    unfold take_element. cbn [elementEnd startIndex JS.ge Z.leb Z.compare].
    rewrite (read_length_current _ [] value
               (t :: stream todo ++ getElement [] ++ tail)).
    + rewrite decide_False by done. cbn [app].
      set (pre := number_toString (strlen value) ++ [DOT]).
      destruct (parse_loop_tokens todo fuel pre value tail t
                  {| elementEnd := Num (strlen pre + strlen value);
                     startIndex := strlen pre; elements := [] |} [] Hne
                  eq_refl eq_refl) as [v' E].
      exists v'. subst f.
      replace (stream ((value, t) :: todo) ++ getElement [] ++ tail)
        with (pre ++ value ++ t :: stream todo ++ getElement [] ++ tail)
        by (cbn [stream]; unfold pre, getElement; rewrite <- ?app_assoc;
            cbn [app]; rewrite <- ?app_assoc; reflexivity).
      exact E.
    + cbn [stream app]. rewrite <- ?app_assoc. reflexivity.
    + reflexivity.
    + reflexivity.
Qed.

(** X19: The reader of the HTTP tunnel takes any
    element of length 0 for the end of the response: elements and
    instructions before it are handled as usual, the instruction it
    belongs to is not handed on, and nothing after it is read. *)
Theorem empty_element_ends_response (toks : list (jsstring * Z))
  (tail : jsstring) (fuel : nat) :
  Forall (fun tok => fst tok <> []) toks ->
  exists v',
    parse_loop (S (length toks) + fuel)
      (stream toks ++ getElement [] ++ tail) HTTPResponse.new []
    = Some (v', snd (emit [] toks), Finished).
Proof. apply parse_loop_response. Qed.

Lemma empty_element_ends_response_witness :
  exists v',
    parse_loop 3
      (stream [([97; 99; 107], COMMA); ([49], COMMA)] ++ getElement []
         ++ [COMMA; 49; 46; 48; SEMICOLON; 51; 46; 110; 111; 112; SEMICOLON])
      HTTPResponse.new []
    = Some (v', [], Finished).
Proof.
  apply (empty_element_ends_response
           [([97; 99; 107], COMMA); ([49], COMMA)]
           [COMMA; 49; 46; 48; SEMICOLON; 51; 46; 110; 111; 112; SEMICOLON]
           0).
  repeat (apply Forall_cons_2; [done|]). apply Forall_nil_2.
Defined.

(** X20: A response that holds instructions without empty
    elements, as [sendMessage] writes them, and then the end marker
    [0.;] is read completely: every instruction is handed to
    [oninstruction], in order, and the response is finished. *)
Theorem response_round_trip (instructions : list Parser.Instruction)
  (fuel : nat) :
  Forall (fun tok => fst tok <> []) (tokens instructions) ->
  exists v',
    parse_loop (S (length (tokens instructions)) + fuel)
      (WebSocketTunnel.wire instructions ++ getElement [] ++ [SEMICOLON])
      HTTPResponse.new []
    = Some (v', instructions, Finished).
Proof.
  intros Hne.
  destruct (parse_loop_response (tokens instructions) [SEMICOLON] fuel Hne)
    as [v' E].
  exists v'. by rewrite stream_tokens, emit_tokens in E.
Qed.

Lemma response_round_trip_witness :
  exists v',
    parse_loop 4
      (WebSocketTunnel.wire
         [([115; 121; 110; 99], [[49; 50]]); ([110; 111; 112], [])]
         ++ getElement [] ++ [SEMICOLON])
      HTTPResponse.new []
    = Some (v', [([115; 121; 110; 99], [[49; 50]]); ([110; 111; 112], [])],
            Finished).
Proof.
  apply (response_round_trip
           [([115; 121; 110; 99], [[49; 50]]); ([110; 111; 112], [])] 0).
  cbn [tokens element_tokens app].
  repeat (apply Forall_cons_2; [done|]). apply Forall_nil_2.
Defined.

End HTTPReading.

(** ** RawAudioPlayer: the packet queue *)
Section AudioQueue.

Import RawAudioPlayer.

Variables channels minSplitSamples : Z.
Hypothesis channels_positive : 0 < channels.
Hypothesis minSplitSamples_nonneg : 0 <= minSplitSamples.

Lemma split_loop_spec (data : list Z) (fuel : nat) :
  forall (offset : Z) (minValue : jsnum) (optimalSplitLength : Z),
    Z.max 0 (strlen data - offset) < Z.of_nat fuel ->
    exists r,
      split_loop fuel channels data offset minValue optimalSplitLength
      = Some r /\
      (0 <= offset -> 0 <= optimalSplitLength -> 0 <= r) /\
      ((channels | offset) -> (channels | optimalSplitLength) ->
       (channels | r)).
Proof.
  induction fuel as [|fuel IH]; intros offset minValue osl Hfuel; [lia|].
  cbn [split_loop].
  destruct (Z.ltb_spec offset (strlen data)) as [Hlt|Hge].
  - assert (forall mv o,
              exists r,
                split_loop fuel channels data (offset + channels) mv o
                = Some r /\
                (0 <= offset + channels -> 0 <= o -> 0 <= r) /\
                ((channels | offset + channels) -> (channels | o) ->
                 (channels | r))) as Hnext
      by (intros mv o; apply IH; lia).
    destruct (JS.ge _ _).
    + destruct (Hnext
                  (sum_channels (Z.to_nat channels) data offset (Num 0))
                  (offset + channels)) as (r & E & Hpos & Hdiv).
      exists r. split; [exact E|]. split.
      * intros Ho _. apply Hpos; lia.
      * intros Ho _.
        assert (channels | offset + channels)
          by (apply Z.divide_add_r; [exact Ho | apply Z.divide_refl]).
        by apply Hdiv.
    + destruct (Hnext minValue osl) as (r & E & Hpos & Hdiv).
      exists r. split; [exact E|]. split.
      * intros Ho Hosl. apply Hpos; lia.
      * intros Ho Hosl. apply Hdiv; [|exact Hosl].
        apply Z.divide_add_r; [exact Ho | apply Z.divide_refl].
  - exists osl. by repeat split.
Qed.

Lemma whole_frames_concat (packets : list (list Z)) :
  Forall (whole_frames channels) packets ->
  whole_frames channels (concat packets).
Proof.
  unfold whole_frames. induction 1 as [|p packets Hp _ IH]; cbn [concat].
  - apply Z.divide_0_r.
  - rewrite strlen_app. by apply Z.divide_add_r.
Qed.

Lemma splitAudioPacket_spec (data : list Z) :
  exists first rest,
    splitAudioPacket channels minSplitSamples data = Some (first :: rest) /\
    first ++ concat rest = data /\ (length rest <= 1)%nat /\
    (whole_frames channels data ->
     whole_frames channels first /\ Forall (whole_frames channels) rest).
Proof.
  unfold splitAudioPacket.
  set (start := Z.max (channels * minSplitSamples)
                  (channels * (strlen data / channels - minSplitSamples))).
  assert (0 <= start) as Hstart by (unfold start; nia).
  assert (channels | start) as Hdstart.
  { unfold start.
    destruct (Z.max_spec (channels * minSplitSamples)
                (channels * (strlen data / channels - minSplitSamples)))
      as [[_ ->]|[_ ->]]; apply Z.divide_factor_l. }
  pose proof (strlen_nonneg data) as Hlen.
  destruct (split_loop_spec data (S (length data)) start (Num MAX_VALUE)
              (strlen data)) as (r & E & Hpos & Hdiv);
    [unfold strlen in *; lia|].
  rewrite E. specialize (Hpos Hstart Hlen).
  destruct (Z.eqb_spec r (strlen data)) as [->|Hne].
  - exists data, []. cbn [concat length]. rewrite app_nil_r.
    split; [reflexivity|]. split; [reflexivity|]. split; [lia|].
    intros H. split; [exact H | constructor].
  - exists (take (Z.to_nat r) data), [drop (Z.to_nat r) data].
    cbn [concat length]. rewrite app_nil_r, take_drop.
    split; [reflexivity|]. split; [reflexivity|]. split; [lia|].
    intros Hd. specialize (Hdiv Hdstart Hd). unfold whole_frames in *.
    assert (strlen (take (Z.to_nat r) data) = Z.min r (strlen data)) as Et
      by (unfold strlen; rewrite length_take; lia).
    assert (strlen (drop (Z.to_nat r) data)
            = strlen data - Z.min r (strlen data)) as Ed
      by (unfold strlen; rewrite length_drop; lia).
    assert (channels | Z.min r (strlen data)) as Hmin
      by (destruct (Z.min_spec r (strlen data)) as [[_ ->]|[_ ->]]; done).
    split; [by rewrite Et|].
    constructor; [|constructor]. rewrite Ed. by apply Z.divide_sub_r.
Qed.

Lemma joinAudioPackets_push (packetQueue : list (list Z)) (data : list Z) :
  joinAudioPackets (pushAudioPacket packetQueue data)
  = Some (concat packetQueue ++ data).
Proof.
  unfold pushAudioPacket, joinAudioPackets.
  destruct packetQueue as [|p [|q packetQueue]]; cbn [app concat];
    rewrite ?concat_app; cbn [concat app];
    rewrite ?app_nil_r, <- ?app_assoc; reflexivity.
Qed.

Lemma ondata_spec (packetQueue : list (list Z)) (data : list Z) :
  exists packet queue1,
    ondata channels minSplitSamples packetQueue data
    = Some (queue1, Some packet) /\
    packet ++ concat queue1 = concat packetQueue ++ data /\
    (length queue1 <= 1)%nat /\
    (Forall (whole_frames channels) packetQueue ->
     whole_frames channels data ->
     whole_frames channels packet /\
     Forall (whole_frames channels) queue1).
Proof.
  unfold ondata, shiftAudioPacket. rewrite joinAudioPackets_push.
  destruct (splitAudioPacket_spec (concat packetQueue ++ data))
    as (first & rest & E & Hc & Hl & Hw).
  rewrite E. exists first, rest.
  split; [reflexivity|]. split; [exact Hc|]. split; [exact Hl|].
  intros Hq Hd. apply Hw. unfold whole_frames. rewrite strlen_app.
  apply Z.divide_add_r; [by apply whole_frames_concat | exact Hd].
Qed.

Lemma play_spec (received : list (list Z)) :
  forall packetQueue : list (list Z),
    exists queue played,
      play channels minSplitSamples packetQueue received
      = Some (queue, played) /\
      concat played ++ concat queue
      = concat packetQueue ++ concat received /\
      length played = length received /\
      (Forall (whole_frames channels) packetQueue ->
       Forall (whole_frames channels) received ->
       Forall (whole_frames channels) played /\
       Forall (whole_frames channels) queue).
Proof.
  induction received as [|data rest IH]; intros packetQueue.
  - exists packetQueue, []. cbn [play concat app length].
    rewrite app_nil_r. by repeat split.
  - destruct (ondata_spec packetQueue data)
      as (packet & queue1 & E & Hc & _ & Hw).
    destruct (IH queue1) as (queue & played & E' & Hc' & Hl' & Hw').
    exists queue, (packet :: played). cbn [play]. rewrite E, E'.
    split; [reflexivity|]. cbn [concat length].
    split; [by rewrite <- app_assoc, Hc', app_assoc, Hc, <- app_assoc|].
    split; [by rewrite Hl'|].
    intros Hq Hr. apply Forall_cons in Hr as [Hd Hr].
    destruct (Hw Hq Hd) as [Hp Hq1]. destruct (Hw' Hq1 Hr) as [Hpl Hqe].
    split; [by constructor | exact Hqe].
Qed.

(** X21: With at least one channel, the queue of the
    raw audio player neither loses nor repeats nor reorders a sample:
    for every packet received one packet is played, and the packets
    played, followed by what is left in the queue, are the samples
    received. *)
Theorem play_conserves_samples (received : list (list Z)) :
  exists queue played,
    play channels minSplitSamples [] received = Some (queue, played) /\
    concat played ++ concat queue = concat received /\
    length played = length received.
Proof.
  destruct (play_spec received []) as (queue & played & E & Hc & Hl & _).
  exists queue, played. by repeat split.
Qed.

(** X22: When every packet received holds whole frames (a
    sample for each channel), so does every packet played: the queue
    cuts packets only between frames, and channels are not swapped. *)
Theorem play_keeps_frames (received : list (list Z)) :
  Forall (whole_frames channels) received ->
  exists queue played,
    play channels minSplitSamples [] received = Some (queue, played) /\
    Forall (whole_frames channels) played /\
    Forall (whole_frames channels) queue.
Proof.
  intros Hr.
  destruct (play_spec received []) as (queue & played & E & _ & _ & Hw).
  exists queue, played. split; [exact E|]. by apply Hw.
Qed.

End AudioQueue.

Lemma play_conserves_samples_witness :
  exists queue played,
    RawAudioPlayer.play 2 1 [] [[5; -5; 0; 1; 7; 7]; [3; 3]]
    = Some (queue, played) /\
    concat played ++ concat queue = concat [[5; -5; 0; 1; 7; 7]; [3; 3]] /\
    length played = length [[5; -5; 0; 1; 7; 7]; [3; 3]].
Proof.
  apply (play_conserves_samples 2 1); lia.
Defined.

Lemma play_keeps_frames_witness :
  exists queue played,
    RawAudioPlayer.play 2 1 [] [[5; -5; 0; 1; 7; 7]; [3; 3]]
    = Some (queue, played) /\
    Forall (RawAudioPlayer.whole_frames 2) played /\
    Forall (RawAudioPlayer.whole_frames 2) queue.
Proof.
  apply (play_keeps_frames 2 1); [lia | lia |].
  apply Forall_cons_2; [by exists 3|].
  apply Forall_cons_2; [by exists 1|]. apply Forall_nil_2.
Defined.

(** ** Guacamole.Object: bodies and callbacks *)
Section ObjectBodies.

Import GuacObject.

Lemma called_app (name : jsstring) (a b : list Effect) :
  called name (a ++ b) = called name a ++ called name b.
Proof.
  induction a as [|[n|c n|] a IH]; cbn [app called]; [done|done| |done].
  case_bool_decide; by rewrite IH.
Qed.

Lemma waiting_insert (b : gmap jsstring (list nat)) (n name : jsstring) (l : list nat) :
  waiting (<[n := l]> b) name
  = if bool_decide (n = name) then l else waiting b name.
Proof.
  unfold waiting. case_bool_decide as H.
  - subst. by rewrite lookup_insert_eq.
  - by rewrite lookup_insert_ne.
Qed.

Lemma waiting_delete (b : gmap jsstring (list nat)) (n name : jsstring) :
  waiting (delete n b) name
  = if bool_decide (n = name) then [] else waiting b name.
Proof.
  unfold waiting. case_bool_decide as H.
  - subst. by rewrite lookup_delete_eq.
  - by rewrite lookup_delete_ne.
Qed.

(** An operation on an inherited name changes nothing and throws,
    unless one asks for a stream without giving a callback. *)
Lemma step_inherited (b : gmap jsstring (list nat)) (n : jsstring) :
  n ∈ Object_prototype -> b !! n = None ->
  (forall callback,
     step b (RequestInputStream n (Some callback)) = (b, [TypeError])) /\
  step b (Body n) = (b, [TypeError]).
Proof.
  intros Hn Hb.
  assert (get b n = Inherited) as Eg.
  { unfold get. by rewrite Hb, bool_decide_eq_true_2. }
  split; [intros callback|]; cbn [step].
  - unfold requestInputStream, enqueueBodyCallback. by rewrite Eg.
  - unfold onbody, dequeueBodyCallback. by rewrite Eg.
Qed.

Lemma step_own_names (b : gmap jsstring (list nat)) (op : Op) :
  own_names_ordinary b -> own_names_ordinary (fst (step b op)).
Proof.
  intros Hb.
  assert (forall n l, get b n <> Inherited ->
                      own_names_ordinary (<[n := l]> b)) as Hins.
  { intros n l Hg name Hname. destruct (decide (n = name)) as [->|Hne].
    - destruct Hg. unfold get.
      by rewrite (Hb name Hname), bool_decide_eq_true_2.
    - rewrite lookup_insert_ne by done. by apply Hb. }
  assert (forall n, own_names_ordinary (delete n b)) as Hdel.
  { intros n name Hname. destruct (decide (n = name)) as [->|Hne].
    - by rewrite lookup_delete_eq.
    - rewrite lookup_delete_ne by done. by apply Hb. }
  destruct op as [n [callback|]|n]; cbn [step]; [| done |].
  - unfold requestInputStream, enqueueBodyCallback.
    destruct (get b n) eqn:Eg; cbn [fst]; [| |done];
      apply Hins; by rewrite Eg.
  - unfold onbody, dequeueBodyCallback.
    destruct (get b n) eqn:Eg; cbn [fst]; [done| |done].
    case_bool_decide; [apply Hdel | apply Hins; by rewrite Eg].
Qed.

Lemma run_own_names (ops : list Op) :
  forall b : gmap jsstring (list nat),
    own_names_ordinary b -> own_names_ordinary (fst (run b ops)).
Proof.
  induction ops as [|op ops IH]; intros b Hb; [done|].
  cbn [run]. pose proof (step_own_names b op Hb) as H1.
  destruct (step b op) as [b1 effects1]. specialize (IH b1 H1).
  by destruct (run b1 ops).
Qed.

Lemma step_queue (b : gmap jsstring (list nat)) (op : Op) (name : jsstring) :
  name ∉ Object_prototype ->
  called name (snd (step b op)) ++ waiting (fst (step b op)) name
  = waiting b name ++ given name [op].
Proof.
  intros Hname.
  assert (forall n, get b n = Inherited -> n <> name) as Hne.
  { intros n Hg ->. unfold get in Hg. destruct (b !! name); [done|].
    by rewrite bool_decide_eq_false_2 in Hg. }
  assert (forall n, get b n = Undefined -> b !! n = None) as Hu.
  { intros n Hg. unfold get in Hg. by destruct (b !! n). }
  assert (forall n l, get b n = Callbacks l -> b !! n = Some l) as Hc.
  { intros n l Hg. unfold get in Hg. destruct (b !! n); [congruence|].
    by case_bool_decide. }
  destruct op as [n [callback|]|n]; cbn [step given].
  - unfold requestInputStream, enqueueBodyCallback.
    destruct (get b n) as [|callbacks|] eqn:Eg; cbn [fst snd called app].
    + apply Hu in Eg. rewrite waiting_insert.
      case_bool_decide as H; [|by rewrite app_nil_r].
      subst. unfold waiting. by rewrite Eg.
    + apply Hc in Eg. rewrite waiting_insert.
      case_bool_decide as H; [|by rewrite app_nil_r].
      subst. unfold waiting. by rewrite Eg.
    + rewrite bool_decide_eq_false_2 by (by apply Hne).
      by rewrite app_nil_r.
  - cbn [fst snd called app]. by rewrite app_nil_r.
  - unfold onbody, dequeueBodyCallback.
    destruct (get b n) as [|callbacks|] eqn:Eg; cbn [fst snd called app];
      [by rewrite app_nil_r| |by rewrite app_nil_r].
    apply Hc in Eg. rewrite app_nil_r.
    destruct callbacks as [|c callbacks]; cbn [head tail called].
    all: rewrite ?app_nil_r.
    + rewrite bool_decide_eq_true_2 by done. rewrite waiting_delete.
      cbn [app]. case_bool_decide as H; [|done].
      subst. unfold waiting. by rewrite Eg.
    + cbn [fst snd called].
      assert (waiting
                (if bool_decide (length callbacks = 0%nat)
                 then delete n b else <[n := callbacks]> b) name
              = if bool_decide (n = name) then callbacks
                else waiting b name) as Ew.
      { case_bool_decide as Hl.
        - rewrite waiting_delete. destruct callbacks; [done|by cbn in Hl].
        - apply waiting_insert. }
      rewrite Ew. destruct (decide (n = name)) as [->|H].
      * rewrite !bool_decide_eq_true_2 by done. unfold waiting.
        by rewrite Eg.
      * by rewrite !bool_decide_eq_false_2 by done.
Qed.

Lemma given_cons (name : jsstring) (op : Op) (ops : list Op) :
  given name (op :: ops) = given name [op] ++ given name ops.
Proof.
  destruct op as [n [callback|]|n]; cbn [given app]; try done.
  by case_bool_decide.
Qed.

Lemma run_queue (ops : list Op) (name : jsstring) :
  name ∉ Object_prototype ->
  forall b : gmap jsstring (list nat),
    called name (snd (run b ops)) ++ waiting (fst (run b ops)) name
    = waiting b name ++ given name ops.
Proof.
  intros Hname. induction ops as [|op ops IH]; intros b.
  - cbn [run fst snd called given app]. by rewrite app_nil_r.
  - cbn [run]. pose proof (step_queue b op name Hname) as H1.
    destruct (step b op) as [b1 effects1]. specialize (IH b1).
    destruct (run b1 ops) as [b2 effects2]. cbn [fst snd] in *.
    rewrite called_app, given_cons, <- app_assoc, IH.
    by rewrite !app_assoc, H1.
Qed.

(** X23: For every stream name that is not the name of a
    property of [Object.prototype], the callbacks called when bodies
    arrive are called in the order their requests were made, each at
    most once: the callbacks called so far, followed by the callbacks
    still waiting, are the callbacks given with the requests for that
    name; the requests and bodies of other names, inherited names
    included, do not disturb this.  For a name that [Object.prototype]
    has, [constructor] say, a request with a callback and a body both
    end in a TypeError and leave the table as it is: no stream is
    requested and the callback is never called. *)
Theorem body_callbacks_in_order (ops : list Op) (name : jsstring) :
  (name ∉ Object_prototype ->
   called name (snd (run GuacObject.new ops))
     ++ waiting (fst (run GuacObject.new ops)) name
   = given name ops) /\
  (name ∈ Object_prototype ->
   (forall callback,
      step (fst (run GuacObject.new ops))
        (RequestInputStream name (Some callback))
      = (fst (run GuacObject.new ops), [TypeError])) /\
   step (fst (run GuacObject.new ops)) (Body name)
   = (fst (run GuacObject.new ops), [TypeError]) /\
   called name (snd (run GuacObject.new ops)) = []).
Proof.
  split; intros Hname; [by rewrite run_queue|].
  assert (own_names_ordinary (fst (run GuacObject.new ops))) as Hown.
  { apply run_own_names. intros n _. apply lookup_empty. }
  destruct (step_inherited _ name Hname (Hown name Hname)) as [H1 H2].
  split; [exact H1|]. split; [exact H2|].
  clear H1 H2 Hown.
  assert (forall b, own_names_ordinary b ->
                    called name (snd (run b ops)) = []) as H;
    [|apply H; intros n _; apply lookup_empty].
  induction ops as [|op ops IH]; intros b Hb; [done|].
  cbn [run]. pose proof (step_own_names b op Hb) as Hb1.
  assert (called name (snd (step b op)) = []) as Hc.
  { destruct op as [n [callback|]|n]; cbn [step].
    - unfold requestInputStream. by destruct (enqueueBodyCallback b n callback).
    - done.
    - unfold onbody, dequeueBodyCallback, get.
      destruct (b !! n) as [callbacks|] eqn:E; cbn [snd].
      + destruct (head callbacks); [|done]. cbn [called].
        rewrite bool_decide_eq_false_2; [done|].
        intros ->. by rewrite (Hb name Hname) in E.
      + by case_bool_decide. }
  destruct (step b op) as [b1 effects1]. specialize (IH b1 Hb1).
  destruct (run b1 ops) as [b2 effects2]. cbn [fst snd] in *.
  by rewrite called_app, Hc, IH.
Qed.

(** The example: the callbacks of [a] are called in order, that of
    [constructor] never. *)
Lemma body_callbacks_in_order_witness :
  (called name_a (snd (run GuacObject.new example_ops))
     ++ waiting (fst (run GuacObject.new example_ops)) name_a
   = [1%nat; 3%nat]) /\
  step (fst (run GuacObject.new example_ops)) (Body name_constructor)
  = (fst (run GuacObject.new example_ops), [TypeError]) /\
  called name_constructor (snd (run GuacObject.new example_ops)) = [].
Proof.
  split.
  - apply (proj1 (body_callbacks_in_order example_ops name_a)).
    apply (bool_decide_unpack (name_a ∉ Object_prototype)).
    vm_compute. exact I.
  - apply (proj2 (body_callbacks_in_order example_ops name_constructor)).
    apply (bool_decide_unpack (name_constructor ∈ Object_prototype)).
    vm_compute. exact I.
Defined.

End ObjectBodies.

(** ** Client: the indices of the output streams *)
Section StreamIndices.

Import Client ClientStreams.

Lemma release_partition (c : Client.t) (index : jsnum) :
  is_Some (output_streams c !! index) -> indices_partition c ->
  indices_partition (sendEnd c index).
Proof.
  intros Hlive (Hnd & Hn & Hfree & Hpart).
  unfold indices_partition, sendEnd.
  cbn [stream_indices output_streams IntegerPool.free IntegerPool.pool
         IntegerPool.next_int].
  assert (index ∉ IntegerPool.pool (stream_indices c)) as Hnot.
  { intros Hin. rewrite (Hfree index Hin) in Hlive. by destruct Hlive. }
  split; [|split; [exact Hn|split]].
  - apply NoDup_app. split; [exact Hnd|]. split; [|apply NoDup_singleton].
    intros j Hj Hj'. apply list_elem_of_singleton in Hj'. by subst.
  - intros j Hj. apply elem_of_app in Hj as [Hj|Hj].
    + destruct (decide (index = j)) as [->|Hne];
        [by rewrite lookup_delete_eq|].
      rewrite lookup_delete_ne by done. by apply Hfree.
    + apply list_elem_of_singleton in Hj. subst. by rewrite lookup_delete_eq.
  - intros j. rewrite <- Hpart, elem_of_app, list_elem_of_singleton.
    destruct (decide (index = j)) as [->|Hne].
    + rewrite lookup_delete_eq. split; [intros _; by left|].
      intros _. by right; right.
    + rewrite lookup_delete_ne by done. split.
      * intros [H|[H|H]]; [by left | by right | by subst].
      * intros [H|H]; [by left | by right; left].
Qed.

Lemma createStream_partition (c : Client.t) :
  indices_partition c ->
  output_streams c !! fst (createStream c) = None /\
  indices_partition (snd (createStream c)).
Proof.
  intros (Hnd & Hn & Hfree & Hpart).
  unfold createStream, IntegerPool.next, indices_partition.
  destruct (IntegerPool.pool (stream_indices c)) as [|i q] eqn:Ep;
    cbn [fst snd stream_indices output_streams IntegerPool.pool
           IntegerPool.next_int].
  - assert (output_streams c
              !! Num (IntegerPool.next_int (stream_indices c)) = None)
      as Hnew.
    { apply eq_None_not_Some. intros Hs.
      destruct (proj1 (Hpart _) (or_introl Hs)) as (z & [= <-] & Hz). lia. }
    split; [exact Hnew|].
    split; [constructor|]. split; [lia|]. split.
    + intros j Hj. by apply elem_of_nil in Hj.
    + intros j. split.
      * intros [Hs|Hj]; [|by apply elem_of_nil in Hj].
        destruct (decide (Num (IntegerPool.next_int (stream_indices c)) = j))
          as [<-|Hne]; [eexists; split; [reflexivity|lia]|].
        rewrite lookup_insert_ne in Hs by done.
        destruct (proj1 (Hpart j) (or_introl Hs)) as (z & -> & Hz).
        exists z. split; [reflexivity | lia].
      * intros (z & -> & Hz). left.
        destruct (decide (z = IntegerPool.next_int (stream_indices c)))
          as [->|Hne]; [by rewrite lookup_insert_eq|].
        rewrite lookup_insert_ne by (intros [=]; lia).
        destruct (proj2 (Hpart (Num z))) as [Hs|Hj];
          [exists z; split; [reflexivity | lia] | exact Hs
          | by apply elem_of_nil in Hj].
  - apply NoDup_cons in Hnd as [Hi Hq].
    split; [apply Hfree; by left|].
    split; [exact Hq|]. split; [exact Hn|]. split.
    + intros j Hj. rewrite lookup_insert_ne by (intros ->; by apply Hi).
      apply Hfree. by right.
    + intros j. rewrite <- Hpart, elem_of_cons.
      destruct (decide (i = j)) as [->|Hne].
      * rewrite lookup_insert_eq. split; [intros _; by right; left|].
        intros _. by left.
      * rewrite lookup_insert_ne by done. split.
        -- intros [H|H]; [by left | by right; right].
        -- intros [H|[H|H]]; [by left | by subst | by right].
Qed.

Lemma set_onack_partition (c : Client.t) (index : jsnum) :
  indices_partition c -> indices_partition (set_onack c index).
Proof.
  intros (Hnd & Hn & Hfree & Hpart). unfold set_onack.
  destruct (output_streams c !! index) as [stream|] eqn:E; [|done].
  unfold indices_partition. cbn [stream_indices output_streams].
  assert (forall j, is_Some (<[index := mkOutput true]> (output_streams c)
                               !! j)
                    <-> is_Some (output_streams c !! j)) as Hkeys.
  { intros j. destruct (decide (index = j)) as [<-|Hne].
    - rewrite lookup_insert_eq, E. split; by eexists.
    - by rewrite lookup_insert_ne. }
  split; [exact Hnd|]. split; [exact Hn|]. split.
  - intros j Hj. apply eq_None_not_Some. rewrite Hkeys.
    rewrite (Hfree j Hj). by intros [? ?].
  - intros j. rewrite Hkeys. apply Hpart.
Qed.

Lemma call_partition (c : Client.t) (k : Call) :
  indices_partition c -> ends_live c [k] = true ->
  indices_partition (call c k).
Proof.
  intros Hinv Hk. destruct k as [onack|index]; cbn [call].
  - destruct (createStream_partition c Hinv) as [_ H].
    destruct (createStream c) as [index c1]. cbn [snd] in H.
    destruct onack; [by apply set_onack_partition | exact H].
  - cbn [ends_live] in Hk. apply andb_true_iff in Hk as [Hk _].
    apply release_partition; [|exact Hinv].
    by apply bool_decide_eq_true in Hk.
Qed.

Lemma calls_partition (ks : list Call) :
  forall c : Client.t,
    indices_partition c -> ends_live c ks = true ->
    indices_partition (calls c ks).
Proof.
  induction ks as [|k ks IH]; intros c Hinv Hd; [exact Hinv|].
  cbn [calls ends_live] in *. apply andb_true_iff in Hd as [Hk Hd].
  apply IH; [|exact Hd]. apply call_partition; [exact Hinv|].
  cbn [ends_live]. by rewrite Hk.
Qed.

(** An [onack] handler that makes no call leaves the handler of the
    instruction as [Client.ack] has it. *)
Lemma ack_quiet (c : Client.t) (parameters : list jsstring) :
  ack_calling c parameters [] = fst (Client.ack c parameters).
Proof.
  unfold ack_calling, ack. cbn [calls].
  destruct (output_streams c !! parseInt_parameter parameters 0)
    as [stream|]; [|done].
  assert ((if onack stream then c else c) = c) as -> by (by destruct (onack stream)).
  by destruct (JS.ge _ _).
Qed.

Lemma run_partition_streams (ops : list Op) :
  forall c : Client.t,
    indices_partition c -> ends_live_streams c ops = true ->
    indices_partition (run c ops).
Proof.
  induction ops as [|op ops IH]; intros c Hinv Hd; [exact Hinv|].
  cbn [run ends_live_streams] in *.
  apply andb_true_iff in Hd as [Hop Hd]. apply IH; [|exact Hd].
  destruct op as [k|parameters during]; cbn [step].
  - by apply call_partition.
  - unfold ack_calling.
    destruct (output_streams c !! parseInt_parameter parameters 0)
      as [stream|] eqn:E; [|exact Hinv].
    destruct (onack stream) eqn:Eon; cbn [negb orb] in Hop.
    + apply andb_true_iff in Hop as [Hlive Hstill].
      pose proof (calls_partition during c Hinv Hlive) as Hinv1.
      destruct (JS.ge _ _); [|exact Hinv1]. cbn [negb orb] in Hstill.
      apply (release_partition (calls c during)
               (parseInt_parameter parameters 0)); [|exact Hinv1].
      by apply bool_decide_eq_true in Hstill.
    + destruct (JS.ge _ _); [|exact Hinv].
      apply (release_partition c (parseInt_parameter parameters 0));
        [by rewrite E | exact Hinv].
Qed.

(** X24: While the consumer calls [sendEnd] only on
    streams still in the table, from inside [onack] handlers too, and
    does not end, inside its [onack] handler, the stream that is being
    acknowledged with an error code, and whatever the server
    acknowledges, a new output stream never gets the index of a stream
    that is in the table: the indices in the table and the indices in
    the pool are the integers below [next_int], each in exactly one of
    the two. *)
Theorem new_stream_index_is_unused (ops : list Op) :
  ends_live_streams ClientStreams.new ops = true ->
  let c := run ClientStreams.new ops in
  output_streams c !! fst (createStream c) = None /\
  indices_partition c.
Proof.
  intros Hd c.
  assert (indices_partition c) as Hinv.
  { apply run_partition_streams; [|exact Hd].
    split; [constructor|]. split; [done|]. split.
    - intros i Hi. by apply elem_of_nil in Hi.
    - intros i. split.
      + intros [[s Hs]|Hi];
          [unfold ClientStreams.new in Hs; cbn [output_streams] in Hs;
           by rewrite lookup_empty in Hs|].
        by apply elem_of_nil in Hi.
      + intros (z & _ & Hz). cbn in Hz. lia. }
  split; [by apply createStream_partition | exact Hinv].
Qed.

Lemma new_stream_index_is_unused_witness :
  output_streams (run ClientStreams.new example_run)
    !! fst (createStream (run ClientStreams.new example_run)) = None /\
  indices_partition (run ClientStreams.new example_run).
Proof.
  apply (new_stream_index_is_unused example_run).
  apply (bool_decide_unpack
           (ends_live_streams ClientStreams.new example_run = true)).
  vm_compute. exact I.
Defined.

(** X29: An [onack] handler that ends its stream
    when the stream is acknowledged with an error code has the index
    freed twice, once by [sendEnd] and once more by the handler of the
    instruction: with an empty pool before, the next two streams are
    both given that index. *)
Theorem stream_ended_in_onack_shares_index (c : Client.t) (index : jsnum)
  (parameters : list jsstring) :
  output_streams c !! index = Some (mkOutput true) ->
  IntegerPool.pool (stream_indices c) = [] ->
  parseInt_parameter parameters 0 = index ->
  JS.ge (parseInt_parameter parameters 2) (Num 0x0100) = true ->
  let after := ack_calling c parameters [SendEnd index] in
  IntegerPool.pool (stream_indices after) = [index; index] /\
  fst (createStream after) = index /\
  fst (createStream (snd (createStream after))) = index.
Proof.
  intros Hs Hp Hi Hcode after.
  unfold after, ack_calling. rewrite Hi, Hs, Hcode.
  unfold createStream, calls, call, sendEnd, IntegerPool.next,
    IntegerPool.free.
  cbn [onack fst snd stream_indices output_streams IntegerPool.pool
         IntegerPool.next_int].
  rewrite Hp. by cbn.
Qed.

Lemma stream_ended_in_onack_shares_index_witness :
  IntegerPool.pool
    (stream_indices
       (ack_calling one_output_stream [[48]; [120]; [50; 53; 54]]
          [SendEnd (Num 0)])) = [Num 0; Num 0] /\
  fst (createStream
         (ack_calling one_output_stream [[48]; [120]; [50; 53; 54]]
            [SendEnd (Num 0)])) = Num 0 /\
  fst (createStream
         (snd (createStream
                 (ack_calling one_output_stream
                    [[48]; [120]; [50; 53; 54]] [SendEnd (Num 0)]))))
  = Num 0.
Proof.
  apply (stream_ended_in_onack_shares_index one_output_stream (Num 0)
           [[48]; [120]; [50; 53; 54]]);
    reflexivity.
Defined.

(** X25: A stream ended by the consumer after an
    acknowledgement with an error code took it out of the table, or
    ended twice, puts its index into the pool twice: with an empty pool
    before, the next two streams are both given that index, and the
    second takes the place of the first in the table. *)
Theorem stream_ended_twice_shares_index (c : Client.t) (index : jsnum)
  (stream : OutputStream) (parameters : list jsstring) :
  output_streams c !! index = Some stream ->
  IntegerPool.pool (stream_indices c) = [] ->
  parseInt_parameter parameters 0 = index ->
  JS.ge (parseInt_parameter parameters 2) (Num 0x0100) = true ->
  let after_error := sendEnd (fst (ack c parameters)) index in
  let ended_twice := sendEnd (sendEnd c index) index in
  fst (createStream after_error) = index /\
  fst (createStream (snd (createStream after_error))) = index /\
  fst (createStream ended_twice) = index /\
  fst (createStream (snd (createStream ended_twice))) = index.
Proof.
  intros Hs Hp Hi Hcode after_error ended_twice.
  unfold after_error, ended_twice, ack. rewrite Hi, Hs, Hcode.
  unfold createStream, sendEnd, IntegerPool.next, IntegerPool.free.
  cbn [fst snd stream_indices output_streams IntegerPool.pool
         IntegerPool.next_int].
  rewrite Hp. by cbn.
Qed.

Lemma stream_ended_twice_shares_index_witness :
  let after_error :=
    sendEnd (fst (ack one_output_stream [[48]; [120]; [50; 53; 54]]))
      (Num 0) in
  let ended_twice := sendEnd (sendEnd one_output_stream (Num 0)) (Num 0) in
  fst (createStream after_error) = Num 0 /\
  fst (createStream (snd (createStream after_error))) = Num 0 /\
  fst (createStream ended_twice) = Num 0 /\
  fst (createStream (snd (createStream ended_twice))) = Num 0.
Proof.
  apply (stream_ended_twice_shares_index one_output_stream (Num 0)
           (mkOutput true) [[48]; [120]; [50; 53; 54]]);
    reflexivity.
Defined.

End StreamIndices.

(** ** Errors without a status code *)
Section ErrorsWithoutCode.

Import TunnelErrors.

(** X26: When the WebSocket is closed with a reason that
    is not a number (the empty reason of an ordinary close, say), the
    tunnel reports an error through [onerror], and the status it reports
    is not an error by its own [isError()]: its code is NaN. *)
Theorem websocket_close_reports_NaN (tunnel : WebSocketTunnel.t)
  (reason : jsstring) :
  WebSocketTunnel.state tunnel <> Tunnel.CLOSED ->
  WebSocketTunnel.onerror tunnel = true ->
  parseInt reason = NaN ->
  snd (onclose tunnel reason)
  = WebSocketTunnel.OnError (Status.mk NaN (Some reason))
      :: (if WebSocketTunnel.onstatechange tunnel
          then [WebSocketTunnel.OnStateChange Tunnel.CLOSED] else [])
      ++ [WebSocketTunnel.SocketClose] /\
  Status.isError (Status.mk NaN (Some reason)) = false /\
  WebSocketTunnel.state (fst (onclose tunnel reason)) = Tunnel.CLOSED.
Proof.
  intros Hs Hon Hr. unfold onclose, WebSocketTunnel.close_tunnel.
  rewrite bool_decide_eq_false_2 by exact Hs. rewrite Hr, Hon.
  cbn [snd fst Status.code JS.ne JS.eq negb andb app
         WebSocketTunnel.state].
  by repeat split.
Qed.

Lemma websocket_close_reports_NaN_witness :
  snd (onclose (WebSocketTunnel.mk Tunnel.OPEN true true true) [])
  = WebSocketTunnel.OnError (Status.mk NaN (Some []))
      :: [WebSocketTunnel.OnStateChange Tunnel.CLOSED]
      ++ [WebSocketTunnel.SocketClose] /\
  Status.isError (Status.mk NaN (Some [])) = false /\
  WebSocketTunnel.state
    (fst (onclose (WebSocketTunnel.mk Tunnel.OPEN true true true) []))
  = Tunnel.CLOSED.
Proof.
  apply (websocket_close_reports_NaN
           (WebSocketTunnel.mk Tunnel.OPEN true true true) []);
    [discriminate | reflexivity | reflexivity].
Defined.

End ErrorsWithoutCode.


(** ** The Parser after an illegal terminator *)
Section IllegalTerminator.

Import Codec Parser ParserErrors.

Lemma take_element_illegal (p : Parser.t) (out : list Instruction)
  (pre value post : jsstring) (t : Z) :
  t <> COMMA -> t <> SEMICOLON ->
  buffer p = pre ++ value ++ t :: post ->
  start_index p = strlen pre ->
  element_end p = Num (strlen pre + strlen value) ->
  take_element p out
  = inr ({| buffer := buffer p;
            element_buffer := element_buffer p ++ [value];
            element_end := element_end p; start_index := start_index p;
            oninstruction := oninstruction p |}, out).
Proof.
  intros Hc Hs Hb Hsi He. unfold take_element. rewrite Hb, Hsi, He.
  cbn [JS.ge JS.add ToInteger]. pose proof (strlen_nonneg value).
  rewrite (proj2 (Z.leb_le _ _)) by lia.
  rewrite substring_app_mid, substring_terminator.
  rewrite bool_decide_eq_false_2 by (by intros [=]).
  by rewrite bool_decide_eq_true_2 by (by intros [=]).
Qed.

(** Before an element with an illegal terminator, [receive] throws and
    leaves the parser before that element. *)
Lemma receive_before_illegal (p : Parser.t) (value packet : jsstring)
  (t : Z) :
  t <> COMMA -> t <> SEMICOLON -> before_element p value t ->
  exists p',
    receive p packet
    = Some {| parser := p'; emitted := [];
              completion := Threw IllegalTerminator |} /\
    before_element p' value t /\
    element_buffer p' = element_buffer p ++ [value].
Proof.
  intros Hc Hs (pre & post & Hb & Hsi & He).
  destruct (truncate_at_body p pre (value ++ t :: post) value Hb Hsi He)
    as (pre' & Hb' & Hs' & He' & Heb' & Hon').
  unfold receive. set (p1 := append (truncate p) packet).
  assert (buffer p1 = pre' ++ value ++ t :: (post ++ packet)) as Hb1
    by (cbn [buffer p1 append]; rewrite Hb'; by rewrite <- !app_assoc).
  replace (length (buffer p1) + 2)%nat with (S (length (buffer p1) + 1))
    by lia.
  assert (element_end p1 = Num (strlen pre' + strlen value)) as He1
    by exact He'.
  assert (strlen pre' + strlen value < strlen (buffer p1)) as Hlt.
  { rewrite Hb1, !strlen_app, strlen_cons.
    pose proof (strlen_nonneg (post ++ packet)). lia. }
  cbn [parse_loop]. rewrite He1. cbn [JS.lt].
  rewrite (proj2 (Z.ltb_lt _ _)) by exact Hlt.
  rewrite (take_element_illegal p1 [] pre' value (post ++ packet) t Hc Hs
             Hb1 Hs' He1).
  eexists. split; [reflexivity|]. split.
  - exists pre', (post ++ packet). by repeat split.
  - cbn [element_buffer p1 append]. by rewrite Heb'.
Qed.

Lemma receive_each_illegal (packets : list jsstring) :
  forall (p : Parser.t) (value : jsstring) (t : Z),
    t <> COMMA -> t <> SEMICOLON -> before_element p value t ->
    Forall threw_illegal_terminator (receive_each p packets) /\
    length (receive_each p packets) = length packets.
Proof.
  induction packets as [|packet rest IH]; intros p value t Hc Hs Hbefore;
    [by split; [constructor|]|].
  destruct (receive_before_illegal p value packet t Hc Hs Hbefore)
    as (p' & E & Hbefore' & _).
  cbn [receive_each]. rewrite E. cbn [parser].
  destruct (IH p' value t Hc Hs Hbefore') as [Hall Hlen].
  split; [|cbn [length]; by rewrite Hlen].
  constructor; [|exact Hall]. eexists. by repeat split.
Qed.

(** X28: A new parser that receives an element followed
    by a character other than a comma or a semicolon throws "Illegal
    terminator.", and from then on every call of [receive] throws it
    again, whatever it is given, and hands on no instruction: the parser
    does not get past the element. *)
Theorem illegal_terminator_is_final (value post : jsstring) (t : Z)
  (packets : list jsstring) :
  t <> COMMA -> t <> SEMICOLON ->
  Forall threw_illegal_terminator
    (receive_each (set_oninstruction Parser.new)
       ((getElement value ++ t :: post) :: packets)) /\
  length (receive_each (set_oninstruction Parser.new)
            ((getElement value ++ t :: post) :: packets))
  = S (length packets).
Proof.
  intros Hc Hs.
  set (digits := number_toString (strlen value)).
  set (packet := getElement value ++ t :: post).
  assert (exists p',
            receive (set_oninstruction Parser.new) packet
            = Some {| parser := p'; emitted := [];
                      completion := Threw IllegalTerminator |} /\
            before_element p' value t) as (p' & E & Hbefore).
  { unfold receive, truncate, set_oninstruction, Parser.new, append.
    cbn [start_index element_end JS.ge buffer element_buffer oninstruction
           app andb Z.ltb Z.compare].
    set (p0 := {| buffer := packet; element_buffer := [];
                  element_end := Num (-1); start_index := 0;
                  oninstruction := true |}).
    replace (length packet + 2)%nat with (S (S (length packet))) by lia.
    set (fuel := S (length packet)).
    cbn [parse_loop]. cbn [element_end buffer p0 JS.lt].
    pose proof (strlen_nonneg packet).
    rewrite (proj2 (Z.ltb_lt _ _)) by lia.
    assert (take_element p0 [] = inl (p0, [])) as Et by reflexivity.
    rewrite Et.
    rewrite (read_length_element p0 [] value (t :: post) (-1));
      [|reflexivity|reflexivity|reflexivity|reflexivity].
    change (strlen []) with 0. fold digits.
    match goal with |- context [parse_loop _ ?r _] => set (p1 := r) end.
    assert (buffer p1 = (digits ++ [DOT]) ++ value ++ t :: post) as Hb1
      by (cbn [buffer p1 p0]; unfold packet, getElement;
          by rewrite <- !app_assoc).
    assert (strlen (digits ++ [DOT]) = strlen digits + 1) as Hl
      by (rewrite strlen_app; reflexivity).
    assert (start_index p1 = strlen (digits ++ [DOT])) as Hs1
      by (rewrite Hl; cbn [start_index p1]; lia).
    assert (element_end p1 = Num (strlen (digits ++ [DOT]) + strlen value))
      as He1 by (rewrite Hl; cbn [element_end p1]; f_equal; lia).
    assert (strlen (digits ++ [DOT]) + strlen value < strlen (buffer p1))
      as Hlt.
    { rewrite Hb1. unfold strlen. rewrite !length_app. cbn [length]. lia. }
    subst fuel. cbn [parse_loop]. rewrite He1. cbn [JS.lt].
    rewrite (proj2 (Z.ltb_lt _ _)) by exact Hlt.
    rewrite (take_element_illegal p1 [] (digits ++ [DOT]) value post t
               Hc Hs Hb1 Hs1 He1).
    eexists. split; [reflexivity|].
    exists (digits ++ [DOT]), post. by repeat split. }
  destruct (receive_each_illegal packets p' value t Hc Hs Hbefore)
    as [Hall Hlen].
  cbn [receive_each]. rewrite E. cbn [parser length].
  split; [|by rewrite Hlen].
  constructor; [|exact Hall]. eexists. by repeat split.
Qed.

Lemma illegal_terminator_is_final_witness :
  Forall threw_illegal_terminator
    (receive_each (set_oninstruction Parser.new)
       ((getElement [110; 111; 112] ++ 10 :: [])
          :: [[51; 46; 110; 111; 112; 59]; []])) /\
  length (receive_each (set_oninstruction Parser.new)
            ((getElement [110; 111; 112] ++ 10 :: [])
               :: [[51; 46; 110; 111; 112; 59]; []]))
  = 3%nat.
Proof.
  apply (illegal_terminator_is_final [110; 111; 112] [] 10
           [[51; 46; 110; 111; 112; 59]; []]); discriminate.
Defined.

End IllegalTerminator.
